(** * Dynamic LoRA slot widgets of the Model Manager nodes

    A shallow embedding of the multi-LoRA part of [js/modelManager.js]:
    the zone layout, the pointer handling of one slot widget, the inline
    strength overlay, the toggle-all widget, the slot list operations
    (add, remove, move, renumber), the mode switch and the save / restore
    protocol.

    Conventions of the embedding.
    - A JavaScript number is an exact rational ([Q]); the rounding error of
      IEEE doubles is not modelled.  [Math.round] is [floor (x + 1/2)].
    - A slot value [{on, lora, strength, strengthTwo}] is the record
      [LoraValue]; [strengthTwo] is [None] for [null] / [undefined].
    - One widget object is seen through two records.  [SlotWidget] has the
      fields that the handlers of a slot widget use ([value] as a record,
      the click times, the drag state); [Widget] has the fields that the
      code working on [node.widgets] uses (identity, name, flags, and a
      [wvalue] that may still be a bare string).
    - The canvas, the DOM and LiteGraph are the host.  A handler returns,
      next to the new state, the host request it makes (open the overlay,
      open the dropdown); [setDirtyCanvas] and [fitNodeHeight] only repaint
      and resize and are left out, and so is [node.inputs].
    - A function on the widget list returns [option] where the source can
      throw (a property read on [null]) or can build a value that the
      records here cannot hold (the spread of a string); [None] stands for
      both. *)

From Stdlib Require Import ZArith QArith Qround Qabs Qminmax Lqa Lia.
From Stdlib Require Import String Ascii DecimalString DecimalNat.
From stdpp Require Import base list.

Local Open Scope string_scope.
Local Open Scope list_scope.

(** ** Numbers *)

Definition Qltb (a b : Q) : bool := negb (Qle_bool b a).
Definition Qgeb (a b : Q) : bool := Qle_bool b a.

(** [Math.round(x)]: the nearest integer, halves towards plus infinity.
    Numbers are exact rationals here and doubles in the source: an exact
    tie such as 102.5 can be 102.49999999999999 there and round the other
    way.  The statements give exact results where the two agree (values
    with two decimals, whole pixels) and bounds elsewhere. *)
Definition Math_round (x : Q) : Q := inject_Z (Qfloor (x + (1 # 2))).

(** [Math.round(x * 100) / 100]. *)
Definition round2 (x : Q) : Q := (Math_round (x * 100) / 100)%Q.

(** [Math.max(-20, Math.min(20, x))]. *)
Definition clamp20 (x : Q) : Q := Qmax (-20) (Qmin 20 x).

(** The result of [parseFloat]: not a number, an infinity, or a number. *)
Inductive Parsed : Type :=
| PNaN
| PInfinity (negative : bool)
| PNumber (q : Q).

(** ** Slot values *)

Record LoraValue : Type := mkLoraValue {
  on : bool;
  lora : string;
  strength : Q;
  strengthTwo : option Q
}.

Inductive StrengthKey : Type := KStrength | KStrengthTwo.

(** [{ ...v, [key]: x }] *)
Definition setKey (key : StrengthKey) (x : Q) (v : LoraValue) : LoraValue :=
  match key with
  | KStrength => mkLoraValue (on v) (lora v) x (strengthTwo v)
  | KStrengthTwo => mkLoraValue (on v) (lora v) (strength v) (Some x)
  end.

(** [v.strengthTwo ?? v.strength] *)
Definition strengthTwoOr (v : LoraValue) : Q :=
  match strengthTwo v with
  | Some s2 => s2
  | None => strength v
  end.

(** [v[key]] for the reads of [w.mouse]: [v.strength], and
    [v.strengthTwo ?? v.strength] for the second column. *)
Definition readKey (key : StrengthKey) (v : LoraValue) : Q :=
  match key with
  | KStrength => strength v
  | KStrengthTwo => strengthTwoOr v
  end.

(** ** Zone layout *)

Definition MARGIN : Q := 15.
Definition SWITCH_W : Q := 22.
Definition SWITCH_H : Q := 12.
Definition SWITCH_PAD : Q := 4.
Definition ARROW_W : Q := 14.
Definition STRENGTH_NUM_W : Q := 36.

Record Zone : Type := mkZone { zx : Q; zw : Q }.

Record Zones : Type := mkZones {
  toggle : Zone;
  name_zone : Zone;
  arrowLeft : Zone;
  strengthNum : Zone;
  arrowRight : Zone;
  arrowLeft2 : option Zone;
  strengthNum2 : option Zone;
  arrowRight2 : option Zone
}.

Definition loraZones (width : Q) (dual : bool) : Zones :=
  let switchX := (MARGIN + SWITCH_PAD)%Q in
  let nameX := (switchX + SWITCH_W + 8)%Q in
  if dual then
    let col2End := (width - MARGIN)%Q in
    let col2ArrowRight := (col2End - ARROW_W)%Q in
    let col2Num := (col2ArrowRight - STRENGTH_NUM_W)%Q in
    let col2ArrowLeft := (col2Num - ARROW_W)%Q in
    let col1End := (col2ArrowLeft - 2)%Q in
    let col1ArrowRight := (col1End - ARROW_W)%Q in
    let col1Num := (col1ArrowRight - STRENGTH_NUM_W)%Q in
    let col1ArrowLeft := (col1Num - ARROW_W)%Q in
    let nameEnd := (col1ArrowLeft - 4)%Q in
    {| toggle := mkZone MARGIN (nameX - MARGIN);
       name_zone := mkZone nameX (nameEnd - nameX);
       arrowLeft := mkZone col1ArrowLeft ARROW_W;
       strengthNum := mkZone col1Num STRENGTH_NUM_W;
       arrowRight := mkZone col1ArrowRight ARROW_W;
       arrowLeft2 := Some (mkZone col2ArrowLeft ARROW_W);
       strengthNum2 := Some (mkZone col2Num STRENGTH_NUM_W);
       arrowRight2 := Some (mkZone col2ArrowRight ARROW_W) |}
  else
    let arrowRightEnd := (width - MARGIN)%Q in
    let arrowRightX := (arrowRightEnd - ARROW_W)%Q in
    let numEnd := arrowRightX in
    let numX := (numEnd - STRENGTH_NUM_W)%Q in
    let arrowLeftEnd := numX in
    let arrowLeftX := (arrowLeftEnd - ARROW_W)%Q in
    let nameEnd := (arrowLeftX - 4)%Q in
    {| toggle := mkZone MARGIN (nameX - MARGIN);
       name_zone := mkZone nameX (nameEnd - nameX);
       arrowLeft := mkZone arrowLeftX ARROW_W;
       strengthNum := mkZone numX STRENGTH_NUM_W;
       arrowRight := mkZone arrowRightX ARROW_W;
       arrowLeft2 := None;
       strengthNum2 := None;
       arrowRight2 := None |}.

(** [x >= z.x && x < z.x + z.w] *)
Definition inZone (z : Zone) (x : Q) : bool :=
  Qgeb x (zx z) && Qltb x (zx z + zw z).

(** [dual && z.zone2 && x >= z.zone2.x && x < z.zone2.x + z.zone2.w] *)
Definition inZone2 (dual : bool) (z : option Zone) (x : Q) : bool :=
  dual && match z with Some z2 => inZone z2 x | None => false end.

(** ** One slot widget *)

Inductive EventType : Type :=
| pointerdown | mousedown
| pointermove | mousemove
| pointerup | mouseup
| dblclick
| otherEvent (t : string).

Record Event : Type := mkEvent {
  type : EventType;
  canvasX : option Q;
  clientX : Q
}.

(** [event.canvasX ?? event.clientX] *)
Definition eventX (e : Event) : Q :=
  match canvasX e with
  | Some cx => cx
  | None => clientX e
  end.

Record DragState : Type := mkDragState {
  key : StrengthKey;
  startX : Q;
  startVal : Q;
  _dragged : bool
}.

(** The fields of a slot widget that [w.draw], [w.mouse] and
    [w.serializeValue] read and write. *)
Record SlotWidget : Type := mkSlotWidget {
  value : LoraValue;
  _lastStrengthClick : Z;
  _lastStrengthClick2 : Z;
  _dragState : option DragState
}.

Definition withValue (v : LoraValue) (w : SlotWidget) : SlotWidget :=
  mkSlotWidget v (_lastStrengthClick w) (_lastStrengthClick2 w) (_dragState w).

Definition withDrag (d : option DragState) (w : SlotWidget) : SlotWidget :=
  mkSlotWidget (value w) (_lastStrengthClick w) (_lastStrengthClick2 w) d.

Definition withClick (t : Z) (w : SlotWidget) : SlotWidget :=
  mkSlotWidget (value w) t (_lastStrengthClick2 w) (_dragState w).

Definition withClick2 (t : Z) (w : SlotWidget) : SlotWidget :=
  mkSlotWidget (value w) (_lastStrengthClick w) t (_dragState w).

(** What a handler asks of the host. *)
Inductive Request : Type :=
| NoRequest
| ShowStrengthInput (k : StrengthKey)
| ShowLoraDropdown.

Record MouseResult : Type := mkMouseResult {
  widgetAfter : SlotWidget;
  handled : bool;
  request : Request
}.

Definition isDown (t : EventType) : bool :=
  match t with pointerdown | mousedown => true | _ => false end.
Definition isMove (t : EventType) : bool :=
  match t with pointermove | mousemove => true | _ => false end.
Definition isUpType (t : EventType) : bool :=
  match t with pointerup | mouseup => true | _ => false end.
Definition isDblClickType (t : EventType) : bool :=
  match t with dblclick => true | _ => false end.

(** [this._dragState?._dragged] *)
Definition wasDragged (w : SlotWidget) : bool :=
  match _dragState w with
  | Some d => _dragged d
  | None => false
  end.

(** The click part of [w.mouse]: what a [pointerup] / [mouseup] does once
    the drag session is out of the way. *)
Definition mouseClick (dual : bool) (z : Zones) (now : Z) (x : Q)
    (this : SlotWidget) : MouseResult :=
  let v := value this in
  if Qltb x (zx (toggle z) + zw (toggle z)) then
    mkMouseResult
      (withValue (mkLoraValue (negb (on v)) (lora v) (strength v) (strengthTwo v)) this)
      true NoRequest
  else if inZone (arrowLeft z) x then
    let s := Qmax (-20) (strength v - 0.05) in
    mkMouseResult (withValue (setKey KStrength (round2 s) v) this) true NoRequest
  else if inZone (strengthNum z) x then
    if (now - _lastStrengthClick this <? 500)%Z then
      mkMouseResult (withClick 0 this) true (ShowStrengthInput KStrength)
    else
      mkMouseResult (withClick now this) true NoRequest
  else if inZone (arrowRight z) x then
    let s := Qmin 20 (strength v + 0.05) in
    mkMouseResult (withValue (setKey KStrength (round2 s) v) this) true NoRequest
  else
    match (if dual then arrowLeft2 z else None), strengthNum2 z, arrowRight2 z with
    | Some aL2, Some n2, Some aR2 =>
        if inZone aL2 x then
          let s2 := (strengthTwoOr v - 0.05)%Q in
          mkMouseResult
            (withValue (setKey KStrengthTwo (round2 (Qmax (-20) s2)) v) this)
            true NoRequest
        else if inZone n2 x then
          if (now - _lastStrengthClick2 this <? 500)%Z then
            mkMouseResult (withClick2 0 this) true (ShowStrengthInput KStrengthTwo)
          else
            mkMouseResult (withClick2 now this) true NoRequest
        else if inZone aR2 x then
          let s2 := (strengthTwoOr v + 0.05)%Q in
          mkMouseResult
            (withValue (setKey KStrengthTwo (round2 (Qmin 20 s2)) v) this)
            true NoRequest
        else mkMouseResult this true ShowLoraDropdown
    | _, _, _ => mkMouseResult this true ShowLoraDropdown
    end.

(** [w.mouse(event, pos)].  [width] is [node.size[0]], [dual] is
    [isDualMode(node)] and [now] is [Date.now()] at the time of the call. *)
Definition mouse (width : Q) (dual : bool) (now : Z) (event : Event)
    (pos : Q * Q) (this : SlotWidget) : MouseResult :=
  let t := type event in
  let z := loraZones width dual in
  let x := fst pos in
  if isDown t then
    let d :=
      if inZone (strengthNum z) x then
        Some (mkDragState KStrength (eventX event) (strength (value this)) false)
      else if inZone2 dual (strengthNum2 z) x then
        Some (mkDragState KStrengthTwo (eventX event) (strengthTwoOr (value this)) false)
      else None in
    mkMouseResult (withDrag d this) true NoRequest
  else if isMove t then
    match _dragState this with
    | Some d =>
        let dx := (eventX event - startX d)%Q in
        if Qltb 2 (Qabs dx) then
          let delta := (dx * 0.01)%Q in
          let newVal := clamp20 (startVal d + delta) in
          mkMouseResult
            (mkSlotWidget (setKey (key d) (round2 newVal) (value this))
               (_lastStrengthClick this) (_lastStrengthClick2 this)
               (Some (mkDragState (key d) (startX d) (startVal d) true)))
            true NoRequest
        else mkMouseResult this true NoRequest
    | None => mkMouseResult this false NoRequest
    end
  else
    let isUp := isUpType t in
    let isDblClick := isDblClickType t in
    if isUp && wasDragged this then
      mkMouseResult (withDrag None this) true NoRequest
    else
      let this := withDrag None this in
      if negb isUp && negb isDblClick then mkMouseResult this false NoRequest
      else if isDblClick then
        if inZone (strengthNum z) x then
          mkMouseResult this true (ShowStrengthInput KStrength)
        else if inZone2 dual (strengthNum2 z) x then
          mkMouseResult this true (ShowStrengthInput KStrengthTwo)
        else mkMouseResult this false NoRequest
      else mouseClick dual z now x this.

(** The text [showStrengthInput] puts in the overlay is
    [(widget.value[key] ?? widget.value.strength).toFixed(2)]; this is the
    number it formats. *)
Definition overlayInitial (k : StrengthKey) (v : LoraValue) : Q := readKey k v.

(** [apply] of [showStrengthInput]: commit of the overlay on Enter or on
    blur; [p] is [parseFloat(input.value)]. *)
Definition apply (k : StrengthKey) (p : Parsed) (widget : SlotWidget) : SlotWidget :=
  match p with
  | PNaN => widget
  | PInfinity negative =>
      withValue (setKey k (if negative then (-20)%Q else 20%Q) (value widget)) widget
  | PNumber v => withValue (setKey k (clamp20 v) (value widget)) widget
  end.

(** The callback of [showLoraDropdown]: the menu choice [v]. *)
Definition dropdownSelect (v : string) (widget : SlotWidget) : SlotWidget :=
  let old := value widget in
  withValue (mkLoraValue (negb (String.eqb v "None")) v (strength old) (strengthTwo old))
    widget.

(** [w.draw]: the number written in the second strength column, when the
    column is drawn at all. *)
Definition drawStrengthTwo (width : Q) (dual : bool) (this : SlotWidget) : option Q :=
  let z := loraZones width dual in
  match (if dual then arrowLeft2 z else None) with
  | Some _ => Some (strengthTwoOr (value this))
  | None => None
  end.

(** [w.draw]: the number written in the first strength column. *)
Definition drawStrength (this : SlotWidget) : Q := strength (value this).

(** ** Interactions with one slot widget *)

Inductive Interaction : Type :=
| IMouse (width : Q) (dual : bool) (now : Z) (event : Event) (pos : Q * Q)
| IApply (k : StrengthKey) (p : Parsed)
| ISelect (v : string).

Definition interact (w : SlotWidget) (i : Interaction) : SlotWidget :=
  match i with
  | IMouse width dual now event pos => widgetAfter (mouse width dual now event pos w)
  | IApply k p => apply k p w
  | ISelect v => dropdownSelect v w
  end.

Definition interactAll (acts : list Interaction) (w : SlotWidget) : SlotWidget :=
  fold_left interact acts w.

Definition inRange (q : Q) : Prop := (-20 <= q)%Q /\ (q <= 20)%Q.

Definition strengthsInRange (v : LoraValue) : Prop :=
  inRange (strength v) /\
  match strengthTwo v with
  | Some s2 => inRange s2
  | None => True
  end.

(** The strength-number zone under [x], with the precedence of [w.mouse]:
    the first column, then (in dual mode) the second one. *)
Definition numberZoneAt (width : Q) (dual : bool) (x : Q) : option StrengthKey :=
  let z := loraZones width dual in
  if inZone (strengthNum z) x then Some KStrength
  else if inZone2 dual (strengthNum2 z) x then Some KStrengthTwo
  else None.

(** [_lastStrengthClick] for the first column, [_lastStrengthClick2] for the
    second one. *)
Definition lastClick (k : StrengthKey) (w : SlotWidget) : Z :=
  match k with
  | KStrength => _lastStrengthClick w
  | KStrengthTwo => _lastStrengthClick2 w
  end.

Definition withLastClick (k : StrengthKey) (t : Z) (w : SlotWidget) : SlotWidget :=
  match k with
  | KStrength => withClick t w
  | KStrengthTwo => withClick2 t w
  end.

(** A pointer event as the host delivers it: the time, the event, [pos]. *)
Definition Delivery : Type := (Z * Event * (Q * Q))%type.

Definition deliveredEvent (d : Delivery) : Event := snd (fst d).

Definition deliver (width : Q) (dual : bool) (w : SlotWidget) (d : Delivery) : MouseResult :=
  mouse width dual (fst (fst d)) (snd (fst d)) (snd d) w.


(** The displacement of a move from the press at [X0] is over the drag
    threshold: [Math.abs(dx) > 2]. *)
Definition overThreshold (X0 : Q) (d : Delivery) : Prop :=
  (2 < Qabs (eventX (deliveredEvent d) - X0))%Q.

(** [Math.abs(dx) > 2] as the source tests it. *)
Definition overThresholdb (X0 : Q) (d : Delivery) : bool :=
  Qltb 2 (Qabs (eventX (deliveredEvent d) - X0)).

Definition isMoveDelivery (d : Delivery) : Prop :=
  isMove (type (deliveredEvent d)) = true.

(** The displacement of a move stays within the threshold: not
    [Math.abs(dx) > 2]. *)
Definition withinThreshold (X0 : Q) (d : Delivery) : Prop :=
  (Qabs (eventX (deliveredEvent d) - X0) <= 2)%Q.

(** [x] is right of the toggle zone: not [x < z.toggle.x + z.toggle.w]. *)
Definition pastToggle (width : Q) (dual : bool) (x : Q) : Prop :=
  let z := loraZones width dual in
  (zx (toggle z) + zw (toggle z) <= x)%Q.

(** ** Widgets of a node *)

(** The [value] of a widget as the node code meets it: [null] (a button),
    a string (a combo, a button, or a slot widget that an API-format load
    filled with a bare name), or a slot record. *)
Inductive WidgetValue : Type :=
| VNull
| VString (s : string)
| VLora (v : LoraValue).

(** The fields of a widget object that the list operations read and write.
    [uid] stands for the identity of the JavaScript object: [indexOf]
    compares widgets by it. *)
Record Widget : Type := mkWidget {
  uid : nat;
  name : string;
  wtype : string;
  wvalue : WidgetValue;
  serialize : bool;
  _isLoraSlot : bool;
  _isToggleAll : bool;
  _isAddLora : bool
}.

Definition withName (s : string) (w : Widget) : Widget :=
  mkWidget (uid w) s (wtype w) (wvalue w) (serialize w)
    (_isLoraSlot w) (_isToggleAll w) (_isAddLora w).

Definition withWValue (v : WidgetValue) (w : Widget) : Widget :=
  mkWidget (uid w) (name w) (wtype w) v (serialize w)
    (_isLoraSlot w) (_isToggleAll w) (_isAddLora w).

(** [node.widgets], [node.properties.showStrengths] ([None] when it is not
    set) and the counter that hands out object identities. *)
Record Node : Type := mkNode {
  widgets : list Widget;
  showStrengths : option string;
  nextUid : nat
}.

Definition withWidgets (ws : list Widget) (node : Node) : Node :=
  mkNode ws (showStrengths node) (nextUid node).

Definition isDualMode (node : Node) : bool :=
  match showStrengths node with
  | Some s => String.eqb s "Model & Clip"
  | None => false
  end.

(** The decimal numeral of a template literal [`${n}`]. *)
Definition decimal (n : nat) : string := NilZero.string_of_uint (Nat.to_uint n).

(** [`lora_${index}`] *)
Definition loraName (index : nat) : string := "lora_" ++ decimal index.

(** [node.addWidget(...)] of the host: the new widget object goes to the
    end of [node.widgets]. *)
Definition pushWidget (w : Widget) (node : Node) : Node :=
  mkNode (widgets node ++ [w]) (showStrengths node) (S (nextUid node)).

Definition defaultValue : LoraValue := mkLoraValue true "None" 1.0 None.

Definition isLoraW (w : Widget) : bool :=
  String.prefix "lora_" (name w) && _isLoraSlot w.

Definition getLoraWidgets (node : Node) : list Widget :=
  List.filter isLoraW (widgets node).

(** The widget objects that the factories below make; [u] is the identity
    of the new object. *)
Definition loraWidgetAt (u index : nat) (val : LoraValue) : Widget :=
  {| uid := u; name := loraName index; wtype := "lora_slot";
     wvalue := VLora val; serialize := true;
     _isLoraSlot := true; _isToggleAll := false; _isAddLora := false |}.

Definition toggleAllWidgetAt (u : nat) : Widget :=
  {| uid := u; name := "toggle_all"; wtype := "lora_toggle_all";
     wvalue := VString ""; serialize := false;
     _isLoraSlot := false; _isToggleAll := true; _isAddLora := false |}.

Definition addLoraButtonAt (u : nat) : Widget :=
  {| uid := u; name := "add_lora"; wtype := "button";
     wvalue := VString "Add LoRA"; serialize := false;
     _isLoraSlot := false; _isToggleAll := false; _isAddLora := true |}.

Definition baseModelWidgetAt (u : nat) : Widget :=
  {| uid := u; name := "base_model"; wtype := "combo";
     wvalue := VString "All"; serialize := false;
     _isLoraSlot := false; _isToggleAll := false; _isAddLora := false |}.

(** [createLoraWidget(node, index, initialValue)]: the widget is added as a
    combo and turned into a slot widget before anything reads it. *)
Definition createLoraWidget (node : Node) (index : nat)
    (initialValue : option LoraValue) : Node * Widget :=
  let val := match initialValue with Some v => v | None => defaultValue end in
  let w := loraWidgetAt (nextUid node) index val in
  (pushWidget w node, w).

Definition createToggleAllWidget (node : Node) : Node * Widget :=
  let w := toggleAllWidgetAt (nextUid node) in
  (pushWidget w node, w).

Definition createAddLoraButton (node : Node) : Node * Widget :=
  let btn := addLoraButtonAt (nextUid node) in
  (pushWidget btn node, btn).

Definition addBaseModelWidget (node : Node) : Node * Widget :=
  let w := baseModelWidgetAt (nextUid node) in
  (pushWidget w node, w).

(** ** The toggle-all widget *)

(** [lw.value.on !== false]; reading a property of [null] throws. *)
Definition valueOn (v : WidgetValue) : option bool :=
  match v with
  | VLora r => Some (on r)
  | VString _ => Some true
  | VNull => None
  end.

(** The record held by a widget, for the places where the source spreads
    [lw.value] into a new record: [None] when the value is not a record and
    the result would not be one either. *)
Definition recordOf (w : Widget) : option LoraValue :=
  match wvalue w with
  | VLora v => Some v
  | _ => None
  end.

Inductive SwitchState : Type := SwitchOn | SwitchPartial | SwitchOff.

(** [drawSwitch(ctx, x, y, on, partial)]: which of the three looks it
    paints. *)
Definition drawSwitch (on_ partial : bool) : SwitchState :=
  if on_ then SwitchOn else if partial then SwitchPartial else SwitchOff.

(** [loraW.every(lw => lw.value.on !== false)]; [every] stops at the first
    [false]. *)
Fixpoint everyOn (loraW : list Widget) : option bool :=
  match loraW with
  | [] => Some true
  | lw :: rest =>
      match valueOn (wvalue lw) with
      | Some true => everyOn rest
      | Some false => Some false
      | None => None
      end
  end.

(** [loraW.some(lw => lw.value.on !== false)]; [some] stops at the first
    [true]. *)
Fixpoint anyOn (loraW : list Widget) : option bool :=
  match loraW with
  | [] => Some false
  | lw :: rest =>
      match valueOn (wvalue lw) with
      | Some true => Some true
      | Some false => anyOn rest
      | None => None
      end
  end.

(** [allOn] of the toggle-all widget:
    [loraW.length > 0 && loraW.every(...)]. *)
Definition allOn (node : Node) : option bool :=
  let loraW := getLoraWidgets node in
  if bool_decide (0 < length loraW) then everyOn loraW else Some false.

(** [someOn] of the toggle-all widget. *)
Definition someOn (node : Node) : option bool :=
  anyOn (getLoraWidgets node).

(** The switch that [w.draw] of the toggle-all widget paints. *)
Definition toggleAllDraw (node : Node) : option SwitchState :=
  a ← allOn node;
  s ← someOn node;
  Some (drawSwitch a (negb a && s)).

(** [for (const lw of getLoraWidgets(node)) lw.value = f(lw.value)], for an
    [f] that spreads the old record. *)
Definition forEachLoraW (f : LoraValue -> LoraValue) (node : Node) : option Node :=
  ws ← mapM (fun w =>
               if isLoraW w
               then v ← recordOf w; Some (withWValue (VLora (f v)) w)
               else Some w)
            (widgets node);
  Some (withWidgets ws node).

Definition setOn (b : bool) (v : LoraValue) : LoraValue :=
  mkLoraValue b (lora v) (strength v) (strengthTwo v).

(** [w.mouse] of the toggle-all widget: the new node and the return
    value. *)
Definition toggleAllMouse (event : Event) (node : Node) : option (Node * bool) :=
  let t := type event in
  if isDown t then Some (node, true)
  else if negb (isUpType t) then Some (node, false)
  else
    a ← allOn node;
    let newState := negb a in
    node' ← forEachLoraW (setOn newState) node;
    Some (node', true).

(** One release of the pointer on the toggle-all widget. *)
Definition toggleAllClick (node : Node) : option (Node * bool) :=
  toggleAllMouse (mkEvent pointerup None 0) node.

(** ** The slot list controller *)

(** [widgets.indexOf(w)]: the position of the object [w], or [-1]. *)
Fixpoint indexOfFrom (i : nat) (w : Widget) (ws : list Widget) : Z :=
  match ws with
  | [] => (-1)%Z
  | x :: rest => if Nat.eqb (uid x) (uid w) then Z.of_nat i else indexOfFrom (S i) w rest
  end.

Definition indexOf (w : Widget) (ws : list Widget) : Z := indexOfFrom 0 w ws.

(** The position that [Array.prototype.splice] makes of its [start]: a
    negative one counts from the end, and both are cut to the array. *)
Definition spliceStart {A} (l : list A) (start : Z) : nat :=
  if (start <? 0)%Z
  then Z.to_nat (Z.max (Z.of_nat (length l) + start) 0)
  else Nat.min (Z.to_nat start) (length l).

(** [l.splice(start, 1)] *)
Definition spliceDelete {A} (start : Z) (l : list A) : list A :=
  let i := spliceStart l start in take i l ++ drop (S i) l.

(** [l.splice(start, 0, x)] *)
Definition spliceInsert {A} (start : Z) (x : A) (l : list A) : list A :=
  let i := spliceStart l start in take i l ++ x :: drop i l.

(** [addLoraSlot(node, btn, loraName)] *)
Definition addLoraSlot (node : Node) (btn : Widget) (loraName_ : string) : Node :=
  let loraW := getLoraWidgets node in
  let newIndex := length loraW + 1 in
  let dual := isDualMode node in
  let '(node, newW) :=
    createLoraWidget node newIndex
      (Some (mkLoraValue (negb (String.eqb loraName_ "None")) loraName_ 1.0
               (if dual then Some 1.0%Q else None))) in
  let ws := widgets node in
  let newWIdx := indexOf newW ws in
  let btnIdx := indexOf btn ws in
  if (btnIdx <? newWIdx)%Z
  then withWidgets (spliceInsert btnIdx newW (spliceDelete newWIdx ws)) node
  else node.

(** The callback of the Add LoRA button: the button is the widget that
    [createAddLoraButton] made, and [choice] is the entry picked in the menu
    ("None" when there is no model to list). *)
Definition clickAddLora (choice : string) (node : Node) : Node :=
  match List.find _isAddLora (widgets node) with
  | Some btn => addLoraSlot node btn choice
  | None => node
  end.

(** [renumberLoraWidgets(node)]: the [i]-th widget of [getLoraWidgets(node)]
    gets the name [`lora_${i + 1}`]; the widgets are renamed in place. *)
Fixpoint renumberFrom (i : nat) (ws : list Widget) : list Widget :=
  match ws with
  | [] => []
  | w :: rest =>
      if isLoraW w
      then withName (loraName (i + 1)) w :: renumberFrom (S i) rest
      else w :: renumberFrom i rest
  end.

Definition renumberLoraWidgets (node : Node) : Node :=
  withWidgets (renumberFrom 0 (widgets node)) node.

(** [[widgets[a], widgets[b]] = [widgets[b], widgets[a]]] for two positions
    that [indexOf] found.  (With [-1], which [indexOf] does not give for a
    widget of the list, the assignment would add a property to the array
    object and leave its elements alone.) *)
Definition swapAt (a b : Z) (ws : list Widget) : list Widget :=
  if ((a <? 0) || (b <? 0))%Z then ws
  else
    match ws !! Z.to_nat a, ws !! Z.to_nat b with
    | Some wa, Some wb => <[Z.to_nat b := wa]> (<[Z.to_nat a := wb]> ws)
    | _, _ => ws
    end.

(** The entries of the context menu act on the slot under the pointer;
    there is no menu when no slot is hit ([slotIdx < 0]). *)

(** "Move LoRA Up", offered when [slotIdx > 0]. *)
Definition moveLoraUp (slotIdx : nat) (node : Node) : Node :=
  let loraW := getLoraWidgets node in
  match slotIdx with
  | S prev =>
      match loraW !! prev, loraW !! slotIdx with
      | Some wa, Some wb =>
          let ws := widgets node in
          let aIdx := indexOf wa ws in
          let bIdx := indexOf wb ws in
          renumberLoraWidgets (withWidgets (swapAt aIdx bIdx ws) node)
      | _, _ => node
      end
  | O => node
  end.

(** "Move LoRA Down", offered when [slotIdx < loraW.length - 1]. *)
Definition moveLoraDown (slotIdx : nat) (node : Node) : Node :=
  let loraW := getLoraWidgets node in
  match loraW !! slotIdx, loraW !! S slotIdx with
  | Some wa, Some wb =>
      let ws := widgets node in
      let aIdx := indexOf wa ws in
      let bIdx := indexOf wb ws in
      renumberLoraWidgets (withWidgets (swapAt aIdx bIdx ws) node)
  | _, _ => node
  end.

(** "Remove LoRA" *)
Definition removeLora (slotIdx : nat) (node : Node) : Node :=
  let loraW := getLoraWidgets node in
  match loraW !! slotIdx with
  | Some w =>
      let idx := indexOf w (widgets node) in
      let node := if (0 <=? idx)%Z
                  then withWidgets (spliceDelete idx (widgets node)) node
                  else node in
      renumberLoraWidgets node
  | None => node
  end.

Inductive ListOp : Type :=
| Add (choice : string)
| Remove (slotIdx : nat)
| MoveUp (slotIdx : nat)
| MoveDown (slotIdx : nat).

Definition runOp (node : Node) (op : ListOp) : Node :=
  match op with
  | Add choice => clickAddLora choice node
  | Remove i => removeLora i node
  | MoveUp i => moveLoraUp i node
  | MoveDown i => moveLoraDown i node
  end.

(** ** Mode migration *)

(** The rewrite of one slot on the switch to dual: [strengthTwo] becomes
    [strength] when it is [null]. *)
Definition toDual (v : LoraValue) : LoraValue :=
  match strengthTwo v with
  | None => mkLoraValue (on v) (lora v) (strength v) (Some (strength v))
  | Some _ => v
  end.

(** The rewrite of one slot on the switch to single:
    [{ ...v, strengthTwo: null }]. *)
Definition toSingle (v : LoraValue) : LoraValue :=
  mkLoraValue (on v) (lora v) (strength v) None.

(** The part of [node.onPropertyChanged] that this code adds to the
    host's. *)
Definition onPropertyChanged (name_ value_ : string) (node : Node) : option Node :=
  if String.eqb name_ "showStrengths" then
    if String.eqb value_ "Model & Clip" then forEachLoraW toDual node
    else forEachLoraW toSingle node
  else Some node.

(** ** Persistence *)

(** A saved widget value, as JSON gives it back. *)
#[local] Unset Elimination Schemes.
Inductive JsValue : Type :=
| JUndefined
| JNull
| JBool (b : bool)
| JNumber (q : Q)
| JString (s : string)
| JArray (items : list JsValue)
| JObject (fields : list (string * JsValue)).
#[local] Set Elimination Schemes.

(** [obj[k]] on the own properties of an object. *)
Fixpoint getField (k : string) (fields : list (string * JsValue)) : JsValue :=
  match fields with
  | [] => JUndefined
  | (k', v) :: rest => if String.eqb k' k then v else getField k rest
  end.

(** [k in obj] *)
Fixpoint hasField (k : string) (fields : list (string * JsValue)) : bool :=
  match fields with
  | [] => false
  | (k', _) :: rest => String.eqb k' k || hasField k rest
  end.

(** [w.serializeValue()] of a slot widget whose value is the record [v]. *)
Definition serializeValue (node : Node) (v : LoraValue) : JsValue :=
  let fields :=
    [("on", JBool (on v)); ("lora", JString (lora v)); ("strength", JNumber (strength v));
     ("strengthTwo", match strengthTwo v with Some s2 => JNumber s2 | None => JNull end)] in
  if negb (isDualMode node)
  then JObject (List.filter (fun kv => negb (String.eqb (fst kv) "strengthTwo")) fields)
  else JObject fields.

(** [v && typeof v === "object" && "lora" in v] *)
Definition isSlotShaped (v : JsValue) : bool :=
  match v with
  | JObject fields => hasField "lora" fields
  | _ => false
  end.

(** The record that [configure] passes to [createLoraWidget] for the saved
    value [sv].  [None] when a saved field would put something else than a
    string in [lora] or than a number or [null] in [strengthTwo]: the
    source stores it as it is, and the slot record cannot hold it. *)
Definition restoredValue (sv : JsValue) : option LoraValue :=
  match sv with
  | JObject fields =>
      let on_ := match getField "on" fields with JBool false => false | _ => true end in
      let strength_ := match getField "strength" fields with JNumber q => q | _ => 1.0%Q end in
      lora_ ← match getField "lora" fields with
              | JString s => Some (if String.eqb s "" then "None" else s)
              | JUndefined | JNull | JBool false => Some "None"
              | JNumber q => if Qeq_bool q 0 then Some "None" else None
              | _ => None
              end;
      strengthTwo_ ← match getField "strengthTwo" fields with
                     | JUndefined | JNull => Some None
                     | JNumber q => Some (Some q)
                     | _ => None
                     end;
      Some (mkLoraValue on_ lora_ strength_ strengthTwo_)
  | _ => None
  end.

(** The part of [info] that [configure] reads: [info.properties?.showStrengths]
    and [info.widgets_values]. *)
Record Info : Type := mkInfo {
  info_showStrengths : option string;
  widgets_values : option (list JsValue)
}.

Definition isDynamic (w : Widget) : bool :=
  _isLoraSlot w || _isToggleAll w || _isAddLora w.

Definition isTrailingName (w : Widget) : bool :=
  String.eqb (name w) "mm_auth" || String.eqb (name w) "mm_refresh".

(** The loop of [configure] over [loraSlotValues], from index [i]. *)
Fixpoint restoreSlots (i : nat) (loraSlotValues : list JsValue) (node : Node) : option Node :=
  match loraSlotValues with
  | [] => Some node
  | sv :: rest =>
      v ← restoredValue sv;
      restoreSlots (S i) rest (fst (createLoraWidget node (i + 1) (Some v)))
  end.

(** [node.configure(info)].  [origConfigure] is the [configure] of the host
    that this one wraps, when there is one. *)
Definition configure (origConfigure : option (Node -> Info -> Node))
    (node : Node) (info : Info) : option Node :=
  let trailingWidgets :=
    List.filter (fun w => negb (isDynamic w) && isTrailingName w) (widgets node) in
  let node :=
    withWidgets
      (List.filter (fun w => negb (isDynamic w) && negb (isTrailingName w)) (widgets node))
      node in
  let node := match origConfigure with Some f => f node info | None => node end in
  let node :=
    match info_showStrengths info with
    | Some s => if String.eqb s "" then node
                else mkNode (widgets node) (Some s) (nextUid node)
    | None => node
    end in
  let savedValues := match widgets_values info with Some l => l | None => [] end in
  let loraSlotValues := List.filter isSlotShaped savedValues in
  let node := fst (createToggleAllWidget node) in
  node ← (if bool_decide (0 < length loraSlotValues)
          then restoreSlots 0 loraSlotValues node
          else Some (fst (createLoraWidget node 1 (Some defaultValue))));
  let node := fst (createAddLoraButton node) in
  Some (withWidgets (widgets node ++ trailingWidgets) node).

(** The [widgets_values] of a host that serializes a widget through its
    [serializeValue] when it has one: for a slot widget the result of
    [serializeValue], for another widget its value.  (A host that copies
    [widget.value] is [writtenInfo].)  Hosts differ on whether a widget
    with [serialize === false] gets an entry; [skipUnserialized] is that
    choice. *)
Definition savedEntry (node : Node) (w : Widget) : option JsValue :=
  if _isLoraSlot w then v ← recordOf w; Some (serializeValue node v)
  else Some (match wvalue w with
             | VNull => JNull
             | VString s => JString s
             | VLora v =>
                 JObject
                   [("on", JBool (on v)); ("lora", JString (lora v));
                    ("strength", JNumber (strength v));
                    ("strengthTwo",
                     match strengthTwo v with Some s2 => JNumber s2 | None => JNull end)]
             end).

Definition savedInfo (skipUnserialized : bool) (node : Node) : option Info :=
  vs ← mapM (savedEntry node)
         (List.filter (fun w => negb skipUnserialized || serialize w) (widgets node));
  Some (mkInfo (showStrengths node) (Some vs)).

(** ** Creation *)

(** [setupLoraNode(node)], up to the handlers it installs (they are the
    definitions above). *)
Definition setupLoraNode (node : Node) : Node :=
  let node :=
    match showStrengths node with
    | Some s => if String.eqb s "" then mkNode (widgets node) (Some "Single") (nextUid node)
                else node
    | None => mkNode (widgets node) (Some "Single") (nextUid node)
    end in
  let node :=
    withWidgets
      (List.filter
         (fun w => String.eqb (name w) "model" || String.eqb (name w) "clip" ||
                   String.eqb (name w) "mm_auth" || String.eqb (name w) "mm_refresh")
         (widgets node))
      node in
  let node := fst (addBaseModelWidget node) in
  let node := fst (createToggleAllWidget node) in
  let node := fst (createLoraWidget node 1 (Some defaultValue)) in
  let node := fst (createAddLoraButton node) in
  node.

(** The auth and refresh buttons that [onNodeCreated] adds last.  The auth
    button is renamed at once by its [onModelManagerStateChange]. *)
Definition addAuthAndRefresh (connected : bool) (node : Node) : Node :=
  let auth := {| uid := nextUid node;
                 name := if connected then "Model Manager: Connected"
                         else "Connect to Model Manager";
                 wtype := "button"; wvalue := VNull; serialize := false;
                 _isLoraSlot := false; _isToggleAll := false; _isAddLora := false |} in
  let node := pushWidget auth node in
  let refresh := {| uid := nextUid node; name := "mm_refresh"; wtype := "button";
                    wvalue := VString "Refresh Models"; serialize := false;
                    _isLoraSlot := false; _isToggleAll := false; _isAddLora := false |} in
  pushWidget refresh node.

(** [onNodeCreated] for the multi-LoRA node type, on the node as the host
    built it. *)
Definition onNodeCreated (connected : bool) (node : Node) : Node :=
  addAuthAndRefresh connected (setupLoraNode node).

(** The pass that [onNodeCreated] schedules with [setTimeout(..., 16)]: a
    slot widget that holds a string gets a record made from it. *)
Definition upgradeApiSlots (node : Node) : Node :=
  let hasLoraSlots := existsb _isLoraSlot (widgets node) in
  if negb hasLoraSlots then node
  else
    let isApiSlot (w : Widget) :=
      _isLoraSlot w && match wvalue w with VString _ => true | _ => false end in
    if bool_decide (0 < length (List.filter isApiSlot (widgets node))) then
      withWidgets
        (map (fun aw =>
                if isApiSlot aw then
                  match wvalue aw with
                  | VString name_ =>
                      withWValue
                        (VLora (mkLoraValue (negb (String.eqb name_ "None")) name_ 1.0
                                  (if isDualMode node then Some 1.0%Q else None)))
                        aw
                  | _ => aw
                  end
                else aw)
           (widgets node))
        node
    else node.

(** ** Views used in the statements *)

(** The slot list of a node: the records of its slot widgets, in display
    order; [None] when some slot widget does not hold a record. *)
Definition slotRecords (node : Node) : option (list LoraValue) :=
  mapM recordOf (getLoraWidgets node).

(** The values of the widgets that carry the slot flag, in display
    order. *)
Definition slotValues (node : Node) : list WidgetValue :=
  map wvalue (List.filter _isLoraSlot (widgets node)).

(** The record that the upgrade pass makes of a bare name. *)
Definition upgradedRecord (dual : bool) (name_ : string) : LoraValue :=
  mkLoraValue (negb (String.eqb name_ "None")) name_ 1.0
    (if dual then Some 1.0%Q else None).

(** Two slot records agree on [on], [lora] and [strength]. *)
Definition sameButStrengthTwo (v v' : LoraValue) : Prop :=
  on v' = on v /\ lora v' = lora v /\ strength v' = strength v.

(** What the host's [configure] is relied on for: it neither makes widgets
    that carry the flags of this extension nor confuses object identities. *)
Definition noDynamic (node : Node) : Prop :=
  Forall (fun w => isDynamic w = false) (widgets node).

Definition uidsFresh (node : Node) : Prop :=
  NoDup (map uid (widgets node)) /\
  Forall (fun w => uid w < nextUid node) (widgets node).

Record HostContract (origConfigure : option (Node -> Info -> Node)) : Prop := {
  host_noDynamic :
    forall f, origConfigure = Some f ->
              forall x i, noDynamic x -> noDynamic (f x i);
  host_uidsFresh :
    forall f, origConfigure = Some f ->
              forall x i, uidsFresh x -> uidsFresh (f x i);
  host_uidsNew :
    forall f, origConfigure = Some f ->
              forall x i,
                nextUid x <= nextUid (f x i) /\
                Forall (fun w => uid w ∈ map uid (widgets x) \/ nextUid x <= uid w)
                       (widgets (f x i))
}.

(** The node that [configure] rebuilds on: stripped of the dynamic and the
    trailing widgets, passed through the host's [configure], with
    [showStrengths] restored. *)
Definition configureBase (origConfigure : option (Node -> Info -> Node))
    (node : Node) (info : Info) : Node :=
  let node :=
    withWidgets
      (List.filter (fun w => negb (isDynamic w) && negb (isTrailingName w)) (widgets node))
      node in
  let node := match origConfigure with Some f => f node info | None => node end in
  match info_showStrengths info with
  | Some s => if String.eqb s "" then node
              else mkNode (widgets node) (Some s) (nextUid node)
  | None => node
  end.

(** [trailingWidgets] of [configure]. *)
Definition trailingOf (node : Node) : list Widget :=
  List.filter (fun w => negb (isDynamic w) && isTrailingName w) (widgets node).

(** [loraSlotValues] of [configure]. *)
Definition loraSlotValuesOf (info : Info) : list JsValue :=
  List.filter isSlotShaped (match widgets_values info with Some l => l | None => [] end).

(** The slot widgets that a run of [createLoraWidget] over the records
    [vs] makes, the first with identity [u] and index [i + 1]. *)
Fixpoint slotWidgetsFrom (u i : nat) (vs : list LoraValue) : list Widget :=
  match vs with
  | [] => []
  | v :: rest => loraWidgetAt u (i + 1) v :: slotWidgetsFrom (S u) (S i) rest
  end.

(** What the upgrade pass does to one widget. *)
Definition upgradeWidget (dual : bool) (w : Widget) : Widget :=
  if _isLoraSlot w then
    match wvalue w with
    | VString name_ => withWValue (VLora (upgradedRecord dual name_)) w
    | _ => w
    end
  else w.

(** The nodes that creation, restore and the list operations produce. *)
Inductive reachable (origConfigure : option (Node -> Info -> Node)) : Node -> Prop :=
| reach_created connected host :
    noDynamic host -> uidsFresh host ->
    reachable origConfigure (onNodeCreated connected host)
| reach_restored node info node' :
    reachable origConfigure node ->
    configure origConfigure node info = Some node' ->
    reachable origConfigure node'
| reach_op node op :
    reachable origConfigure node ->
    reachable origConfigure (runOp node op).

(** A node for the examples: created on an empty host node, not connected,
    and one slot added for "123:foo". *)
Definition exampleNode : Node :=
  clickAddLora "123:foo" (onNodeCreated false (mkNode [] None 0)).

(** The shape that the list operations keep: the slot widgets stand
    together, named [lora_1], [lora_2], ... in display order, right before
    the Add LoRA button, and no other widget carries the slot flag. *)
Definition slotsInPlace (node : Node) : Prop :=
  exists pre slots btn post,
    widgets node = pre ++ slots ++ btn :: post /\
    Forall (fun w => _isLoraSlot w = false /\ _isAddLora w = false) pre /\
    Forall (fun w => _isLoraSlot w = true /\ _isAddLora w = false) slots /\
    map name slots = map loraName (seq 1 (length slots)) /\
    _isAddLora btn = true /\ _isLoraSlot btn = false /\
    Forall (fun w => _isLoraSlot w = false) post.

(** The invariant of the widget list. *)
Definition listInvariant (node : Node) : Prop :=
  uidsFresh node /\ slotsInPlace node.

(** ** The model catalog *)

(** One entry of the catalog.  [modelId] and [versionId] are the strings
    that a template literal makes of [m.id] and [m.versionId];
    [versionId] and [baseModel] are [None] when the field is missing, and an
    empty string counts as missing where the source tests the field for
    truth. *)
Record Model : Type := mkModel {
  modelId : string;
  versionId : option string;
  modelName : string;
  baseModel : option string
}.

(** The value of a field that the source tests for truth. *)
Definition truthy (o : option string) : option string :=
  match o with
  | Some s => if String.eqb s "" then None else Some s
  | None => None
  end.

(** [modelComboValue(m)] *)
Definition modelComboValue (m : Model) : string :=
  match truthy (versionId m) with
  | Some vid => (modelId m ++ "@" ++ vid ++ ":" ++ modelName m)%string
  | None => (modelId m ++ ":" ++ modelName m)%string
  end.

(** Every character of [s] is an ASCII character: one byte here, one code
    unit in the source. *)
Fixpoint asciiOnly (s : string) : bool :=
  match s with
  | EmptyString => true
  | String c rest => N.ltb (Ascii.N_of_ascii c) 128 && asciiOnly rest
  end.

(** [Array.prototype.sort()] on strings.  The source compares UTF-16 code
    units; a string here is a sequence of bytes, and [String.leb] compares
    bytes.  The two orders are the same on strings of ASCII characters
    ([asciiOnly] below), which is where the statements rely on the order.
    (The result of a sort is fixed by the order, whatever the algorithm.) *)
Fixpoint insertSorted (s : string) (l : list string) : list string :=
  match l with
  | [] => [s]
  | x :: rest => if String.leb s x then s :: l else x :: insertSorted s rest
  end.

Definition sortStrings (l : list string) : list string :=
  fold_right insertSorted [] l.

(** [[...new Set(l)]]: the first occurrence of every element, in order. *)
Fixpoint setFrom (seen l : list string) : list string :=
  match l with
  | [] => []
  | x :: rest =>
      if existsb (String.eqb x) seen then setFrom seen rest
      else x :: setFrom (x :: seen) rest
  end.

(** [modelCache[folder]] *)
Record Cache : Type := mkCache {
  models : list Model;
  values : list string;
  baseModels : list string
}.

(** The cache entry that [refreshModels] stores for the models of a
    response. *)
Definition makeCache (ms : list Model) : Cache :=
  {| models := ms;
     values := map modelComboValue ms;
     baseModels :=
       sortStrings (setFrom [] (omap (fun m => truthy (baseModel m)) ms)) |}.

(** [getCacheValues(folder, baseModel)], on [modelCache[folder]]. *)
Definition getCacheValues (cache : option Cache) (baseModel_ : option string) : list string :=
  match cache with
  | None => []
  | Some c =>
      match truthy baseModel_ with
      | None => values c
      | Some b =>
          if String.eqb b "All" then values c
          else map modelComboValue
                 (List.filter
                    (fun m => match baseModel m with
                              | Some b' => String.eqb b' b
                              | None => false
                              end)
                    (models c))
      end
  end.

(** [getBaseModelOptions(folder)] *)
Definition getBaseModelOptions (cache : option Cache) : list string :=
  match cache with
  | None => ["All"]
  | Some c => if Nat.eqb (length (baseModels c)) 0 then ["All"]
              else "All" :: baseModels c
  end.

(** [getFilteredLoraModels(node)], on [modelCache.loras]. *)
Definition getFilteredLoraModels (cache : option Cache) (node : Node) : list Model :=
  match cache with
  | None => []
  | Some c =>
      let baseModel_ :=
        match List.find (fun w => String.eqb (name w) "base_model") (widgets node) with
        | Some w => wvalue w
        | None => VNull
        end in
      match baseModel_ with
      | VNull => models c
      | VString b =>
          if String.eqb b "" || String.eqb b "All" then models c
          else List.filter
                 (fun m => match baseModel m with
                           | Some b' => String.eqb b' b
                           | None => false
                           end)
                 (models c)
      | VLora _ => List.filter (fun _ => false) (models c)
      end
  end.

(** ** The selection menu *)

(** A menu item: an entry whose callback is [() => onSelect(selects)], or a
    submenu of such entries (their [content] and the value they select). *)
Inductive MenuItem : Type :=
| MenuEntry (content : string) (selects : string)
| MenuGroup (content : string) (options : list (string * string)).

(** What a property of [groups], own or inherited, can hold: an array of
    models, or a value that is not falsy and has no [push] (a function, or
    the prototype object that [__proto__] gives). *)
Inductive GroupValue : Type :=
| GArray (ms : list Model)
| GOther.

(** [Object.prototype], the prototype of a fresh [{}]: its properties are
    functions, but [__proto__], an accessor that gives the prototype
    object. *)
Definition objectPrototype : list (string * GroupValue) :=
  [("constructor", GOther); ("__defineGetter__", GOther);
   ("__defineSetter__", GOther); ("hasOwnProperty", GOther);
   ("__lookupGetter__", GOther); ("__lookupSetter__", GOther);
   ("isPrototypeOf", GOther); ("propertyIsEnumerable", GOther);
   ("toString", GOther); ("valueOf", GOther); ("__proto__", GOther);
   ("toLocaleString", GOther)].

(** [m.baseModel || "Other"] *)
Definition groupOf (m : Model) : string :=
  match truthy (baseModel m) with
  | Some b => b
  | None => "Other"
  end.

(** The own property [k] of [groups]; the own properties are kept in the
    order in which they were added. *)
Fixpoint ownProperty (k : string) (groups : list (string * list Model))
    : option (list Model) :=
  match groups with
  | [] => None
  | (g, ms) :: rest => if String.eqb g k then Some ms else ownProperty k rest
  end.

(** The property [k] of a prototype object. *)
Fixpoint inherited (k : string) (proto : list (string * GroupValue))
    : option GroupValue :=
  match proto with
  | [] => None
  | (g, v) :: rest => if String.eqb g k then Some v else inherited k rest
  end.

(** [groups[k]]: the own property, or else the one the prototype has;
    [None] is [undefined]. *)
Definition getProperty (groups : list (string * list Model)) (k : string)
    : option GroupValue :=
  match ownProperty k groups with
  | Some ms => Some (GArray ms)
  | None => inherited k objectPrototype
  end.

(** [arr.push(m)] on the array that the own property [group] holds. *)
Fixpoint pushOwn (group : string) (m : Model)
    (groups : list (string * list Model)) : list (string * list Model) :=
  match groups with
  | [] => []
  | (g, ms) :: rest =>
      if String.eqb g group then (g, ms ++ [m]) :: rest
      else (g, ms) :: pushOwn group m rest
  end.

(** The loop of [buildGroupedLoraMenu] that fills [groups]:
    [if (!groups[group]) groups[group] = []; groups[group].push(m)].
    [undefined] is falsy; an array, a function and an object are not.  When
    [groups[group]] is not an array it has no [push], and the call throws:
    [None]. *)
Fixpoint fillGroups (ms : list Model) (groups : list (string * list Model))
    : option (list (string * list Model)) :=
  match ms with
  | [] => Some groups
  | m :: rest =>
      let group := groupOf m in
      let groups :=
        match getProperty groups group with
        | None => groups ++ [(group, [])]
        | Some _ => groups
        end in
      match getProperty groups group with
      | Some (GArray _) => fillGroups rest (pushOwn group m groups)
      | _ => None
      end
  end.

(** The two statements of the loop together, on the own properties, for a
    group that [groups] has or that no prototype provides. *)
Fixpoint groupPush (group : string) (m : Model)
    (groups : list (string * list Model)) : list (string * list Model) :=
  match groups with
  | [] => [(group, [m])]
  | (g, ms) :: rest =>
      if String.eqb g group then (g, ms ++ [m]) :: rest
      else (g, ms) :: groupPush group m rest
  end.

(** [groups[group]] for an own property. *)
Fixpoint groupGet (group : string) (groups : list (string * list Model)) : list Model :=
  match groups with
  | [] => []
  | (g, ms) :: rest => if String.eqb g group then ms else groupGet group rest
  end.

Definition menuEntryOf (m : Model) : MenuItem :=
  MenuEntry (modelName m) (modelComboValue m).

(** [buildGroupedLoraMenu(models, onSelect)] *)
Definition buildGroupedLoraMenu (ms : list Model) : option (list MenuItem) :=
  groups ← fillGroups ms [];
  let groupNames := sortStrings (map fst groups) in
  Some (MenuEntry "None" "None" ::
        (if Nat.leb (length groupNames) 1
         then map menuEntryOf ms
         else map (fun group =>
                     MenuGroup group
                       (map (fun m => (modelName m, modelComboValue m))
                          (groupGet group groups)))
                  groupNames)).

(** The values that the entries of a menu select, in menu order. *)
Definition menuValues (items : list MenuItem) : list string :=
  concat (map (fun it => match it with
                         | MenuEntry _ v => [v]
                         | MenuGroup _ opts => map snd opts
                         end) items).

(** The menu that [showLoraDropdown] opens on a slot widget; the choice [v]
    of an entry then runs [dropdownSelect v]. *)
Definition showLoraDropdown (cache : option Cache) (node : Node) : option (list MenuItem) :=
  buildGroupedLoraMenu (getFilteredLoraModels cache node).

(** What a click on the Add LoRA button does: it adds an empty slot at
    once, or opens the menu whose choice [v] runs [addLoraSlot node btn v]. *)
Inductive AddOutcome : Type :=
| AddedSlot (node : Node)
| AddMenu (items : list MenuItem).

(** The callback that [createAddLoraButton] gives to the button [btn]. *)
Definition addLoraCallback (cache : option Cache) (node : Node) (btn : Widget)
    : option AddOutcome :=
  let ms := getFilteredLoraModels cache node in
  if Nat.eqb (length ms) 0 then Some (AddedSlot (addLoraSlot node btn "None"))
  else items ← buildGroupedLoraMenu ms; Some (AddMenu items).

(** ** Text of a slot row *)

(** [text.slice(0, -1)].  The source drops one UTF-16 code unit and this
    drops one byte: the same thing on a text of ASCII characters, to which
    the statements about [truncateText] are restricted. *)
Fixpoint dropLast (text : string) : string :=
  match text with
  | EmptyString => EmptyString
  | String c rest =>
      match rest with
      | EmptyString => EmptyString
      | _ => String c (dropLast rest)
      end
  end.

Definition ellipsis : string :=
  String (Ascii.ascii_of_nat 226) (String (Ascii.ascii_of_nat 128)
    (String (Ascii.ascii_of_nat 166) EmptyString)).

(** The [while] loop of [truncateText]; it runs at most [text.length]
    times, which is the [fuel]. *)
Fixpoint truncateLoop (measureText : string -> Q) (maxWidth : Q) (fuel : nat)
    (text : string) : string :=
  match fuel with
  | O => text
  | S fuel' =>
      if Nat.ltb 1 (String.length text) &&
         Qltb maxWidth (measureText (text ++ ellipsis)%string)
      then truncateLoop measureText maxWidth fuel' (dropLast text)
      else text
  end.

(** [truncateText(ctx, text, maxWidth)]; [measureText s] is
    [ctx.measureText(s).width]. *)
Definition truncateText (measureText : string -> Q) (text : string) (maxWidth : Q) : string :=
  if Qle_bool (measureText text) maxWidth then text
  else (truncateLoop measureText maxWidth (String.length text) text ++ ellipsis)%string.

(** [s.replace(/^[^:]*:/, "")]: what follows the first colon, when there is
    one. *)
Fixpoint afterColon (s : string) : option string :=
  match s with
  | EmptyString => None
  | String c rest => if Ascii.eqb c ":" then Some rest else afterColon rest
  end.

(** [rawName] of [w.draw]: the name shown for the selection [lora_]. *)
Definition rawName (lora_ : string) : string :=
  if String.eqb lora_ "None" then "None"
  else match afterColon lora_ with
       | Some rest => rest
       | None => lora_
       end.

(** The name that [w.draw] writes in the name zone. *)
Definition drawName (measureText : string -> Q) (width : Q) (dual : bool)
    (this : SlotWidget) : string :=
  truncateText measureText (rawName (lora (value this)))
    (zw (name_zone (loraZones width dual))).

(** ** The context menu of a slot *)

(** The callback of "Disable LoRA" / "Enable LoRA" for the slot [slotIdx]:
    [isOn] is read when the menu is built. *)
Definition menuToggle (slotIdx : nat) (node : Node) : option Node :=
  match getLoraWidgets node !! slotIdx with
  | Some lw =>
      isOn ← valueOn (wvalue lw);
      v ← recordOf lw;
      let lw' := withWValue (VLora (setOn (negb isOn) v)) lw in
      Some (withWidgets
              (map (fun w => if Nat.eqb (uid w) (uid lw) then lw' else w) (widgets node))
              node)
  | None => Some node
  end.

(** ** Views used in the further statements *)

(** [q] has at most two decimals. *)
Definition onGrid (q : Q) : Prop := exists n : Z, (q * 100 == inject_Z n)%Q.

(** The strength zones of a layout, left to right. *)
Definition strengthZones (z : Zones) : list Zone :=
  [arrowLeft z; strengthNum z; arrowRight z] ++
  match arrowLeft2 z, strengthNum2 z, arrowRight2 z with
  | Some a, Some n, Some b => [a; n; b]
  | _, _, _ => []
  end.

(** The width from which the name zone is not negative. *)
Definition minWidth (dual : bool) : Q := if dual then 198 else 132.

(** A release of the pointer at [x]. *)
Definition releaseAt (x : Q) : Event := mkEvent pointerup (Some x) x.

(** The widgets of a node that are not slot widgets, in order. *)
Definition otherWidgets (node : Node) : list Widget :=
  List.filter (fun w => negb (_isLoraSlot w)) (widgets node).

(** [widget.value] as the host writes it to [widgets_values] when it does
    not go through [serializeValue]: the value itself, a slot record with
    its four fields. *)
Definition writtenEntry (w : Widget) : JsValue :=
  match wvalue w with
  | VNull => JNull
  | VString s => JString s
  | VLora v =>
      JObject
        [("on", JBool (on v)); ("lora", JString (lora v));
         ("strength", JNumber (strength v));
         ("strengthTwo",
          match strengthTwo v with Some s2 => JNumber s2 | None => JNull end)]
  end.

(** What a host that copies [widget.value] saves of a node. *)
Definition writtenInfo (skipUnserialized : bool) (node : Node) : Info :=
  mkInfo (showStrengths node)
    (Some (map writtenEntry
             (List.filter (fun w => negb skipUnserialized || serialize w)
                (widgets node)))).

(** A node whose slot widgets can be saved: they hold records with a
    selection, and no other widget holds a record. *)
Definition savable (node : Node) : Prop :=
  Forall (fun w =>
            if _isLoraSlot w
            then serialize w = true /\ exists v, wvalue w = VLora v /\ lora v <> ""
            else forall v, wvalue w <> VLora v)
         (widgets node).

(** Two slot widgets that differ at most in their names. *)
Definition renamed (w w' : Widget) : Prop :=
  isLoraW w = true /\ isLoraW w' = true /\ withName "" w = withName "" w'.

(** The names of the host's widgets that [setupLoraNode] keeps. *)
Definition keptNames (host : Node) : list string :=
  List.filter
    (fun n => String.eqb n "model" || String.eqb n "clip" ||
              String.eqb n "mm_auth" || String.eqb n "mm_refresh")
    (map name (widgets host)).

(** The name that the auth button carries from its creation on. *)
Definition authName (connected : bool) : string :=
  if connected then "Model Manager: Connected" else "Connect to Model Manager".

(** [w.name === "mm_auth" || w.name === "mm_refresh"], on the name. *)
Definition trailingName (n : string) : bool :=
  String.eqb n "mm_auth" || String.eqb n "mm_refresh".

(** [s] has no colon. *)
Definition noColon (s : string) : Prop := afterColon s = None.

(** [l] ascends in the order of [Array.prototype.sort()]: every element is
    at most its successor. *)
Definition ascending (l : list string) : Prop :=
  forall i a b, l !! i = Some a -> l !! S i = Some b -> String.leb a b = true.

(** ** The single-LoRA node *)

(** The part of [onNodeCreated] for the single-LoRA node type, up to the
    values offered by the combos: the base model filter is added and moved
    before the widget named [lora_name], when there is one. *)
Definition setupSingleLora (node : Node) : Node :=
  match List.find (fun w => String.eqb (name w) "lora_name") (widgets node) with
  | Some loraWidget =>
      let '(node, bmWidget) := addBaseModelWidget node in
      let ws := widgets node in
      let bmIdx := indexOf bmWidget ws in
      let lnIdx := indexOf loraWidget ws in
      if (lnIdx <? bmIdx)%Z
      then withWidgets (spliceInsert lnIdx bmWidget (spliceDelete bmIdx ws)) node
      else node
  | None => node
  end.

(** * Properties *)
(* ------------------------------------------------------------------ *)

(** ** Arithmetic of the strength updates *)

Lemma Qltb_true a b : Qltb a b = true <-> (a < b)%Q.
Proof.
  unfold Qltb. rewrite negb_true_iff. split.
  - intros H. apply Qnot_le_lt. intros Hle.
    apply Qle_bool_iff in Hle. congruence.
  - intros H. destruct (Qle_bool b a) eqn:E; [|reflexivity].
    apply Qle_bool_iff in E. lra.
Qed.

Lemma Qltb_false a b : Qltb a b = false <-> (b <= a)%Q.
Proof.
  unfold Qltb. rewrite negb_false_iff. apply Qle_bool_iff.
Qed.

Lemma Qgeb_true a b : Qgeb a b = true <-> (b <= a)%Q.
Proof. unfold Qgeb. apply Qle_bool_iff. Qed.

Lemma Qgeb_false a b : Qgeb a b = false <-> (a < b)%Q.
Proof.
  unfold Qgeb. split.
  - intros H. apply Qnot_le_lt. intros Hle.
    apply Qle_bool_iff in Hle. congruence.
  - intros H. destruct (Qle_bool b a) eqn:E; [|reflexivity].
    apply Qle_bool_iff in E. lra.
Qed.

Lemma inZone_true z x :
  inZone z x = true <-> (zx z <= x)%Q /\ (x < zx z + zw z)%Q.
Proof.
  unfold inZone. rewrite andb_true_iff, Qgeb_true, Qltb_true. tauto.
Qed.

Lemma Math_round_mono x y : (x <= y)%Q -> (Math_round x <= Math_round y)%Q.
Proof.
  intros H. unfold Math_round. rewrite <- Zle_Qle.
  apply Qfloor_resp_le. lra.
Qed.

Lemma Math_round_Z (n : Z) : Math_round (inject_Z n) = inject_Z n.
Proof.
  unfold Math_round. f_equal.
  assert (H1 : (n <= Qfloor (inject_Z n + (1 # 2)))%Z).
  { rewrite <- (Qfloor_Z n) at 1. apply Qfloor_resp_le. lra. }
  assert (H2 : (Qfloor (inject_Z n + (1 # 2)) < n + 1)%Z).
  { rewrite Zlt_Qlt.
    eapply Qle_lt_trans; [apply Qfloor_le|].
    rewrite inject_Z_plus. change (inject_Z 1) with 1%Q. lra. }
  lia.
Qed.

Lemma round2_range x : inRange x -> inRange (round2 x).
Proof.
  intros [Hlo Hhi]. unfold inRange, round2.
  assert (L : (Math_round (inject_Z (-2000)) <= Math_round (x * 100))%Q).
  { apply Math_round_mono. change (inject_Z (-2000)) with (-2000)%Q. lra. }
  assert (U : (Math_round (x * 100) <= Math_round (inject_Z 2000))%Q).
  { apply Math_round_mono. change (inject_Z 2000) with 2000%Q. lra. }
  rewrite Math_round_Z in L, U.
  change (inject_Z (-2000)) with (-2000)%Q in L.
  change (inject_Z 2000) with 2000%Q in U.
  split.
  - apply Qle_shift_div_l; lra.
  - apply Qle_shift_div_r; lra.
Qed.

Lemma clamp20_range x : inRange (clamp20 x).
Proof.
  unfold inRange, clamp20. split.
  - apply Q.le_max_l.
  - apply Q.max_lub; [lra | apply Q.le_min_l].
Qed.

Lemma stepDown_range x : inRange x -> inRange (Qmax (-20) (x - 0.05)).
Proof.
  intros [Hlo Hhi]. split.
  - apply Q.le_max_l.
  - apply Q.max_lub; lra.
Qed.

Lemma stepUp_range x : inRange x -> inRange (Qmin 20 (x + 0.05)).
Proof.
  intros [Hlo Hhi]. split.
  - apply Q.min_glb; lra.
  - apply Q.le_min_l.
Qed.

Lemma setKey_range k x v :
  inRange x -> strengthsInRange v -> strengthsInRange (setKey k x v).
Proof.
  intros Hx [H1 H2]. destruct k; split; simpl; auto.
Qed.

Lemma strengthTwoOr_range v : strengthsInRange v -> inRange (strengthTwoOr v).
Proof.
  intros [H1 H2]. unfold strengthTwoOr. destruct (strengthTwo v); auto.
Qed.

Lemma mouseClick_range dual z now x w :
  strengthsInRange (value w) ->
  strengthsInRange (value (widgetAfter (mouseClick dual z now x w))).
Proof.
  intros H. pose proof H as [H1 H2]. unfold mouseClick.
  repeat match goal with
         | |- context [if ?c then _ else _] => destruct c
         | |- context [match ?o with Some _ => _ | None => _ end] => destruct o
         end;
    cbn [widgetAfter withValue withClick withClick2 value]; auto;
    try (apply setKey_range; [apply round2_range|];
         auto using stepDown_range, stepUp_range, strengthTwoOr_range).
  all: split; simpl; auto.
Qed.

Lemma mouse_range width dual now event pos w :
  strengthsInRange (value w) ->
  strengthsInRange (value (widgetAfter (mouse width dual now event pos w))).
Proof.
  intros H. unfold mouse.
  destruct (isDown (type event)); [cbn; auto|].
  destruct (isMove (type event)).
  { destruct (_dragState w) as [d|]; [|cbn; auto].
    destruct (Qltb 2 (Qabs (eventX event - startX d))); cbn [widgetAfter value]; auto.
    apply setKey_range; auto. apply round2_range, clamp20_range. }
  destruct (isUpType (type event) && wasDragged w); [cbn; auto|].
  destruct (negb (isUpType (type event)) && negb (isDblClickType (type event)));
    [cbn; auto|].
  destruct (isDblClickType (type event)).
  { repeat match goal with
           | |- context [if ?c then _ else _] => destruct c
           end; cbn; auto. }
  apply mouseClick_range. cbn. auto.
Qed.

Lemma apply_range k p w :
  strengthsInRange (value w) -> strengthsInRange (value (apply k p w)).
Proof.
  intros H. destruct p as [|neg|q]; cbn [apply withValue value]; auto.
  - apply setKey_range; auto. destruct neg; split; lra.
  - apply setKey_range; auto. apply clamp20_range.
Qed.

Lemma interact_range w i :
  strengthsInRange (value w) -> strengthsInRange (value (interact w i)).
Proof.
  intros H. destruct i; cbn [interact].
  - by apply mouse_range.
  - by apply apply_range.
  - destruct H as [H1 H2]. split; cbn; auto.
Qed.

(** C1 (amended): a slot whose strengths start in [-20, 20] keeps both of
    them there under every finite sequence of pointer events on the widget,
    overlay commits and dropdown choices; an overlay commit of a number
    outside the range (or of an infinity) stores the nearest bound, and
    only a text that is not a number leaves the value alone. *)
Theorem clamp_invariant (acts : list Interaction) (w : SlotWidget) :
  strengthsInRange (value w) ->
  strengthsInRange (value (interactAll acts w)) /\
  (forall k q,
      readKey k (value (apply k (PNumber q) w)) = clamp20 q /\
      inRange (readKey k (value (apply k (PNumber q) w))) /\
      ((20 < q)%Q -> (readKey k (value (apply k (PNumber q) w)) == 20)%Q) /\
      ((q < -20)%Q -> (readKey k (value (apply k (PNumber q) w)) == -20)%Q)).
Proof.
  intros H. split.
  - unfold interactAll. revert w H.
    induction acts as [|a acts IH]; intros w H; cbn [fold_left]; auto.
    apply IH. by apply interact_range.
  - intros k q.
    assert (E : readKey k (value (apply k (PNumber q) w)) = clamp20 q).
    { destruct k; reflexivity. }
    rewrite E. split; [reflexivity|]. split; [apply clamp20_range|].
    unfold clamp20. split; intros Hq.
    + rewrite (Q.min_l 20 q) by lra. apply Q.max_r. lra.
    + rewrite (Q.min_r 20 q) by lra. apply Q.max_l. lra.
Qed.

(** A default slot, a click on the right arrow and an overlay commit of
    1000. *)
Lemma clamp_invariant_witness :
  let w := mkSlotWidget (mkLoraValue true "None" 1.0 None) 0 0 None in
  let acts :=
    [IMouse 300 false 1700000000000 (mkEvent pointerup (Some 280%Q) 280) (280%Q, 10%Q);
     IApply KStrengthTwo (PNumber 1000)] in
  strengthsInRange (value w) /\
  strengthsInRange (value (interactAll acts w)).
Proof.
  cbv zeta.
  assert (H : strengthsInRange
                (value (mkSlotWidget (mkLoraValue true "None" 1.0 None) 0 0 None))).
  { split; [split; vm_compute; discriminate|exact I]. }
  split; [exact H|].
  exact (proj1 (clamp_invariant _ _ H)).
Defined.

(** C1, as stated for every slot, fails: a restore keeps a saved strength
    as it is, so a slot can hold 100; a click on the left arrow then stores
    99.95, which is still above 20 (the left arrow only guards the lower
    bound). *)
Lemma clamp_invariant_counterexample :
  let saved := JObject [("on", JBool true); ("lora", JString "123:foo");
                        ("strength", JNumber 100)] in
  let v := mkLoraValue true "123:foo" 100 None in
  let w := mkSlotWidget v 0 0 None in
  let click := IMouse 300 false 1700000000000
                 (mkEvent pointerup (Some 225%Q) 225) (225%Q, 10%Q) in
  restoredValue saved = Some v /\
  inZone (arrowLeft (loraZones 300 false)) 225 = true /\
  (strength (value (interactAll [click] w)) == 99.95)%Q /\
  ~ strengthsInRange (value (interactAll [click] w)).
Proof.
  cbv zeta. split; [reflexivity|]. split; [reflexivity|].
  split; [vm_compute; reflexivity|].
  intros [[_ H] _]. vm_compute in H. by apply H.
Qed.

(** ** Two decimals *)

Lemma round2_grid q : onGrid q -> (round2 q == q)%Q.
Proof.
  intros [n Hn]. unfold round2.
  assert (E : Math_round (q * 100) = inject_Z n).
  { unfold Math_round. rewrite (Qfloor_comp _ (inject_Z n + (1 # 2))) by (rewrite Hn; reflexivity).
    apply Math_round_Z. }
  rewrite E, <- Hn. field.
Qed.

Lemma round2_onGrid q : onGrid (round2 q).
Proof.
  exists (Qfloor (q * 100 + (1 # 2))). unfold round2, Math_round. field.
Qed.

Lemma onGrid_proper q q' : (q == q')%Q -> onGrid q -> onGrid q'.
Proof. intros E [n Hn]. exists n. by rewrite <- E. Qed.

Lemma onGrid_step q (k : Z) : onGrid q -> onGrid (q + inject_Z k / 100).
Proof.
  intros [n Hn]. exists (n + k)%Z. rewrite inject_Z_plus, <- Hn. field.
Qed.

Lemma round2_comp x y : (x == y)%Q -> round2 x = round2 y.
Proof.
  intros E. unfold round2, Math_round.
  by rewrite (Qfloor_comp (x * 100 + (1 # 2)) (y * 100 + (1 # 2))) by (by rewrite E).
Qed.

(** Rounding moves a number by less than one step. *)
Lemma round2_close x : (Qabs (round2 x - x) < 0.01)%Q.
Proof.
  unfold round2, Math_round.
  pose proof (Qfloor_le (x * 100 + (1 # 2))) as Hlo.
  pose proof (Qlt_floor (x * 100 + (1 # 2))) as Hhi.
  rewrite inject_Z_plus in Hhi. change (inject_Z 1) with 1%Q in Hhi.
  set (F := inject_Z (Qfloor (x * 100 + (1 # 2)))) in *.
  apply Qabs_Qlt_condition.
  assert (E : (F / 100 == F * (1 # 100))%Q) by (field).
  rewrite E. split; lra.
Qed.

Lemma clamp20_comp x y : (x == y)%Q -> (clamp20 x == clamp20 y)%Q.
Proof. intros E. unfold clamp20. by rewrite E. Qed.

Lemma clamp20_onGrid q : onGrid q -> onGrid (clamp20 q).
Proof.
  intros Hq. unfold clamp20.
  destruct (Q.min_spec 20 q) as [[_ E]|[_ E]];
    destruct (Q.max_spec (-20) (Qmin 20 q)) as [[_ E']|[_ E']].
  - apply (onGrid_proper 20); [|by exists 2000%Z].
    by rewrite E', E.
  - apply (onGrid_proper (-20)); [|by exists (-2000)%Z]. by rewrite E'.
  - apply (onGrid_proper q); [|exact Hq]. by rewrite E', E.
  - apply (onGrid_proper (-20)); [|by exists (-2000)%Z]. by rewrite E'.
Qed.

(** What a rounded, clamped sum is in every arithmetic that rounds to the
    nearest two decimals: a number with two decimals, in range, less than
    one step from the clamped sum, and the clamped sum itself when that has
    two decimals. *)
Lemma round2_clamp20_spec y :
  onGrid (round2 (clamp20 y)) /\ inRange (round2 (clamp20 y)) /\
  (Qabs (round2 (clamp20 y) - clamp20 y) < 0.01)%Q /\
  (onGrid y -> (round2 (clamp20 y) == clamp20 y)%Q).
Proof.
  split; [apply round2_onGrid|]. split; [apply round2_range, clamp20_range|].
  split; [apply round2_close|]. intros Hy. by apply round2_grid, clamp20_onGrid.
Qed.

Lemma Qmax_onGrid q : onGrid q -> onGrid (Qmax (-20) q).
Proof.
  intros Hq. destruct (Q.max_spec (-20) q) as [[_ E]|[_ E]].
  - apply (onGrid_proper q); [by rewrite E|exact Hq].
  - apply (onGrid_proper (-20)); [by rewrite E|by exists (-2000)%Z].
Qed.

Lemma Qmin_onGrid q : onGrid q -> onGrid (Qmin 20 q).
Proof.
  intros Hq. destruct (Q.min_spec 20 q) as [[_ E]|[_ E]].
  - apply (onGrid_proper 20); [by rewrite E|by exists 2000%Z].
  - apply (onGrid_proper q); [by rewrite E|exact Hq].
Qed.

Lemma onGrid_minus_step q : onGrid q -> onGrid (q - 0.05).
Proof.
  intros Hq. apply (onGrid_proper (q + inject_Z (-5) / 100)); [|by apply onGrid_step].
  change (inject_Z (-5)) with (-5)%Q. field.
Qed.

Lemma onGrid_plus_step q : onGrid q -> onGrid (q + 0.05).
Proof.
  intros Hq. apply (onGrid_proper (q + inject_Z 5 / 100)); [|by apply onGrid_step].
  change (inject_Z 5) with 5%Q. field.
Qed.

(** ** Zone geometry *)

Example loraZones_single_300 :
  loraZones 300 false =
  {| toggle := mkZone 15 34; name_zone := mkZone 49 168;
     arrowLeft := mkZone 221 14; strengthNum := mkZone 235 36;
     arrowRight := mkZone 271 14;
     arrowLeft2 := None; strengthNum2 := None; arrowRight2 := None |}.
Proof. reflexivity. Qed.

Example loraZones_dual_300 :
  loraZones 300 true =
  {| toggle := mkZone 15 34; name_zone := mkZone 49 102;
     arrowLeft := mkZone 155 14; strengthNum := mkZone 169 36;
     arrowRight := mkZone 205 14;
     arrowLeft2 := Some (mkZone 221 14); strengthNum2 := Some (mkZone 235 36);
     arrowRight2 := Some (mkZone 271 14) |}.
Proof. reflexivity. Qed.

Lemma inZone_false z x :
  inZone z x = false <-> (x < zx z)%Q \/ (zx z + zw z <= x)%Q.
Proof.
  unfold inZone. rewrite andb_false_iff, Qgeb_false, Qltb_false. tauto.
Qed.

Ltac zone_props :=
  repeat match goal with
         | H : inZone _ _ = true |- _ => apply inZone_true in H; destruct H
         | H : inZone _ _ = false |- _ => apply inZone_false in H
         | H : Qltb _ _ = true |- _ => apply Qltb_true in H
         | H : Qltb _ _ = false |- _ => apply Qltb_false in H
         end;
  cbn [loraZones toggle arrowLeft strengthNum arrowRight arrowLeft2
       strengthNum2 arrowRight2 zx zw] in *;
  unfold MARGIN, SWITCH_PAD, SWITCH_W, ARROW_W, STRENGTH_NUM_W in *.

Ltac zone_absurd := exfalso; zone_props; lra.

Lemma numberZoneAt_dual width dual x :
  numberZoneAt width dual x = Some KStrengthTwo -> dual = true.
Proof.
  unfold numberZoneAt, inZone2.
  destruct (inZone _ x); [discriminate|].
  destruct dual; [reflexivity|discriminate].
Qed.

(** A release on a strength-number zone outside the toggle zone runs the
    double-click detector of that column and nothing else. *)
Lemma mouseClick_number width dual now x w k :
  numberZoneAt width dual x = Some k ->
  Qltb x (zx (toggle (loraZones width dual)) + zw (toggle (loraZones width dual))) = false ->
  mouseClick dual (loraZones width dual) now x w =
  if (now - lastClick k w <? 500)%Z
  then mkMouseResult (withLastClick k 0 w) true (ShowStrengthInput k)
  else mkMouseResult (withLastClick k now w) true NoRequest.
Proof.
  intros Hz Ht. unfold mouseClick. rewrite Ht.
  unfold numberZoneAt in Hz.
  destruct (inZone (strengthNum (loraZones width dual)) x) eqn:E1.
  - injection Hz as <-.
    destruct (inZone (arrowLeft (loraZones width dual)) x) eqn:E2.
    { destruct dual; zone_absurd. }
    reflexivity.
  - unfold inZone2 in Hz. destruct dual; [|discriminate].
    cbn [andb loraZones strengthNum2] in Hz.
    match type of Hz with (if ?c then _ else _) = _ => destruct c eqn:E3 end;
      [|discriminate].
    injection Hz as <-.
    destruct (inZone (arrowLeft (loraZones width true)) x) eqn:E2; [zone_absurd|].
    destruct (inZone (arrowRight (loraZones width true)) x) eqn:E4; [zone_absurd|].
    cbn [loraZones arrowLeft2 strengthNum2 arrowRight2].
    match goal with |- context [if inZone ?z x then _ else _] =>
      destruct (inZone z x) eqn:E5 end; [zone_absurd|].
    rewrite E3. reflexivity.
Qed.

(** ** Drag sessions *)

Lemma overThresholdb_true X0 d : overThresholdb X0 d = true <-> overThreshold X0 d.
Proof. apply Qltb_true. Qed.



Lemma isMove_not_down t : isMove t = true -> isDown t = false.
Proof. by destruct t. Qed.

Lemma isUp_not_down_move t : isUpType t = true -> isDown t = false /\ isMove t = false.
Proof. by destruct t. Qed.

Lemma setKey_setKey k x y v : setKey k x (setKey k y v) = setKey k x v.
Proof. by destruct k. Qed.

(** The press arms a session and changes nothing else. *)
Lemma mouse_press width dual now down pos w k :
  isDown (type down) = true ->
  numberZoneAt width dual (fst pos) = Some k ->
  mouse width dual now down pos w =
  mkMouseResult
    (withDrag (Some (mkDragState k (eventX down) (readKey k (value w)) false)) w)
    true NoRequest.
Proof.
  intros Hd Hz. unfold mouse. rewrite Hd. unfold numberZoneAt in Hz.
  destruct (inZone (strengthNum (loraZones width dual)) (fst pos)).
  - by injection Hz as <-.
  - destruct (inZone2 dual (strengthNum2 (loraZones width dual)) (fst pos));
      [|discriminate].
    by injection Hz as <-.
Qed.

(** One move inside an armed session. *)
Lemma mouse_move width dual w d m :
  isMoveDelivery m ->
  _dragState w = Some d ->
  deliver width dual w m =
  if overThresholdb (startX d) m
  then mkMouseResult
         (mkSlotWidget
            (setKey (key d)
               (round2 (clamp20 (startVal d + (eventX (deliveredEvent m) - startX d) * 0.01)))
               (value w))
            (_lastStrengthClick w) (_lastStrengthClick2 w)
            (Some (mkDragState (key d) (startX d) (startVal d) true)))
         true NoRequest
  else mkMouseResult w true NoRequest.
Proof.
  intros Hm Hd. unfold deliver, mouse, overThresholdb, deliveredEvent.
  unfold isMoveDelivery, deliveredEvent in Hm.
  rewrite (isMove_not_down _ Hm), Hm, Hd. reflexivity.
Qed.



(** A release that does not end a drag is a click. *)
Lemma mouse_release_click width dual now up pos w :
  isUpType (type up) = true ->
  wasDragged w = false ->
  mouse width dual now up pos w =
  mouseClick dual (loraZones width dual) now (fst pos) (withDrag None w).
Proof.
  intros Hu Hn. unfold mouse.
  destruct (isUp_not_down_move _ Hu) as [-> ->].
  rewrite Hn, Hu. cbn [andb negb].
  by destruct (type up).
Qed.






(** ** The second strength column *)

Lemma mouseClick_arrowLeft2 width now x w :
  pastToggle width true x ->
  inZone2 true (arrowLeft2 (loraZones width true)) x = true ->
  mouseClick true (loraZones width true) now x w =
  mkMouseResult
    (withValue
       (setKey KStrengthTwo (round2 (Qmax (-20) (strengthTwoOr (value w) - 0.05)))
          (value w)) w)
    true NoRequest.
Proof.
  intros Ht Hz. unfold pastToggle in Ht. apply Qltb_false in Ht.
  unfold mouseClick. rewrite Ht.
  cbn [inZone2 andb loraZones arrowLeft2] in Hz.
  destruct (inZone (arrowLeft (loraZones width true)) x) eqn:E1; [zone_absurd|].
  destruct (inZone (strengthNum (loraZones width true)) x) eqn:E2; [zone_absurd|].
  destruct (inZone (arrowRight (loraZones width true)) x) eqn:E3; [zone_absurd|].
  cbn [loraZones arrowLeft2 strengthNum2 arrowRight2].
  by rewrite Hz.
Qed.

Lemma mouseClick_arrowRight2 width now x w :
  pastToggle width true x ->
  inZone2 true (arrowRight2 (loraZones width true)) x = true ->
  mouseClick true (loraZones width true) now x w =
  mkMouseResult
    (withValue
       (setKey KStrengthTwo (round2 (Qmin 20 (strengthTwoOr (value w) + 0.05)))
          (value w)) w)
    true NoRequest.
Proof.
  intros Ht Hz. unfold pastToggle in Ht. apply Qltb_false in Ht.
  unfold mouseClick. rewrite Ht.
  cbn [inZone2 andb loraZones arrowRight2] in Hz.
  destruct (inZone (arrowLeft (loraZones width true)) x) eqn:E1; [zone_absurd|].
  destruct (inZone (strengthNum (loraZones width true)) x) eqn:E2; [zone_absurd|].
  destruct (inZone (arrowRight (loraZones width true)) x) eqn:E3; [zone_absurd|].
  cbn [loraZones arrowLeft2 strengthNum2 arrowRight2].
  match goal with |- context [if inZone ?z x then _ else _] =>
    destruct (inZone z x) eqn:E4 end; [zone_absurd|].
  match goal with |- context [if inZone ?z x then _ else _] =>
    destruct (inZone z x) eqn:E5 end; [zone_absurd|].
  by rewrite Hz.
Qed.

(** C10: in dual mode, a slot without [strengthTwo] shows its [strength] in
    the second column, and the overlay of that column opens on it.  A press
    on the second number zone starts the drag session at [strength], and
    the first move over the threshold stores a [strengthTwo] computed from
    it: a number with two decimals, in [-20, 20], less than one step of
    0.01 from the clamped [strength + dx * 0.01], and the clamped
    [strength + n / 100] itself for a [strength] with two decimals and a
    displacement of a whole number [n] of pixels.  A click on an arrow of
    the second column stores a [strengthTwo] computed from [strength]: for
    a [strength] in [-20, 20], [strength] minus or plus 0.05, not below -20
    and not above 20, rounded to two decimals.  Each of these
    edits stores exactly what it stores for the same slot with
    [strengthTwo] equal to [strength], and leaves [strength], [on] and
    [lora] as they were. *)
Theorem secondary_falls_back_to_primary width now (w : SlotWidget) :
  strengthTwo (value w) = None ->
  let v := value w in
  let z := loraZones width true in
  let w' := withValue (toDual v) w in
  drawStrengthTwo width true w = Some (strength v) /\
  overlayInitial KStrengthTwo v = strength v /\
  (forall down pos,
     isDown (type down) = true ->
     numberZoneAt width true (fst pos) = Some KStrengthTwo ->
     let w1 := widgetAfter (mouse width true now down pos w) in
     let w1' := widgetAfter (mouse width true now down pos w') in
     _dragState w1 = Some (mkDragState KStrengthTwo (eventX down) (strength v) false) /\
     value w1 = v /\
     forall m,
       isMoveDelivery m ->
       overThreshold (eventX down) m ->
       let dx := (eventX (deliveredEvent m) - eventX down)%Q in
       exists x,
         value (widgetAfter (deliver width true w1 m)) =
         mkLoraValue (on v) (lora v) (strength v) (Some x) /\
         onGrid x /\ inRange x /\
         (Qabs (x - clamp20 (strength v + dx * 0.01)) < 0.01)%Q /\
         (forall n : Z,
            onGrid (strength v) -> (dx == inject_Z n)%Q ->
            (x == clamp20 (strength v + inject_Z n / 100))%Q) /\
         value (widgetAfter (deliver width true w1' m)) =
         value (widgetAfter (deliver width true w1 m))) /\
  (forall up pos,
     isUpType (type up) = true ->
     wasDragged w = false ->
     pastToggle width true (fst pos) ->
     (inZone2 true (arrowLeft2 z) (fst pos) = true ->
      exists x,
        value (widgetAfter (mouse width true now up pos w)) =
        mkLoraValue (on v) (lora v) (strength v) (Some x) /\
        (inRange (strength v) ->
         onGrid x /\
         (Qabs (x - Qmax (-20) (strength v - 0.05)) < 0.01)%Q /\
         (onGrid (strength v) -> (x == Qmax (-20) (strength v - 0.05))%Q)) /\
        value (widgetAfter (mouse width true now up pos w')) =
        value (widgetAfter (mouse width true now up pos w))) /\
     (inZone2 true (arrowRight2 z) (fst pos) = true ->
      exists x,
        value (widgetAfter (mouse width true now up pos w)) =
        mkLoraValue (on v) (lora v) (strength v) (Some x) /\
        (inRange (strength v) ->
         onGrid x /\
         (Qabs (x - Qmin 20 (strength v + 0.05)) < 0.01)%Q /\
         (onGrid (strength v) -> (x == Qmin 20 (strength v + 0.05))%Q)) /\
        value (widgetAfter (mouse width true now up pos w')) =
        value (widgetAfter (mouse width true now up pos w)))).
Proof.
  intros Hnone v z w'.
  assert (Eor : strengthTwoOr v = strength v).
  { unfold strengthTwoOr. subst v. by rewrite Hnone. }
  assert (Ed : toDual v = mkLoraValue (on v) (lora v) (strength v) (Some (strength v))).
  { unfold toDual. subst v. by rewrite Hnone. }
  assert (Ev' : value w' =
                mkLoraValue (on v) (lora v) (strength v) (Some (strength v))).
  { subst w'. cbn [value withValue]. exact Ed. }
  assert (Eor' : strengthTwoOr (value w') = strength v) by (by rewrite Ev').
  split; [|split; [|split]].
  - unfold drawStrengthTwo. cbn. by f_equal.
  - exact Eor.
  - intros down pos Hd Hz w1 w1'.
    assert (E1 : w1 = withDrag
              (Some (mkDragState KStrengthTwo (eventX down) (strength v) false)) w).
    { subst w1. rewrite (mouse_press _ _ _ _ _ _ KStrengthTwo Hd Hz).
      cbn [widgetAfter readKey]. fold v. by rewrite Eor. }
    assert (E1' : w1' = withDrag
              (Some (mkDragState KStrengthTwo (eventX down) (strength v) false)) w').
    { subst w1'. rewrite (mouse_press _ _ _ _ _ _ KStrengthTwo Hd Hz).
      cbn [widgetAfter readKey]. by rewrite Eor'. }
    split; [by rewrite E1|]. split; [by rewrite E1|].
    intros m Hm Ho dx.
    set (y := (strength v + dx * 0.01)%Q).
    destruct (round2_clamp20_spec y) as (G1 & G2 & G3 & G4).
    exists (round2 (clamp20 y)).
    assert (Ev : value (widgetAfter (deliver width true w1 m)) =
                 mkLoraValue (on v) (lora v) (strength v) (Some (round2 (clamp20 y)))).
    { rewrite (mouse_move width true w1 _ m Hm ltac:(by rewrite E1)).
      cbn [startX key startVal].
      apply overThresholdb_true in Ho. rewrite Ho.
      cbn [widgetAfter value]. by rewrite E1. }
    split; [exact Ev|]. split; [exact G1|]. split; [exact G2|]. split; [exact G3|].
    split.
    + intros n Hg Hn.
      assert (Ey : (y == strength v + inject_Z n / 100)%Q)
        by (subst y; rewrite Hn; field).
      rewrite <- (clamp20_comp _ _ Ey). apply G4.
      apply (onGrid_proper (strength v + inject_Z n / 100));
        [by symmetry|by apply onGrid_step].
    + rewrite Ev.
      rewrite (mouse_move width true w1' _ m Hm ltac:(by rewrite E1')).
      cbn [startX key startVal].
      apply overThresholdb_true in Ho. rewrite Ho.
      cbn [widgetAfter value]. rewrite E1'. subst w'.
      cbn [value withValue withDrag]. by rewrite Ed.
  - intros up pos Hu Hn Ht.
    assert (Hn' : wasDragged w' = false) by exact Hn.
    rewrite (mouse_release_click width true now up pos w Hu Hn).
    rewrite (mouse_release_click width true now up pos w' Hu Hn').
    split; intros Hz.
    + exists (round2 (Qmax (-20) (strength v - 0.05))).
      rewrite !mouseClick_arrowLeft2 by assumption.
      cbn [widgetAfter withValue withDrag value]. rewrite Eor', Ev'. fold v.
      rewrite Eor.
      split; [reflexivity|]. split; [|reflexivity].
      intros _. split; [apply round2_onGrid|]. split; [apply round2_close|].
      intros Hg. by apply round2_grid, Qmax_onGrid, onGrid_minus_step.
    + exists (round2 (Qmin 20 (strength v + 0.05))).
      rewrite !mouseClick_arrowRight2 by assumption.
      cbn [widgetAfter withValue withDrag value]. rewrite Eor', Ev'. fold v.
      rewrite Eor.
      split; [reflexivity|]. split; [|reflexivity].
      intros _. split; [apply round2_onGrid|]. split; [apply round2_close|].
      intros Hg. by apply round2_grid, Qmin_onGrid, onGrid_plus_step.
Qed.

(** A slot at strength 0.5 without [strengthTwo], in a node 300 wide. *)
Lemma secondary_falls_back_to_primary_witness :
  let w := mkSlotWidget (mkLoraValue true "123:foo" 0.5 None) 0 0 None in
  strengthTwo (value w) = None /\
  drawStrengthTwo 300 true w = Some 0.5%Q /\
  exists x,
    value (widgetAfter
             (mouse 300 true 1700000000000 (mkEvent pointerup (Some 280%Q) 280)
                (280%Q, 10%Q) w)) =
    mkLoraValue true "123:foo" 0.5 (Some x) /\
    (x == 0.55)%Q.
Proof.
  cbv zeta.
  pose proof (secondary_falls_back_to_primary 300 1700000000000
                (mkSlotWidget (mkLoraValue true "123:foo" 0.5 None) 0 0 None)
                eq_refl) as H.
  cbv zeta in H. destruct H as (H1 & _ & _ & H4).
  split; [reflexivity|]. split; [exact H1|].
  assert (Ht : pastToggle 300 true (fst (280%Q, 10%Q)))
    by (unfold pastToggle; vm_compute; discriminate).
  destruct (proj2 (H4 (mkEvent pointerup (Some 280%Q) 280) (280%Q, 10%Q)
                     eq_refl eq_refl Ht) eq_refl)
    as (x & Hv & Hx & _).
  exists x. split; [exact Hv|].
  destruct Hx as (_ & _ & Hx); [split; vm_compute; discriminate|].
  rewrite Hx; [vm_compute; reflexivity|by exists 50%Z].
Defined.

(** ** Rewriting every slot record *)

Lemma forEachLoraW_records f ws vs :
  mapM recordOf (List.filter isLoraW ws) = Some vs ->
  exists ws',
    mapM (fun w => if isLoraW w
                   then v ← recordOf w; Some (withWValue (VLora (f v)) w)
                   else Some w) ws = Some ws' /\
    mapM recordOf (List.filter isLoraW ws') = Some (map f vs) /\
    map name ws' = map name ws /\
    List.filter (fun w => negb (isLoraW w)) ws' =
    List.filter (fun w => negb (isLoraW w)) ws.
Proof.
  revert vs. induction ws as [|w ws IH]; intros vs H.
  - cbn in H. injection H as <-. exists []. by cbn.
  - cbn [List.filter] in *. destruct (isLoraW w) eqn:Ew.
    + cbn in H. destruct (recordOf w) as [v|] eqn:Ev; [|discriminate].
      cbn in H.
      destruct (mapM recordOf (List.filter isLoraW ws)) as [vs0|] eqn:E0;
        [|discriminate].
      cbn in H. injection H as <-.
      destruct (IH vs0 eq_refl) as (ws' & I1 & I2 & I3 & I4).
      exists (withWValue (VLora (f v)) w :: ws').
      cbn. rewrite Ew, Ev. cbn. rewrite I1. cbn.
      assert (Ew' : isLoraW (withWValue (VLora (f v)) w) = true) by exact Ew.
      rewrite Ew'. cbn. rewrite I2. cbn. rewrite I3, I4. by repeat split.
    + destruct (IH vs H) as (ws' & I1 & I2 & I3 & I4).
      exists (w :: ws'). cbn. rewrite Ew. cbn. rewrite I1. cbn.
      rewrite I2, I3, I4. by repeat split.
Qed.

Lemma forEachLoraW_slotRecords f node vs :
  slotRecords node = Some vs ->
  exists node',
    forEachLoraW f node = Some node' /\
    slotRecords node' = Some (map f vs) /\
    map name (widgets node') = map name (widgets node) /\
    showStrengths node' = showStrengths node.
Proof.
  intros H. destruct (forEachLoraW_records f _ _ H) as (ws' & I1 & I2 & I3 & _).
  exists (withWidgets ws' node). unfold forEachLoraW. rewrite I1. by cbn.
Qed.

Lemma Forall2_map_r_same {A B} (R : A -> B -> Prop) (f : A -> B) l :
  (forall x, R x (f x)) -> Forall2 R l (map f l).
Proof. intros H. induction l; cbn; constructor; auto. Qed.

(** C3: on a change of [showStrengths] over a node whose slot widgets hold
    the records [vs], the switch to "Model & Clip" gives every slot without
    [strengthTwo] its [strength] as [strengthTwo] and leaves a present
    [strengthTwo] alone; the switch to any other value (to "Single") leaves
    every slot without [strengthTwo]; both keep the number and order of the
    slots and every slot's [on], [lora] and [strength]. *)
Theorem mode_switch_rewrites_slots node vs :
  slotRecords node = Some vs ->
  (exists node' vs',
     onPropertyChanged "showStrengths" "Model & Clip" node = Some node' /\
     slotRecords node' = Some vs' /\
     Forall2 (fun v v' =>
                sameButStrengthTwo v v' /\
                (strengthTwo v = None -> strengthTwo v' = Some (strength v)) /\
                (forall s2, strengthTwo v = Some s2 -> strengthTwo v' = Some s2))
             vs vs') /\
  (forall value_,
     value_ <> "Model & Clip" ->
     exists node' vs',
       onPropertyChanged "showStrengths" value_ node = Some node' /\
       slotRecords node' = Some vs' /\
       Forall2 (fun v v' => sameButStrengthTwo v v' /\ strengthTwo v' = None) vs vs').
Proof.
  intros H. split.
  - destruct (forEachLoraW_slotRecords toDual node vs H) as (node' & I1 & I2 & _).
    exists node', (map toDual vs). split; [exact I1|]. split; [exact I2|].
    apply Forall2_map_r_same. intros v. unfold toDual, sameButStrengthTwo.
    destruct (strengthTwo v) eqn:E; cbn; rewrite ?E; repeat split; auto; congruence.
  - intros value_ Hv.
    destruct (forEachLoraW_slotRecords toSingle node vs H) as (node' & I1 & I2 & _).
    exists node', (map toSingle vs).
    split.
    + unfold onPropertyChanged. cbn [String.eqb Ascii.eqb Bool.eqb].
      apply String.eqb_neq in Hv. rewrite Hv. exact I1.
    + split; [exact I2|]. apply Forall2_map_r_same. intros v. by repeat split.
Qed.

(** C9: the switch to "Model & Clip" followed by the switch to "Single"
    leaves every slot's [on], [lora] and [strength] as they were. *)
Theorem mode_round_trip node vs :
  slotRecords node = Some vs ->
  exists node1 node2 vs2,
    onPropertyChanged "showStrengths" "Model & Clip" node = Some node1 /\
    onPropertyChanged "showStrengths" "Single" node1 = Some node2 /\
    slotRecords node2 = Some vs2 /\
    Forall2 sameButStrengthTwo vs vs2.
Proof.
  intros H.
  destruct (forEachLoraW_slotRecords toDual node vs H) as (node1 & I1 & I2 & _).
  destruct (forEachLoraW_slotRecords toSingle node1 _ I2) as (node2 & J1 & J2 & _).
  exists node1, node2, (map toSingle (map toDual vs)).
  split; [exact I1|]. split; [exact J1|]. split; [exact J2|].
  rewrite map_map. apply Forall2_map_r_same. intros v.
  unfold toSingle, toDual, sameButStrengthTwo. by destruct (strengthTwo v).
Qed.

Lemma mode_switch_rewrites_slots_witness :
  slotRecords exampleNode =
    Some [defaultValue; mkLoraValue true "123:foo" 1.0 None] /\
  exists node' vs',
    onPropertyChanged "showStrengths" "Model & Clip" exampleNode = Some node' /\
    slotRecords node' = Some vs' /\
    Forall2 (fun v v' =>
               sameButStrengthTwo v v' /\
               (strengthTwo v = None -> strengthTwo v' = Some (strength v)) /\
               (forall s2, strengthTwo v = Some s2 -> strengthTwo v' = Some s2))
            [defaultValue; mkLoraValue true "123:foo" 1.0 None] vs'.
Proof.
  split; [reflexivity|].
  exact (proj1 (mode_switch_rewrites_slots exampleNode _ eq_refl)).
Defined.

Lemma mode_round_trip_witness :
  slotRecords exampleNode =
    Some [defaultValue; mkLoraValue true "123:foo" 1.0 None] /\
  exists node1 node2 vs2,
    onPropertyChanged "showStrengths" "Model & Clip" exampleNode = Some node1 /\
    onPropertyChanged "showStrengths" "Single" node1 = Some node2 /\
    slotRecords node2 = Some vs2 /\
    Forall2 sameButStrengthTwo [defaultValue; mkLoraValue true "123:foo" 1.0 None] vs2.
Proof.
  split; [reflexivity|].
  exact (mode_round_trip exampleNode _ eq_refl).
Defined.

(** ** Toggle all *)

Lemma everyOn_records ws vs :
  mapM recordOf ws = Some vs -> everyOn ws = Some (forallb on vs).
Proof.
  revert vs. induction ws as [|w ws IH]; intros vs H; cbn in H.
  - by injection H as <-.
  - destruct (recordOf w) as [v|] eqn:Ev; [|discriminate]. cbn in H.
    destruct (mapM recordOf ws) as [vs0|]; [|discriminate].
    cbn in H. injection H as <-.
    unfold recordOf in Ev. cbn [everyOn].
    destruct (wvalue w) as [|s|v']; try discriminate. injection Ev as ->.
    cbn [valueOn forallb].
    destruct (on v); cbn; [by apply IH|reflexivity].
Qed.

Lemma anyOn_records ws vs :
  mapM recordOf ws = Some vs -> anyOn ws = Some (existsb on vs).
Proof.
  revert vs. induction ws as [|w ws IH]; intros vs H; cbn in H.
  - by injection H as <-.
  - destruct (recordOf w) as [v|] eqn:Ev; [|discriminate]. cbn in H.
    destruct (mapM recordOf ws) as [vs0|]; [|discriminate].
    cbn in H. injection H as <-.
    unfold recordOf in Ev. cbn [anyOn].
    destruct (wvalue w) as [|s|v']; try discriminate. injection Ev as ->.
    cbn [valueOn existsb].
    destruct (on v); cbn; [reflexivity|by apply IH].
Qed.

Lemma records_length ws vs :
  mapM recordOf ws = Some vs -> length vs = length ws.
Proof. intros H. symmetry. eapply length_mapM. exact H. Qed.

(** [allOn] over the slot list. *)
Lemma allOn_records node vs :
  slotRecords node = Some vs ->
  allOn node = Some (bool_decide (0 < length vs) && forallb on vs).
Proof.
  intros H. unfold allOn. unfold slotRecords in H.
  rewrite <- (records_length _ _ H).
  destruct (bool_decide (0 < length vs)); [|reflexivity].
  by apply everyOn_records.
Qed.

Lemma toggleAllDraw_records node vs :
  slotRecords node = Some vs ->
  toggleAllDraw node =
  Some (drawSwitch (bool_decide (0 < length vs) && forallb on vs)
          (negb (bool_decide (0 < length vs) && forallb on vs) && existsb on vs)).
Proof.
  intros H. unfold toggleAllDraw. rewrite (allOn_records _ _ H).
  unfold someOn. unfold slotRecords in H. by rewrite (anyOn_records _ _ H).
Qed.

Lemma toggleAllMouse_up up node vs :
  isUpType (type up) = true ->
  slotRecords node = Some vs ->
  exists node',
    toggleAllMouse up node = Some (node', true) /\
    slotRecords node' =
    Some (map (setOn (negb (bool_decide (0 < length vs) && forallb on vs))) vs).
Proof.
  intros Hu H. unfold toggleAllMouse.
  destruct (isUp_not_down_move _ Hu) as [-> _]. rewrite Hu. cbn [negb].
  rewrite (allOn_records _ _ H). cbn.
  destruct (forEachLoraW_slotRecords
              (setOn (negb (bool_decide (0 < length vs) && forallb on vs))) node vs H)
    as (node' & I1 & I2 & _).
  exists node'. rewrite I1. by cbn.
Qed.

Lemma forallb_on_true vs :
  forallb on vs = true <-> Forall (fun v => on v = true) vs.
Proof.
  induction vs as [|v vs IH]; cbn; [by split|].
  rewrite andb_true_iff, Forall_cons, IH. tauto.
Qed.

Lemma forallb_on_false vs :
  forallb on vs = false <-> Exists (fun v => on v = false) vs.
Proof.
  induction vs as [|v vs IH]; cbn.
  - split; [discriminate|]. intros H. inversion H.
  - rewrite andb_false_iff, Exists_cons, IH. tauto.
Qed.

Lemma existsb_on_true vs :
  existsb on vs = true <-> Exists (fun v => on v = true) vs.
Proof.
  induction vs as [|v vs IH]; cbn.
  - split; [discriminate|]. intros H. inversion H.
  - rewrite orb_true_iff, Exists_cons, IH. tauto.
Qed.

Lemma existsb_on_false vs :
  existsb on vs = false <-> Forall (fun v => on v = false) vs.
Proof.
  induction vs as [|v vs IH]; cbn; [by split|].
  rewrite orb_false_iff, Forall_cons, IH. tauto.
Qed.

Lemma nonempty_decide {A} (l : list A) : bool_decide (0 < length l) = true <-> l <> [].
Proof.
  rewrite bool_decide_eq_true. destruct l; cbn; split; try lia; try congruence.
Qed.

(** C6: the switch that the toggle-all widget paints is computed from the
    slots: on exactly when there is a slot and every slot is on, partial
    exactly when some slot is on and some slot is off, off exactly when
    there is no slot or no slot is on.  A release on it sets [on] of every
    slot to the negation of "there is a slot and every slot is on" and
    changes nothing else.  For two slots, the first on and the second off,
    it paints partial, one click turns both on and the next click turns
    both off. *)
Theorem toggle_all_correct node vs :
  slotRecords node = Some vs ->
  let all := bool_decide (0 < length vs) && forallb on vs in
  (exists st,
     toggleAllDraw node = Some st /\
     (st = SwitchOn <-> vs <> [] /\ Forall (fun v => on v = true) vs) /\
     (st = SwitchPartial <->
      Exists (fun v => on v = true) vs /\ Exists (fun v => on v = false) vs) /\
     (st = SwitchOff <-> vs = [] \/ Forall (fun v => on v = false) vs)) /\
  (all = true <-> vs <> [] /\ Forall (fun v => on v = true) vs) /\
  (forall up,
     isUpType (type up) = true ->
     exists node' vs',
       toggleAllMouse up node = Some (node', true) /\
       slotRecords node' = Some vs' /\
       Forall2 (fun v v' =>
                  on v' = negb all /\ lora v' = lora v /\
                  strength v' = strength v /\ strengthTwo v' = strengthTwo v)
               vs vs') /\
  (forall a b,
     vs = [a; b] -> on a = true -> on b = false ->
     toggleAllDraw node = Some SwitchPartial /\
     exists node1 node2 a1 b1 a2 b2,
       toggleAllClick node = Some (node1, true) /\
       slotRecords node1 = Some [a1; b1] /\ on a1 = true /\ on b1 = true /\
       toggleAllClick node1 = Some (node2, true) /\
       slotRecords node2 = Some [a2; b2] /\ on a2 = false /\ on b2 = false).
Proof.
  intros H all.
  assert (Hall : all = true <-> vs <> [] /\ Forall (fun v => on v = true) vs).
  { subst all. by rewrite andb_true_iff, nonempty_decide, forallb_on_true. }
  split; [|split; [exact Hall|split]].
  - exists (drawSwitch all (negb all && existsb on vs)).
    split; [by apply toggleAllDraw_records|].
    unfold drawSwitch. subst all.
    destruct vs as [|v0 vs0].
    { cbn. repeat split; try discriminate; try tauto; auto.
      intros [He _]. inversion He. }
    assert (Hn : bool_decide (0 < length (v0 :: vs0)) = true)
      by (apply nonempty_decide; discriminate).
    rewrite Hn. cbn [andb].
    destruct (forallb on (v0 :: vs0)) eqn:Ea; cbn [negb andb];
      [|destruct (existsb on (v0 :: vs0)) eqn:Es].
    + pose proof (proj1 (forallb_on_true _) Ea) as Ha.
      split; [|split].
      * split; [intros _; split; [discriminate|exact Ha]|reflexivity].
      * split; [discriminate|].
        intros [_ He]. apply forallb_on_false in He. congruence.
      * split; [discriminate|]. intros [?|Hf]; [discriminate|].
        apply Forall_cons in Ha as [Ha _]. apply Forall_cons in Hf as [Hf _].
        congruence.
    + split; [|split].
      * split; [discriminate|].
        intros [_ Hf]. apply forallb_on_true in Hf. congruence.
      * split; [|reflexivity]. intros _.
        split; [by apply existsb_on_true|by apply forallb_on_false].
      * split; [discriminate|]. intros [?|Hf]; [discriminate|].
        apply existsb_on_false in Hf. congruence.
    + split; [|split].
      * split; [discriminate|].
        intros [_ Hf]. apply forallb_on_true in Hf. congruence.
      * split; [discriminate|].
        intros [He _]. apply existsb_on_true in He. congruence.
      * split; [|reflexivity]. intros _. right. by apply existsb_on_false.
  - intros up Hu.
    destruct (toggleAllMouse_up up node vs Hu H) as (node' & I1 & I2).
    exists node', (map (setOn (negb all)) vs).
    split; [exact I1|]. split; [exact I2|].
    apply Forall2_map_r_same. intros v. by repeat split.
  - intros a b -> Ha Hb.
    split.
    { rewrite (toggleAllDraw_records _ _ H). cbn. by rewrite Ha, Hb. }
    destruct (toggleAllMouse_up (mkEvent pointerup None 0) node _ eq_refl H)
      as (node1 & I1 & I2).
    cbn in I2. rewrite Ha, Hb in I2. cbn in I2.
    destruct (toggleAllMouse_up (mkEvent pointerup None 0) node1 _ eq_refl I2)
      as (node2 & J1 & J2).
    cbn in J2.
    do 6 eexists. split; [exact I1|]. split; [exact I2|].
    split; [reflexivity|]. split; [reflexivity|].
    split; [exact J1|]. split; [exact J2|]. by split.
Qed.

(** A fresh node with a second, empty slot added: the first slot is on,
    the second is off. *)
Lemma toggle_all_correct_witness :
  let node := clickAddLora "None" (onNodeCreated false (mkNode [] None 0)) in
  slotRecords node = Some [defaultValue; mkLoraValue false "None" 1.0 None] /\
  toggleAllDraw node = Some SwitchPartial /\
  exists node1 node2 a1 b1 a2 b2,
    toggleAllClick node = Some (node1, true) /\
    slotRecords node1 = Some [a1; b1] /\ on a1 = true /\ on b1 = true /\
    toggleAllClick node1 = Some (node2, true) /\
    slotRecords node2 = Some [a2; b2] /\ on a2 = false /\ on b2 = false.
Proof.
  cbv zeta. split; [reflexivity|].
  exact (proj2 (proj2 (proj2
           (toggle_all_correct
              (clickAddLora "None" (onNodeCreated false (mkNode [] None 0)))
              _ eq_refl)))
           defaultValue (mkLoraValue false "None" 1.0 None)
           eq_refl eq_refl eq_refl).
Defined.

(** ** The upgrade of bare names *)

Lemma upgradeApiSlots_widgets node :
  widgets (upgradeApiSlots node) = map (upgradeWidget (isDualMode node)) (widgets node).
Proof.
  unfold upgradeApiSlots.
  destruct (existsb _isLoraSlot (widgets node)) eqn:Eh; cbn [negb].
  - match goal with |- context [bool_decide ?P] => destruct (bool_decide P) eqn:Eb end.
    + cbn [withWidgets widgets]. apply map_ext. intros w. unfold upgradeWidget.
      destruct (_isLoraSlot w); cbn [andb]; [|reflexivity].
      by destruct (wvalue w).
    + apply bool_decide_eq_false in Eb.
      assert (En : List.filter
                     (fun w => _isLoraSlot w &&
                               match wvalue w with VString _ => true | _ => false end)
                     (widgets node) = []).
      { destruct (List.filter _ (widgets node)); [reflexivity|]. cbn in Eb. lia. }
      rewrite <- (map_id (widgets node)) at 1. apply map_ext_in. intros w Hin.
      unfold upgradeWidget.
      destruct (_isLoraSlot w) eqn:Es; [|reflexivity].
      destruct (wvalue w) as [|s|v] eqn:Ev; try reflexivity.
      exfalso.
      assert (Hf : In w (List.filter
                     (fun w => _isLoraSlot w &&
                               match wvalue w with VString _ => true | _ => false end)
                     (widgets node))).
      { apply filter_In. split; [exact Hin|]. by rewrite Es, Ev. }
      rewrite En in Hf. destruct Hf.
  - rewrite <- (map_id (widgets node)) at 1. apply map_ext_in. intros w Hin.
    unfold upgradeWidget.
    destruct (_isLoraSlot w) eqn:Es; [|reflexivity].
    assert (Hex : existsb _isLoraSlot (widgets node) = true).
    { apply existsb_exists. eauto. }
    congruence.
Qed.

Lemma slotValues_upgrade dual ws :
  map wvalue (List.filter _isLoraSlot (map (upgradeWidget dual) ws)) =
  map (fun v => match v with
                | VString s => VLora (upgradedRecord dual s)
                | _ => v
                end)
      (map wvalue (List.filter _isLoraSlot ws)).
Proof.
  induction ws as [|w ws IH]; [reflexivity|].
  cbn [map List.filter].
  assert (Ef : _isLoraSlot (upgradeWidget dual w) = _isLoraSlot w).
  { unfold upgradeWidget. destruct (_isLoraSlot w) eqn:E; [|exact E].
    destruct (wvalue w); cbn; exact E. }
  rewrite Ef. destruct (_isLoraSlot w) eqn:Es; [|exact IH].
  cbn [map]. rewrite IH. f_equal.
  unfold upgradeWidget. rewrite Es. destruct (wvalue w) eqn:Ev; cbn; by rewrite ?Ev.
Qed.

(** C4: the upgrade pass replaces the value of every slot widget that holds
    a bare string [s] by the record with [lora = s], [on = (s <> "None")],
    [strength = 1.0] and [strengthTwo = 1.0] in dual mode, [null]
    otherwise; it changes no other widget and no other field.  Slot widgets
    that hold "123:foo" and "None" (the source's spelling of the empty
    selection) come out, in single mode, as
    [{on: true, lora: "123:foo", strength: 1.0}] and
    [{on: false, lora: "None", strength: 1.0}]. *)
Theorem degraded_load_upgrade node :
  let dual := isDualMode node in
  let node' := upgradeApiSlots node in
  showStrengths node' = showStrengths node /\
  widgets node' = map (upgradeWidget dual) (widgets node) /\
  (forall w s,
     _isLoraSlot w = true -> wvalue w = VString s ->
     upgradeWidget dual w =
     withWValue
       (VLora (mkLoraValue (negb (String.eqb s "None")) s 1.0
                 (if dual then Some 1.0%Q else None))) w) /\
  (forall w,
     (_isLoraSlot w = false \/ forall s, wvalue w <> VString s) ->
     upgradeWidget dual w = w) /\
  (slotValues node = [VString "123:foo"; VString "None"] ->
   slotValues node' =
   [VLora (mkLoraValue true "123:foo" 1.0 (if dual then Some 1.0%Q else None));
    VLora (mkLoraValue false "None" 1.0 (if dual then Some 1.0%Q else None))]).
Proof.
  intros dual node'.
  assert (Ew : widgets node' = map (upgradeWidget dual) (widgets node))
    by apply upgradeApiSlots_widgets.
  split; [|split; [exact Ew|split; [|split]]].
  - subst node'. unfold upgradeApiSlots.
    repeat match goal with |- context [if ?c then _ else _] => destruct c end;
      reflexivity.
  - intros w s Hs Hv. unfold upgradeWidget. by rewrite Hs, Hv.
  - intros w [Hs|Hv]; unfold upgradeWidget.
    + by rewrite Hs.
    + destruct (_isLoraSlot w); [|reflexivity].
      destruct (wvalue w) as [|s|v] eqn:E; try reflexivity.
      by destruct (Hv s).
  - intros Hv. unfold slotValues in *. rewrite Ew, slotValues_upgrade, Hv.
    reflexivity.
Qed.

(** ** Restore *)

Lemma restoreSlots_spec lsv :
  forall i node vs,
    mapM restoredValue lsv = Some vs ->
    restoreSlots i lsv node =
    Some (mkNode (widgets node ++ slotWidgetsFrom (nextUid node) i vs)
            (showStrengths node) (nextUid node + length vs)).
Proof.
  induction lsv as [|sv lsv IH]; intros i node vs H; cbn in H.
  - injection H as <-. cbn. rewrite app_nil_r, Nat.add_0_r. by destruct node.
  - destruct (restoredValue sv) as [v|] eqn:Ev; [|discriminate]. cbn in H.
    destruct (mapM restoredValue lsv) as [vs0|] eqn:E0; [|discriminate].
    cbn in H. injection H as <-.
    cbn [restoreSlots]. rewrite Ev. cbn [mbind option_bind].
    rewrite (IH (S i) _ vs0 eq_refl). cbn.
    rewrite <- app_assoc. cbn. do 2 f_equal. lia.
Qed.

Lemma configure_result origConfigure node info vs :
  mapM restoredValue (loraSlotValuesOf info) = Some vs ->
  let b := configureBase origConfigure node info in
  let vs' := if bool_decide (0 < length vs) then vs else [defaultValue] in
  configure origConfigure node info =
  Some (mkNode
          (widgets b ++ toggleAllWidgetAt (nextUid b)
             :: slotWidgetsFrom (S (nextUid b)) 0 vs'
             ++ addLoraButtonAt (S (nextUid b) + length vs') :: trailingOf node)
          (showStrengths b) (S (S (nextUid b) + length vs'))).
Proof.
  intros H b vs'.
  assert (Hl : length (loraSlotValuesOf info) = length vs)
    by (eapply length_mapM; exact H).
  unfold configure. fold (trailingOf node). fold (loraSlotValuesOf info).
  change (match info_showStrengths info with
          | Some s => _
          | None => _
          end) with b.
  rewrite Hl. subst vs'.
  destruct (bool_decide (0 < length vs)).
  - rewrite (restoreSlots_spec _ 0 _ vs H). cbn.
    rewrite <- !app_assoc. cbn. repeat f_equal.
  - cbn. rewrite <- !app_assoc, !Nat.add_1_r. reflexivity.
Qed.

Lemma isLoraW_loraWidgetAt u i v : isLoraW (loraWidgetAt u i v) = true.
Proof.
  unfold isLoraW, loraWidgetAt, loraName. cbn. by destruct (decimal i).
Qed.

Lemma isLoraW_noDynamic w : isDynamic w = false -> isLoraW w = false.
Proof.
  unfold isDynamic, isLoraW. intros H.
  apply orb_false_iff in H as [H _]. apply orb_false_iff in H as [H _].
  rewrite H. apply andb_false_r.
Qed.

Lemma filter_isLoraW_noDynamic ws :
  Forall (fun w => isDynamic w = false) ws -> List.filter isLoraW ws = [].
Proof.
  induction 1 as [|w ws Hw _ IH]; [reflexivity|].
  cbn. by rewrite (isLoraW_noDynamic _ Hw).
Qed.

Lemma filter_isLoraW_slotWidgetsFrom vs :
  forall u i, List.filter isLoraW (slotWidgetsFrom u i vs) = slotWidgetsFrom u i vs.
Proof.
  induction vs as [|v vs IH]; intros u i; [reflexivity|].
  cbn [slotWidgetsFrom List.filter]. rewrite isLoraW_loraWidgetAt. by rewrite IH.
Qed.

Lemma records_slotWidgetsFrom vs :
  forall u i, mapM recordOf (slotWidgetsFrom u i vs) = Some vs.
Proof.
  induction vs as [|v vs IH]; intros u i; [reflexivity|].
  cbn. by rewrite IH.
Qed.

Lemma trailingOf_noDynamic node :
  Forall (fun w => isDynamic w = false) (trailingOf node).
Proof.
  apply Forall_forall. intros w Hin. apply list_elem_of_In in Hin.
  apply filter_In in Hin as [_ H]. apply andb_true_iff in H as [H _].
  by apply negb_true_iff.
Qed.

Lemma configureBase_noDynamic origConfigure node info :
  HostContract origConfigure -> noDynamic (configureBase origConfigure node info).
Proof.
  intros HC. unfold configureBase.
  set (stripped := withWidgets _ node).
  assert (Hs : noDynamic stripped).
  { unfold noDynamic. apply Forall_forall. intros w Hin.
    apply list_elem_of_In in Hin. cbn in Hin.
    apply filter_In in Hin as [_ H]. apply andb_true_iff in H as [H _].
    by apply negb_true_iff. }
  assert (Hh : noDynamic (match origConfigure with
                          | Some f => f stripped info
                          | None => stripped
                          end)).
  { destruct origConfigure as [f|] eqn:E; [|exact Hs].
    by eapply (host_noDynamic _ HC). }
  destruct (info_showStrengths info) as [s|]; [|exact Hh].
  destruct (String.eqb s ""); exact Hh.
Qed.

(** The slot list after a restore. *)
Lemma configure_slotRecords origConfigure node info vs :
  HostContract origConfigure ->
  mapM restoredValue (loraSlotValuesOf info) = Some vs ->
  exists node',
    configure origConfigure node info = Some node' /\
    slotRecords node' =
    Some (if bool_decide (0 < length vs) then vs else [defaultValue]) /\
    map name (getLoraWidgets node') =
    map loraName
      (seq 1 (length (if bool_decide (0 < length vs) then vs else [defaultValue]))).
Proof.
  intros HC H. eexists. split; [by apply configure_result|].
  set (vs' := if bool_decide (0 < length vs) then vs else [defaultValue]).
  set (b := configureBase origConfigure node info).
  assert (Hg : getLoraWidgets
                 (mkNode
                    (widgets b ++ toggleAllWidgetAt (nextUid b)
                       :: slotWidgetsFrom (S (nextUid b)) 0 vs'
                       ++ addLoraButtonAt (S (nextUid b) + length vs') :: trailingOf node)
                    (showStrengths b) (S (S (nextUid b) + length vs'))) =
               slotWidgetsFrom (S (nextUid b)) 0 vs').
  { unfold getLoraWidgets. cbn [widgets].
    rewrite List.filter_app.
    rewrite (filter_isLoraW_noDynamic (widgets b))
      by (by apply configureBase_noDynamic).
    cbn [List.filter app]. change (isLoraW (toggleAllWidgetAt (nextUid b))) with false.
    cbn iota. rewrite List.filter_app, filter_isLoraW_slotWidgetsFrom.
    cbn [List.filter].
    change (isLoraW (addLoraButtonAt (S (nextUid b) + length vs'))) with false.
    cbn iota. rewrite (filter_isLoraW_noDynamic _ (trailingOf_noDynamic node)).
    apply app_nil_r. }
  split.
  - unfold slotRecords. rewrite Hg. apply records_slotWidgetsFrom.
  - rewrite Hg. clear. generalize (S (nextUid b)). generalize 0.
    induction vs' as [|v vs' IH]; intros i u; [reflexivity|].
    cbn [slotWidgetsFrom map length seq]. f_equal.
    + cbn. by rewrite Nat.add_1_r.
    + apply IH.
Qed.

Lemma HostContract_None : HostContract None.
Proof. split; intros f H; discriminate. Qed.

Lemma filter_isSlotShaped_none l :
  Forall (fun v => isSlotShaped v = false) l -> List.filter isSlotShaped l = [].
Proof.
  induction 1 as [|v l Hv _ IH]; [reflexivity|]. cbn. by rewrite Hv.
Qed.

(** ** Creation *)

Lemma setupLoraNode_kept_not_lora w :
  (String.eqb (name w) "model" || String.eqb (name w) "clip" ||
   String.eqb (name w) "mm_auth" || String.eqb (name w) "mm_refresh") = true ->
  isLoraW w = false.
Proof.
  intros H. unfold isLoraW.
  repeat (apply orb_true_iff in H as [H|H]);
    apply String.eqb_eq in H; rewrite H; reflexivity.
Qed.

Lemma onNodeCreated_getLoraWidgets connected host :
  exists u, getLoraWidgets (onNodeCreated connected host) = [loraWidgetAt u 1 defaultValue].
Proof.
  unfold onNodeCreated, addAuthAndRefresh, setupLoraNode, getLoraWidgets.
  destruct connected;
  cbn [pushWidget widgets fst createAddLoraButton createLoraWidget
       createToggleAllWidget addBaseModelWidget withWidgets nextUid showStrengths].
  all: eexists.
  all: rewrite !List.filter_app; cbn [List.filter].
  all: match goal with
  | |- context [List.filter isLoraW (List.filter ?p ?l)] =>
      assert (E : List.filter isLoraW (List.filter p l) = [])
  end.
  1,3: generalize (widgets
      match showStrengths host with
      | Some s => if String.eqb s "" then mkNode (widgets host) (Some "Single") (nextUid host)
                  else host
      | None => mkNode (widgets host) (Some "Single") (nextUid host)
      end);
    intros l; induction l as [|w l IH]; [reflexivity|];
    cbn [List.filter];
    match goal with |- context [if ?c then _ else _] => destruct c eqn:Ec end;
      [|exact IH];
    cbn [List.filter]; rewrite (setupLoraNode_kept_not_lora _ Ec); exact IH.
  all: rewrite E; cbn [app].
  all: rewrite isLoraW_loraWidgetAt.
  all: repeat match goal with
              | |- context [isLoraW ?w] =>
                  change (isLoraW w) with false
              end.
  all: cbn iota; cbn [app]; reflexivity.
Qed.

Lemma onNodeCreated_slotRecords connected host :
  slotRecords (onNodeCreated connected host) = Some [defaultValue].
Proof.
  unfold slotRecords.
  destruct (onNodeCreated_getLoraWidgets connected host) as [u ->]. reflexivity.
Qed.

(** C8: a restore from saved values without any slot-shaped entry (no
    object with a [lora] field) gives exactly one slot, named [lora_1],
    with the record [{on: true, lora: "None", strength: 1.0,
    strengthTwo: null}]: the slot list of a freshly created node. *)
Theorem empty_restore_fallback origConfigure node info :
  HostContract origConfigure ->
  Forall (fun v => isSlotShaped v = false)
         (match widgets_values info with Some l => l | None => [] end) ->
  exists node',
    configure origConfigure node info = Some node' /\
    slotRecords node' = Some [mkLoraValue true "None" 1.0 None] /\
    map name (getLoraWidgets node') = ["lora_1"] /\
    forall connected host,
      slotRecords (onNodeCreated connected host) = slotRecords node'.
Proof.
  intros HC Hnone.
  assert (El : loraSlotValuesOf info = [])
    by (by apply filter_isSlotShaped_none).
  destruct (configure_slotRecords origConfigure node info [] HC) as (node' & I1 & I2 & I3).
  { by rewrite El. }
  exists node'. cbn in I2, I3.
  split; [exact I1|]. split; [exact I2|]. split; [exact I3|].
  intros connected host. by rewrite I2, onNodeCreated_slotRecords.
Qed.

Lemma empty_restore_fallback_witness :
  let info := mkInfo None (Some [JString "All"; JNull; JObject [("seed", JNumber 7)]]) in
  Forall (fun v => isSlotShaped v = false)
         (match widgets_values info with Some l => l | None => [] end) /\
  exists node',
    configure None exampleNode info = Some node' /\
    slotRecords node' = Some [mkLoraValue true "None" 1.0 None] /\
    map name (getLoraWidgets node') = ["lora_1"] /\
    forall connected host,
      slotRecords (onNodeCreated connected host) = slotRecords node'.
Proof.
  cbv zeta.
  assert (H : Forall (fun v => isSlotShaped v = false)
                [JString "All"; JNull; JObject [("seed", JNumber 7)]]).
  { repeat constructor. }
  split; [exact H|].
  exact (empty_restore_fallback None exampleNode
           (mkInfo None (Some [JString "All"; JNull; JObject [("seed", JNumber 7)]]))
           HostContract_None H).
Defined.

(** ** Save and restore *)

(** What a restore makes of a serialized record: the record itself in dual
    mode, the record without [strengthTwo] in single mode (an empty [lora]
    comes back as "None"). *)
Lemma restoredValue_serializeValue node v :
  lora v <> "" ->
  restoredValue (serializeValue node v) =
  Some (if isDualMode node then v else toSingle v).
Proof.
  intros Hl. apply String.eqb_neq in Hl.
  destruct v as [o l s s2]. cbn [lora] in Hl.
  unfold serializeValue, toSingle.
  destruct (isDualMode node); cbn; rewrite Hl; cbn.
  - by destruct o, s2.
  - by destruct o.
Qed.

(** C5: [serializeValue] leaves [strengthTwo] out unless the node is in
    dual mode, where it writes the number or [null].  A restore from saved
    values whose only slot-shaped entry is the serialization, in single
    mode, of [{on: true, lora: "123:foo", strength: 0.8}] gives exactly one
    slot, with these values and without [strengthTwo]. *)
Theorem serialization_round_trip :
  (forall node v,
     isDualMode node = false ->
     serializeValue node v =
     JObject [("on", JBool (on v)); ("lora", JString (lora v));
              ("strength", JNumber (strength v))]) /\
  (forall node v,
     isDualMode node = true ->
     serializeValue node v =
     JObject [("on", JBool (on v)); ("lora", JString (lora v));
              ("strength", JNumber (strength v));
              ("strengthTwo",
               match strengthTwo v with Some s2 => JNumber s2 | None => JNull end)]) /\
  (forall origConfigure saved node info,
     HostContract origConfigure ->
     isDualMode saved = false ->
     loraSlotValuesOf info =
       [serializeValue saved (mkLoraValue true "123:foo" 0.8 None)] ->
     exists node',
       configure origConfigure node info = Some node' /\
       slotRecords node' = Some [mkLoraValue true "123:foo" 0.8 None]).
Proof.
  split; [|split].
  - intros node v H. unfold serializeValue. by rewrite H.
  - intros node v H. unfold serializeValue. by rewrite H.
  - intros origConfigure saved node info HC Hs El.
    destruct (configure_slotRecords origConfigure node info
                [mkLoraValue true "123:foo" 0.8 None] HC)
      as (node' & I1 & I2 & _).
    { rewrite El. unfold serializeValue. rewrite Hs. reflexivity. }
    exists node'. split; [exact I1|exact I2].
Qed.

(** The save of a node in single mode whose only slot holds the record of
    the example, restored into a node that has two slots. *)
Lemma serialization_round_trip_witness :
  let v := mkLoraValue true "123:foo" 0.8 None in
  let saved := mkNode [baseModelWidgetAt 0; toggleAllWidgetAt 1;
                       loraWidgetAt 2 1 v; addLoraButtonAt 3] (Some "Single") 4 in
  let info := mkInfo (Some "Single")
                (Some [JString "All"; JString ""; serializeValue saved v;
                       JString "Add LoRA"]) in
  savedInfo false saved = Some info /\
  isDualMode saved = false /\
  loraSlotValuesOf info = [serializeValue saved v] /\
  exists node',
    configure None exampleNode info = Some node' /\
    slotRecords node' = Some [v].
Proof.
  cbv zeta. split; [reflexivity|]. split; [reflexivity|].
  split; [reflexivity|].
  apply (proj2 (proj2 serialization_round_trip) None
           (mkNode [baseModelWidgetAt 0; toggleAllWidgetAt 1;
                    loraWidgetAt 2 1 (mkLoraValue true "123:foo" 0.8 None);
                    addLoraButtonAt 3] (Some "Single") 4)).
  - exact HostContract_None.
  - reflexivity.
  - reflexivity.
Defined.

(** ** Names of the slot widgets *)

Lemma to_uint_not_Nil n : Nat.to_uint n <> Decimal.Nil.
Proof.
  intros H. pose proof (DecimalNat.Unsigned.of_to n) as E. rewrite H in E.
  cbn in E. subst n. discriminate H.
Qed.

Lemma decimal_inj i j : decimal i = decimal j -> i = j.
Proof.
  unfold decimal. intros H.
  apply DecimalNat.Unsigned.to_uint_inj.
  pose proof (NilZero.usu _ (to_uint_not_Nil i)) as Hi.
  pose proof (NilZero.usu _ (to_uint_not_Nil j)) as Hj.
  rewrite H in Hi. congruence.
Qed.

Lemma loraName_inj i j : loraName i = loraName j -> i = j.
Proof.
  unfold loraName. cbn. intros H. apply decimal_inj. congruence.
Qed.

Lemma loraName_prefix i : String.prefix "lora_" (loraName i) = true.
Proof. unfold loraName. cbn. by destruct (decimal i). Qed.

Lemma NoDup_map_loraName l : NoDup l -> NoDup (map loraName l).
Proof.
  induction 1 as [|x l Hx Hl IH]; cbn; constructor; [|exact IH].
  intros Hin. apply list_elem_of_In, in_map_iff in Hin as (y & Hy & Hin).
  apply loraName_inj in Hy. subst y. apply Hx. by apply list_elem_of_In.
Qed.

(** ** Positions *)

Lemma indexOfFrom_app i w l1 l2 :
  ~ In (uid w) (map uid l1) ->
  indexOfFrom i w (l1 ++ w :: l2) = Z.of_nat (i + length l1).
Proof.
  revert i. induction l1 as [|x l1 IH]; intros i Hn; cbn.
  - rewrite Nat.eqb_refl. f_equal. lia.
  - destruct (Nat.eqb (uid x) (uid w)) eqn:E.
    + apply Nat.eqb_eq in E. exfalso. apply Hn. cbn. by left.
    + rewrite IH by (intros Hin; apply Hn; cbn; by right). f_equal. lia.
Qed.

Lemma indexOf_app w l1 l2 :
  ~ In (uid w) (map uid l1) ->
  indexOf w (l1 ++ w :: l2) = Z.of_nat (length l1).
Proof. intros H. unfold indexOf. by rewrite indexOfFrom_app. Qed.

Lemma spliceStart_nat {A} (l : list A) i :
  i <= length l -> spliceStart l (Z.of_nat i) = i.
Proof.
  intros H. unfold spliceStart.
  destruct (Z.of_nat i <? 0)%Z eqn:E; [apply Z.ltb_lt in E; lia|].
  rewrite Nat2Z.id. lia.
Qed.

Lemma spliceDelete_app {A} (l1 l2 : list A) x :
  spliceDelete (Z.of_nat (length l1)) (l1 ++ x :: l2) = l1 ++ l2.
Proof.
  unfold spliceDelete. rewrite spliceStart_nat by (rewrite length_app; lia).
  rewrite take_app_length.
  replace (S (length l1)) with (length l1 + 1) by lia.
  rewrite <- drop_drop, drop_app_length. reflexivity.
Qed.

Lemma spliceInsert_app {A} (l1 l2 : list A) x :
  spliceInsert (Z.of_nat (length l1)) x (l1 ++ l2) = l1 ++ x :: l2.
Proof.
  unfold spliceInsert. rewrite spliceStart_nat by (rewrite length_app; lia).
  by rewrite take_app_length, drop_app_length.
Qed.

Lemma swapAt_adjacent l1 l2 a b :
  swapAt (Z.of_nat (length l1)) (Z.of_nat (S (length l1))) (l1 ++ a :: b :: l2) =
  l1 ++ b :: a :: l2.
Proof.
  unfold swapAt.
  destruct ((Z.of_nat (length l1) <? 0)%Z || (Z.of_nat (S (length l1)) <? 0)%Z) eqn:E.
  { apply orb_true_iff in E as [E|E]; apply Z.ltb_lt in E; lia. }
  rewrite !Nat2Z.id.
  rewrite (list_lookup_middle l1 (b :: l2) a (length l1) eq_refl).
  assert (Eb : (l1 ++ a :: b :: l2) !! S (length l1) = Some b).
  { replace (S (length l1)) with (length l1 + 1) by lia.
    by rewrite lookup_app_r, Nat.add_comm, Nat.add_sub by lia. }
  rewrite Eb.
  replace (length l1) with (length l1 + 0) at 2 by lia.
  rewrite insert_app_r. cbn [list_insert insert].
  replace (S (length l1)) with (length l1 + 1) by lia.
  by rewrite insert_app_r.
Qed.

(** ** The slot widgets inside the widget list *)

Lemma named_slots_isLoraW slots :
  forall l,
    Forall (fun w => _isLoraSlot w = true /\ _isAddLora w = false) slots ->
    map name slots = map loraName l ->
    Forall (fun w => isLoraW w = true /\ _isAddLora w = false) slots.
Proof.
  induction slots as [|w slots IH]; intros l Hf Hn; [constructor|].
  destruct l as [|k l]; [discriminate|]. cbn [map] in Hn. injection Hn as Hw Hn.
  apply Forall_cons in Hf as [[Hs Ha] Hf]. constructor; [|by eapply IH].
  split; [|exact Ha]. unfold isLoraW. by rewrite Hw, loraName_prefix, Hs.
Qed.

Lemma isLoraW_slot w : isLoraW w = true -> _isLoraSlot w = true.
Proof. unfold isLoraW. intros H. by apply andb_true_iff in H as [_ H]. Qed.

Lemma not_slot_not_isLoraW w : _isLoraSlot w = false -> isLoraW w = false.
Proof. unfold isLoraW. intros ->. apply andb_false_r. Qed.

Lemma filter_none {A} (p : A -> bool) l :
  Forall (fun x => p x = false) l -> List.filter p l = [].
Proof. induction 1 as [|x l Hx _ IH]; cbn; [done|]. by rewrite Hx. Qed.

Lemma filter_all {A} (p : A -> bool) l :
  Forall (fun x => p x = true) l -> List.filter p l = l.
Proof. induction 1 as [|x l Hx _ IH]; cbn; [done|]. by rewrite Hx, IH. Qed.

Section InPlace.
Variables (pre slots post : list Widget) (btn : Widget).
Hypothesis Hpre : Forall (fun w => _isLoraSlot w = false /\ _isAddLora w = false) pre.
Hypothesis Hslots : Forall (fun w => isLoraW w = true /\ _isAddLora w = false) slots.
Hypothesis Hbtn : _isAddLora btn = true /\ _isLoraSlot btn = false.
Hypothesis Hpost : Forall (fun w => _isLoraSlot w = false) post.

Lemma inPlace_getLoraWidgets :
  List.filter isLoraW (pre ++ slots ++ btn :: post) = slots.
Proof.
  rewrite !List.filter_app. cbn [List.filter].
  rewrite (filter_none isLoraW pre).
  2:{ eapply Forall_impl; [exact Hpre|]. intros w [H _].
      by apply not_slot_not_isLoraW. }
  rewrite (filter_all isLoraW slots).
  2:{ eapply Forall_impl; [exact Hslots|]. by intros w [H _]. }
  rewrite (not_slot_not_isLoraW btn) by apply Hbtn.
  rewrite (filter_none isLoraW post).
  2:{ eapply Forall_impl; [exact Hpost|]. intros w H.
      by apply not_slot_not_isLoraW. }
  cbn. apply app_nil_r.
Qed.

Lemma inPlace_slotFlagged :
  List.filter _isLoraSlot (pre ++ slots ++ btn :: post) = slots.
Proof.
  rewrite !List.filter_app. cbn [List.filter].
  rewrite (filter_none _isLoraSlot pre).
  2:{ eapply Forall_impl; [exact Hpre|]. by intros w [H _]. }
  rewrite (filter_all _isLoraSlot slots).
  2:{ eapply Forall_impl; [exact Hslots|]. intros w [H _].
      by apply isLoraW_slot. }
  rewrite (proj2 Hbtn).
  rewrite (filter_none _isLoraSlot post) by exact Hpost.
  cbn. apply app_nil_r.
Qed.

Lemma inPlace_find_button :
  List.find _isAddLora (pre ++ slots ++ btn :: post) = Some btn.
Proof.
  assert (G : forall l rest,
             Forall (fun w => _isAddLora w = false) l ->
             List.find _isAddLora (l ++ rest) = List.find _isAddLora rest).
  { intros l rest Hl. induction Hl as [|x l Hx _ IH]; cbn; [done|].
    by rewrite Hx. }
  rewrite G by (eapply Forall_impl; [exact Hpre|]; by intros w [_ H]).
  rewrite G by (eapply Forall_impl; [exact Hslots|]; by intros w [_ H]).
  cbn. by rewrite (proj1 Hbtn).
Qed.
End InPlace.

(** ** Renumbering *)

Lemma renumberFrom_none ws :
  forall i, Forall (fun w => _isLoraSlot w = false) ws -> renumberFrom i ws = ws.
Proof.
  induction ws as [|w ws IH]; intros i H; [reflexivity|].
  apply Forall_cons in H as [Hw H]. cbn.
  by rewrite (not_slot_not_isLoraW _ Hw), IH.
Qed.

Lemma renumberFrom_app ws1 ws2 :
  forall i,
    renumberFrom i (ws1 ++ ws2) =
    renumberFrom i ws1 ++ renumberFrom (i + length (List.filter isLoraW ws1)) ws2.
Proof.
  induction ws1 as [|w ws1 IH]; intros i; cbn [renumberFrom List.filter app].
  - cbn. by rewrite Nat.add_0_r.
  - destruct (isLoraW w); cbn [length app]; rewrite IH; [|reflexivity].
    replace (i + S (length (List.filter isLoraW ws1)))
      with (S i + length (List.filter isLoraW ws1)) by lia.
    reflexivity.
Qed.

Lemma renumberFrom_uids ws : forall i, map uid (renumberFrom i ws) = map uid ws.
Proof.
  induction ws as [|w ws IH]; intros i; [reflexivity|].
  cbn. destruct (isLoraW w); cbn; by rewrite IH.
Qed.

Lemma renumberFrom_slots slots :
  forall i,
    Forall (fun w => isLoraW w = true /\ _isAddLora w = false) slots ->
    Forall (fun w => _isLoraSlot w = true /\ _isAddLora w = false)
           (renumberFrom i slots) /\
    map name (renumberFrom i slots) = map loraName (seq (i + 1) (length slots)) /\
    map wvalue (renumberFrom i slots) = map wvalue slots /\
    length (renumberFrom i slots) = length slots.
Proof.
  induction slots as [|w slots IH]; intros i H.
  - cbn. repeat split; constructor.
  - apply Forall_cons in H as [[Hw Ha] H].
    destruct (IH (S i) H) as (I1 & I2 & I3 & I4).
    cbn [renumberFrom]. rewrite Hw. cbn [map length seq].
    replace (S (i + 1)) with (S i + 1) by lia.
    rewrite I2, I3, I4. repeat split; try reflexivity.
    constructor; [|exact I1]. cbn. split; [by apply isLoraW_slot|exact Ha].
Qed.

(** ** Identities *)

Lemma NoDup_uid_middle l1 w l2 :
  NoDup (map uid (l1 ++ w :: l2)) -> ~ In (uid w) (map uid l1).
Proof.
  rewrite map_app. cbn. intros H Hin.
  apply NoDup_app in H as (_ & H & _).
  apply (H (uid w)); [by apply list_elem_of_In|]. apply list_elem_of_here.
Qed.

Lemma uidsFresh_perm node ws :
  uidsFresh node -> ws ≡ₚ widgets node -> uidsFresh (withWidgets ws node).
Proof.
  intros [H1 H2] Hp. split; cbn.
  - eapply NoDup_Permutation_proper; [|exact H1].
    by apply Permutation_map.
  - eapply Permutation_Forall; [symmetry; exact Hp|exact H2].
Qed.

Lemma uidsFresh_same_uids node ws :
  uidsFresh node -> map uid ws = map uid (widgets node) ->
  uidsFresh (withWidgets ws node).
Proof.
  intros [H1 H2] E. split; cbn.
  - by rewrite E.
  - apply Forall_forall. intros w Hin.
    assert (Hu : In (uid w) (map uid (widgets node))).
    { rewrite <- E. apply in_map. by apply list_elem_of_In. }
    apply in_map_iff in Hu as (w' & Ew & Hw').
    rewrite Forall_forall in H2. rewrite <- Ew. apply H2.
    by apply list_elem_of_In.
Qed.

Lemma uidsFresh_delete node l1 w l2 :
  uidsFresh node -> widgets node = l1 ++ w :: l2 ->
  uidsFresh (withWidgets (l1 ++ l2) node).
Proof.
  intros [H1 H2] E. rewrite E in H1, H2. split; cbn.
  - rewrite map_app in *. cbn in H1.
    apply NoDup_app in H1 as (A & B & C).
    apply NoDup_cons in C as [_ C].
    apply NoDup_app. split; [exact A|]. split; [|exact C].
    intros x Hx Hin. apply (B x Hx). by apply list_elem_of_further.
  - apply Forall_app in H2 as [A B]. apply Forall_cons in B as [_ B].
    by apply Forall_app.
Qed.

(** Renumbering a list in which the slot widgets stand together puts the
    names back in order and moves nothing. *)
Lemma renumber_inPlace node pre slots btn post :
  widgets node = pre ++ slots ++ btn :: post ->
  Forall (fun w => _isLoraSlot w = false /\ _isAddLora w = false) pre ->
  Forall (fun w => isLoraW w = true /\ _isAddLora w = false) slots ->
  _isAddLora btn = true /\ _isLoraSlot btn = false ->
  Forall (fun w => _isLoraSlot w = false) post ->
  uidsFresh node ->
  uidsFresh (renumberLoraWidgets node) /\ slotsInPlace (renumberLoraWidgets node).
Proof.
  intros E Hpre Hslots Hbtn Hpost Hu.
  assert (Er : renumberFrom 0 (widgets node) =
               pre ++ renumberFrom 0 slots ++ btn :: post).
  { assert (Hp : Forall (fun w => _isLoraSlot w = false) pre)
      by (eapply Forall_impl; [exact Hpre|]; by intros w [H _]).
    rewrite E, renumberFrom_app, (renumberFrom_none pre _ Hp).
    rewrite (filter_none isLoraW pre)
      by (eapply Forall_impl; [exact Hp|]; apply not_slot_not_isLoraW).
    cbn [length]. rewrite Nat.add_0_r, renumberFrom_app.
    cbn [renumberFrom]. rewrite (not_slot_not_isLoraW btn) by apply Hbtn.
    by rewrite (renumberFrom_none post). }
  split.
  - unfold renumberLoraWidgets. apply uidsFresh_same_uids; [exact Hu|].
    apply renumberFrom_uids.
  - destruct (renumberFrom_slots slots 0 Hslots) as (I1 & I2 & I3 & I4).
    exists pre, (renumberFrom 0 slots), btn, post.
    unfold renumberLoraWidgets. cbn [widgets withWidgets].
    split; [exact Er|]. split; [exact Hpre|]. split; [exact I1|].
    split; [by rewrite I2, I4|]. by destruct Hbtn.
Qed.

(** ** The list operations keep the invariant *)

Lemma split_two {A} (l : list A) j a b :
  l !! j = Some a -> l !! S j = Some b ->
  l = take j l ++ a :: b :: drop (S (S j)) l.
Proof.
  intros Ha Hb.
  rewrite <- (take_drop_middle l j a Ha) at 1. do 2 f_equal.
  by apply drop_S.
Qed.

Lemma removeLora_invariant j node :
  listInvariant node -> listInvariant (removeLora j node).
Proof.
  intros [Hu (pre & slots & btn & post & E & Hpre & Hslots & Hnames & Hb1 & Hb2 & Hpost)].
  pose proof (named_slots_isLoraW _ _ Hslots Hnames) as Hs.
  unfold removeLora, getLoraWidgets.
  rewrite E, (inPlace_getLoraWidgets pre slots post btn Hpre Hs (conj Hb1 Hb2) Hpost).
  destruct (slots !! j) as [w|] eqn:Ej.
  2:{ split; [exact Hu|]. by exists pre, slots, btn, post. }
  pose proof (take_drop_middle slots j w Ej) as Esplit.
  set (s1 := take j slots) in *. set (s2 := drop (S j) slots) in *.
  assert (E' : widgets node = (pre ++ s1) ++ w :: (s2 ++ btn :: post)).
  { rewrite E, <- Esplit, <- !app_assoc. reflexivity. }
  rewrite <- E, E'.
  rewrite indexOf_app.
  2:{ destruct Hu as [Hn _]. rewrite E' in Hn. by eapply NoDup_uid_middle. }
  destruct (0 <=? Z.of_nat (length (pre ++ s1)))%Z eqn:Ez;
    [|apply Z.leb_gt in Ez; lia].
  rewrite spliceDelete_app.
  rewrite <- Esplit in Hs. apply Forall_app in Hs as [Hs1 Hs2].
  apply Forall_cons in Hs2 as [_ Hs2].
  apply (renumber_inPlace _ pre (s1 ++ s2) btn post); cbn [widgets withWidgets];
    auto.
  - by rewrite <- !app_assoc.
  - by apply Forall_app.
  - by eapply uidsFresh_delete.
Qed.

Lemma moveLoraDown_invariant j node :
  listInvariant node -> listInvariant (moveLoraDown j node).
Proof.
  intros [Hu (pre & slots & btn & post & E & Hpre & Hslots & Hnames & Hb1 & Hb2 & Hpost)].
  pose proof (named_slots_isLoraW _ _ Hslots Hnames) as Hs.
  unfold moveLoraDown, getLoraWidgets.
  rewrite E, (inPlace_getLoraWidgets pre slots post btn Hpre Hs (conj Hb1 Hb2) Hpost).
  destruct (slots !! j) as [a|] eqn:Ea.
  2:{ split; [exact Hu|]. by exists pre, slots, btn, post. }
  destruct (slots !! S j) as [b|] eqn:Eb.
  2:{ split; [exact Hu|]. by exists pre, slots, btn, post. }
  pose proof (split_two slots j a b Ea Eb) as Esplit.
  set (s1 := take j slots) in *. set (s2 := drop (S (S j)) slots) in *.
  assert (E' : widgets node = (pre ++ s1) ++ a :: b :: (s2 ++ btn :: post)).
  { rewrite E, Esplit, <- !app_assoc. reflexivity. }
  rewrite <- E, E'.
  rewrite (indexOf_app a).
  2:{ destruct Hu as [Hn _]. rewrite E' in Hn. by eapply NoDup_uid_middle. }
  assert (Ib : indexOf b ((pre ++ s1) ++ a :: b :: s2 ++ btn :: post) =
               Z.of_nat (S (length (pre ++ s1)))).
  { change ((pre ++ s1) ++ a :: b :: s2 ++ btn :: post)
      with ((pre ++ s1) ++ [a] ++ b :: s2 ++ btn :: post).
    rewrite app_assoc, indexOf_app.
    - rewrite length_app. cbn. f_equal. lia.
    - destruct Hu as [Hn _]. rewrite E' in Hn.
      change ((pre ++ s1) ++ a :: b :: s2 ++ btn :: post)
        with ((pre ++ s1) ++ [a] ++ b :: s2 ++ btn :: post) in Hn.
      rewrite app_assoc in Hn. by eapply NoDup_uid_middle. }
  rewrite Ib, swapAt_adjacent.
  rewrite Esplit in Hs. apply Forall_app in Hs as [Hs1 Hs2].
  apply Forall_cons in Hs2 as [Ha Hs2]. apply Forall_cons in Hs2 as [Hb Hs2].
  apply (renumber_inPlace _ pre (s1 ++ b :: a :: s2) btn post);
    cbn [widgets withWidgets]; auto.
  - by rewrite <- !app_assoc.
  - apply Forall_app. split; [exact Hs1|].
    constructor; [exact Hb|]. constructor; [exact Ha|exact Hs2].
  - apply uidsFresh_perm; [exact Hu|]. rewrite E'.
    apply Permutation_app_head. apply perm_swap.
Qed.

Lemma moveLoraUp_invariant j node :
  listInvariant node -> listInvariant (moveLoraUp j node).
Proof.
  destruct j as [|j]; [by intros|].
  change (moveLoraUp (S j) node) with (moveLoraDown j node).
  apply moveLoraDown_invariant.
Qed.

Lemma fresh_uid_not_in ws u :
  Forall (fun w => uid w < u) ws -> ~ In u (map uid ws).
Proof.
  intros H Hin. apply in_map_iff in Hin as (w & Ew & Hw).
  rewrite Forall_forall in H. apply list_elem_of_In in Hw.
  specialize (H w Hw). lia.
Qed.

Lemma perm_insert {A} (l1 l2 l3 : list A) x :
  l1 ++ (l2 ++ [x]) ++ l3 ≡ₚ x :: l1 ++ l2 ++ l3.
Proof.
  replace (l1 ++ (l2 ++ [x]) ++ l3) with ((l1 ++ l2) ++ x :: l3)
    by (by rewrite <- !app_assoc).
  replace (x :: l1 ++ l2 ++ l3) with (x :: (l1 ++ l2) ++ l3)
    by (by rewrite <- !app_assoc).
  symmetry. apply Permutation_middle.
Qed.

Lemma clickAddLora_invariant choice node :
  listInvariant node -> listInvariant (clickAddLora choice node).
Proof.
  intros [Hu (pre & slots & btn & post & E & Hpre & Hslots & Hnames & Hb1 & Hb2 & Hpost)].
  pose proof (named_slots_isLoraW _ _ Hslots Hnames) as Hs.
  destruct node as [ws ss nu]. cbn [widgets] in E. subst ws.
  destruct Hu as [Hn Hlt]. cbn [widgets nextUid] in Hn, Hlt.
  unfold clickAddLora. cbn [widgets].
  rewrite (inPlace_find_button pre slots post btn Hpre Hs (conj Hb1 Hb2)).
  unfold addLoraSlot, getLoraWidgets. cbn [widgets].
  rewrite (inPlace_getLoraWidgets pre slots post btn Hpre Hs (conj Hb1 Hb2) Hpost).
  cbn [createLoraWidget pushWidget widgets nextUid showStrengths].
  set (newW := loraWidgetAt nu (length slots + 1) _).
  rewrite (indexOf_app newW (pre ++ slots ++ btn :: post) [])
    by (by apply fresh_uid_not_in).
  assert (Ib : indexOf btn ((pre ++ slots ++ btn :: post) ++ [newW]) =
               Z.of_nat (length (pre ++ slots))).
  { replace ((pre ++ slots ++ btn :: post) ++ [newW])
      with ((pre ++ slots) ++ btn :: (post ++ [newW]))
      by (by rewrite <- !app_assoc).
    apply indexOf_app.
    replace (pre ++ slots ++ btn :: post) with ((pre ++ slots) ++ btn :: post) in Hn
      by (by rewrite <- !app_assoc).
    by eapply NoDup_uid_middle. }
  rewrite Ib.
  destruct (Z.of_nat (length (pre ++ slots)) <?
            Z.of_nat (length (pre ++ slots ++ btn :: post)))%Z eqn:El.
  2:{ apply Z.ltb_ge in El. rewrite !length_app in El. cbn in El. lia. }
  rewrite spliceDelete_app, app_nil_r.
  replace (pre ++ slots ++ btn :: post) with ((pre ++ slots) ++ btn :: post)
    by (by rewrite <- !app_assoc).
  rewrite spliceInsert_app.
  assert (Ew : (pre ++ slots) ++ newW :: btn :: post =
               pre ++ (slots ++ [newW]) ++ btn :: post)
    by (by rewrite <- !app_assoc).
  rewrite Ew. split.
  - split; cbn [widgets withWidgets nextUid].
    + eapply NoDup_Permutation_proper.
      * apply Permutation_map. apply perm_insert.
      * cbn [map]. apply NoDup_cons. split; [|exact Hn].
        intros Hin. apply list_elem_of_In in Hin.
        by apply (fresh_uid_not_in _ _ Hlt).
    + assert (Hlt' : Forall (fun w => uid w < S nu) (pre ++ slots ++ btn :: post)).
      { eapply Forall_impl; [exact Hlt|]. intros w Hw. cbn beta in *. lia. }
      eapply Permutation_Forall; [symmetry; apply perm_insert|].
      constructor; [subst newW; cbn; lia|exact Hlt'].
  - exists pre, (slots ++ [newW]), btn, post. cbn [widgets withWidgets].
    split; [reflexivity|]. split; [exact Hpre|].
    split; [apply Forall_app; split; [exact Hslots|by repeat constructor]|].
    split; [|by repeat split].
    rewrite map_app, length_app, Hnames. cbn [length map].
    rewrite seq_app, map_app. f_equal. cbn [seq map]. subst newW.
    cbn [name loraWidgetAt]. rewrite Nat.add_1_r. reflexivity.
Qed.

Lemma runOp_invariant op node : listInvariant node -> listInvariant (runOp node op).
Proof.
  destruct op; cbn [runOp].
  - apply clickAddLora_invariant.
  - apply removeLora_invariant.
  - apply moveLoraUp_invariant.
  - apply moveLoraDown_invariant.
Qed.

(** ** Creation and restore establish the invariant *)

Lemma uidsFresh_push w node :
  uid w = nextUid node -> uidsFresh node -> uidsFresh (pushWidget w node).
Proof.
  intros Ew [Hn Hlt]. split; cbn [pushWidget widgets nextUid].
  - eapply NoDup_Permutation_proper.
    + apply Permutation_map. symmetry. apply Permutation_cons_append.
    + cbn [map]. apply NoDup_cons. split; [|exact Hn].
      intros Hin. apply list_elem_of_In in Hin. rewrite Ew in Hin.
      by apply (fresh_uid_not_in _ _ Hlt).
  - apply Forall_app. split.
    + eapply Forall_impl; [exact Hlt|]. intros x Hx. cbn beta in *. lia.
    + constructor; [|constructor]. lia.
Qed.

Lemma in_filter_uid (p : Widget -> bool) l u :
  u ∈ map uid (List.filter p l) -> u ∈ map uid l.
Proof.
  intros H. apply list_elem_of_In, in_map_iff in H as (w & Ew & Hw).
  apply filter_In in Hw as [Hw _].
  apply list_elem_of_In, in_map_iff. eauto.
Qed.

Lemma NoDup_filter_uid (p : Widget -> bool) l :
  NoDup (map uid l) -> NoDup (map uid (List.filter p l)).
Proof.
  induction l as [|x l IH]; cbn; [done|]. intros H.
  apply NoDup_cons in H as [Hx H]. destruct (p x); cbn; [|by apply IH].
  apply NoDup_cons. split; [|by apply IH].
  intros Hin. apply Hx. by eapply in_filter_uid.
Qed.

Lemma uidsFresh_filter (p : Widget -> bool) node :
  uidsFresh node -> uidsFresh (withWidgets (List.filter p (widgets node)) node).
Proof.
  intros [Hn Hlt]. split; cbn [withWidgets widgets nextUid].
  - by apply NoDup_filter_uid.
  - apply Forall_forall. intros w Hw. apply list_elem_of_In, filter_In in Hw as [Hw _].
    rewrite Forall_forall in Hlt. apply Hlt. by apply list_elem_of_In.
Qed.

Lemma uidsFresh_showStrengths ws s s' u :
  uidsFresh (mkNode ws s u) -> uidsFresh (mkNode ws s' u).
Proof. by intros H. Qed.

Lemma onNodeCreated_invariant connected host :
  noDynamic host -> uidsFresh host -> listInvariant (onNodeCreated connected host).
Proof.
  intros Hd Hu. unfold onNodeCreated, setupLoraNode.
  set (h0 := match showStrengths host with
             | Some s => if String.eqb s "" then mkNode (widgets host) (Some "Single") (nextUid host)
                         else host
             | None => mkNode (widgets host) (Some "Single") (nextUid host)
             end).
  assert (Hw0 : widgets h0 = widgets host).
  { subst h0. destruct (showStrengths host) as [s|]; [|reflexivity].
    by destruct (String.eqb s ""). }
  assert (Hu0 : uidsFresh h0).
  { subst h0. destruct host as [ws ss nu].
    destruct ss as [s|]; cbn; [destruct (String.eqb s "")|]; exact Hu. }
  set (keep := fun w : Widget =>
                 String.eqb (name w) "model" || String.eqb (name w) "clip" ||
                 String.eqb (name w) "mm_auth" || String.eqb (name w) "mm_refresh").
  set (h1 := withWidgets (List.filter keep (widgets h0)) h0).
  assert (Hu1 : uidsFresh h1) by (by apply uidsFresh_filter).
  assert (Hd1 : Forall (fun w => _isLoraSlot w = false /\ _isAddLora w = false)
                       (widgets h1)).
  { subst h1. cbn [withWidgets widgets]. rewrite Hw0.
    apply Forall_forall. intros w Hw.
    apply list_elem_of_In, filter_In in Hw as [Hw _].
    unfold noDynamic in Hd. rewrite Forall_forall in Hd.
    apply list_elem_of_In in Hw. specialize (Hd w Hw).
    unfold isDynamic in Hd.
    apply orb_false_iff in Hd as [Hd Ha]. apply orb_false_iff in Hd as [Hs _].
    by split. }
  split.
  - unfold addAuthAndRefresh.
    repeat (apply uidsFresh_push; [reflexivity|]). exact Hu1.
  - exists (widgets h1 ++ [baseModelWidgetAt (nextUid h1);
                           toggleAllWidgetAt (S (nextUid h1))]),
           [loraWidgetAt (S (S (nextUid h1))) 1 defaultValue],
           (addLoraButtonAt (S (S (S (nextUid h1))))).
    eexists.
    split.
    { unfold addAuthAndRefresh.
      cbn [pushWidget widgets nextUid fst createAddLoraButton createLoraWidget
           createToggleAllWidget addBaseModelWidget showStrengths].
      rewrite <- !app_assoc. cbn [app]. reflexivity. }
    split.
    { apply Forall_app. split; [exact Hd1|]. by repeat constructor. }
    split; [by repeat constructor|].
    split; [reflexivity|].
    split; [reflexivity|]. split; [reflexivity|].
    destruct connected; by repeat constructor.
Qed.

Lemma restoreSlots_fail lsv :
  forall i node, mapM restoredValue lsv = None -> restoreSlots i lsv node = None.
Proof.
  induction lsv as [|sv lsv IH]; intros i node H; cbn in H; [discriminate|].
  cbn [restoreSlots]. destruct (restoredValue sv) as [v|]; [|reflexivity].
  cbn in *. apply IH.
  by destruct (mapM restoredValue lsv).
Qed.

Lemma configure_Some_records origConfigure node info node' :
  configure origConfigure node info = Some node' ->
  exists vs, mapM restoredValue (loraSlotValuesOf info) = Some vs.
Proof.
  intros H. destruct (mapM restoredValue (loraSlotValuesOf info)) as [vs|] eqn:E;
    [by exists vs|].
  exfalso. unfold configure in H. fold (loraSlotValuesOf info) in H.
  destruct (loraSlotValuesOf info) as [|sv lsv] eqn:El; [discriminate E|].
  cbn [length] in H.
  rewrite bool_decide_eq_true_2 in H by lia.
  by rewrite (restoreSlots_fail _ _ _ E) in H.
Qed.

Lemma uid_slotWidgetsFrom vs :
  forall u i, map uid (slotWidgetsFrom u i vs) = seq u (length vs).
Proof.
  induction vs as [|v vs IH]; intros u i; [reflexivity|].
  cbn. by rewrite IH.
Qed.

Lemma flags_slotWidgetsFrom vs :
  forall u i,
    Forall (fun w => _isLoraSlot w = true /\ _isAddLora w = false)
           (slotWidgetsFrom u i vs).
Proof.
  induction vs as [|v vs IH]; intros u i; cbn; constructor; [by split|apply IH].
Qed.

Lemma name_slotWidgetsFrom vs :
  forall u i, map name (slotWidgetsFrom u i vs) = map loraName (seq (i + 1) (length vs)).
Proof.
  induction vs as [|v vs IH]; intros u i; [reflexivity|].
  cbn [slotWidgetsFrom map length seq]. f_equal.
  rewrite IH. by replace (S i + 1) with (S (i + 1)) by lia.
Qed.

Lemma NoDup_uid_inj l (x y : Widget) :
  NoDup (map uid l) -> x ∈ l -> y ∈ l -> uid x = uid y -> x = y.
Proof.
  induction l as [|a l IH]; intros Hn Hx Hy E; [by apply elem_of_nil in Hx|].
  cbn in Hn. apply NoDup_cons in Hn as [Ha Hn].
  apply elem_of_cons in Hx as [->|Hx]; apply elem_of_cons in Hy as [->|Hy];
    auto.
  - exfalso. apply Ha. rewrite E. apply list_elem_of_In, in_map.
    by apply list_elem_of_In.
  - exfalso. apply Ha. rewrite <- E. apply list_elem_of_In, in_map.
    by apply list_elem_of_In.
Qed.

Lemma restored_uids (Ub Ut US : list nat) nb nu len :
  NoDup Ub -> Forall (fun x => x < nb) Ub ->
  Forall (fun x => x ∈ US \/ nu <= x) Ub ->
  NoDup Ut -> Forall (fun x => x < nu /\ x ∉ US) Ut ->
  nu <= nb ->
  NoDup (Ub ++ nb :: seq (S nb) len ++ (S nb + len) :: Ut) /\
  Forall (fun x => x < S (S nb + len))
         (Ub ++ nb :: seq (S nb) len ++ (S nb + len) :: Ut).
Proof.
  intros Hb Hblt Hbn Ht Htn Hle.
  rewrite Forall_forall in Hblt, Hbn, Htn.
  split.
  - apply NoDup_app. split; [exact Hb|]. split.
    + intros x Hx Hin.
      apply elem_of_cons in Hin as [->|Hin]; [specialize (Hblt _ Hx); lia|].
      apply elem_of_app in Hin as [Hin|Hin].
      { apply elem_of_seq in Hin. specialize (Hblt _ Hx). lia. }
      apply elem_of_cons in Hin as [->|Hin]; [specialize (Hblt _ Hx); lia|].
      destruct (Htn _ Hin) as [H1 H2]. destruct (Hbn _ Hx) as [H3|H3]; [done|lia].
    + apply NoDup_cons. split.
      { intros Hin. apply elem_of_app in Hin as [Hin|Hin].
        - apply elem_of_seq in Hin. lia.
        - apply elem_of_cons in Hin as [Hin|Hin]; [lia|].
          destruct (Htn _ Hin) as [H1 _]. lia. }
      apply NoDup_app. split; [apply NoDup_seq|]. split.
      { intros x Hx Hin. apply elem_of_seq in Hx.
        apply elem_of_cons in Hin as [Hin|Hin]; [lia|].
        destruct (Htn _ Hin) as [H1 _]. lia. }
      apply NoDup_cons. split; [|exact Ht].
      intros Hin. destruct (Htn _ Hin) as [H1 _]. lia.
  - apply Forall_forall. intros x Hin.
    apply elem_of_app in Hin as [Hin|Hin]; [specialize (Hblt _ Hin); cbn in *; lia|].
    apply elem_of_cons in Hin as [->|Hin]; [lia|].
    apply elem_of_app in Hin as [Hin|Hin]; [apply elem_of_seq in Hin; lia|].
    apply elem_of_cons in Hin as [->|Hin]; [lia|].
    destruct (Htn _ Hin) as [H1 _]. lia.
Qed.

Lemma configure_invariant origConfigure node info node' :
  HostContract origConfigure ->
  uidsFresh node ->
  configure origConfigure node info = Some node' ->
  listInvariant node'.
Proof.
  intros HC Hu Hcfg.
  destruct (configure_Some_records _ _ _ _ Hcfg) as [vs Hvs].
  rewrite (configure_result origConfigure node info vs Hvs) in Hcfg.
  cbv zeta in Hcfg. injection Hcfg as <-.
  set (vs' := if bool_decide (0 < length vs) then vs else [defaultValue]).
  set (b := configureBase origConfigure node info).
  set (keep := fun w => negb (isDynamic w) && negb (isTrailingName w)).
  set (stripped := withWidgets (List.filter keep (widgets node)) node).
  assert (Hs : uidsFresh stripped) by (by apply uidsFresh_filter).
  (* the node after the host's configure *)
  assert (Hb : uidsFresh b /\ nextUid node <= nextUid b /\
               Forall (fun w => uid w ∈ map uid (widgets stripped) \/
                                nextUid node <= uid w) (widgets b)).
  { subst b. unfold configureBase. fold keep. fold stripped.
    assert (Hh : let h := match origConfigure with
                          | Some f => f stripped info
                          | None => stripped
                          end in
                 uidsFresh h /\ nextUid node <= nextUid h /\
                 Forall (fun w => uid w ∈ map uid (widgets stripped) \/
                                  nextUid node <= uid w) (widgets h)).
    { destruct origConfigure as [f|] eqn:Ef; cbv zeta.
      - split; [by apply (host_uidsFresh _ HC f)|].
        exact (host_uidsNew _ HC f eq_refl stripped info).
      - split; [exact Hs|]. split; [reflexivity|].
        apply Forall_forall. intros w Hw. left.
        apply list_elem_of_In, in_map. by apply list_elem_of_In. }
    cbv zeta in Hh.
    destruct (info_showStrengths info) as [s|]; [|exact Hh].
    destruct (String.eqb s ""); exact Hh. }
  destruct Hb as (Hub & Hle & Hnew).
  assert (Hdb : noDynamic b) by (by apply configureBase_noDynamic).
  (* the trailing widgets *)
  assert (Ht : NoDup (map uid (trailingOf node)) /\
               Forall (fun x => x < nextUid node /\ x ∉ map uid (widgets stripped))
                      (map uid (trailingOf node))).
  { destruct Hu as [Hn Hlt]. split; [by apply NoDup_filter_uid|].
    apply Forall_forall. intros x Hx.
    apply list_elem_of_In, in_map_iff in Hx as (t & <- & Ht).
    apply filter_In in Ht as [Ht Hp]. split.
    - rewrite Forall_forall in Hlt. apply Hlt. by apply list_elem_of_In.
    - intros Hin. apply list_elem_of_In, in_map_iff in Hin as (s & Es & Hs').
      cbn [stripped withWidgets widgets] in Hs'.
      apply filter_In in Hs' as [Hs' Hk].
      assert (s = t).
      { apply (NoDup_uid_inj (widgets node)); auto; by apply list_elem_of_In. }
      subst s. unfold keep in Hk.
      apply andb_true_iff in Hp as [_ Hp]. apply andb_true_iff in Hk as [_ Hk].
      rewrite Hp in Hk. discriminate. }
  destruct Ht as [Htn Htf].
  destruct (restored_uids (map uid (widgets b)) (map uid (trailingOf node))
              (map uid (widgets stripped)) (nextUid b) (nextUid node) (length vs'))
    as [N1 N2]; auto.
  { apply Hub. }
  { destruct Hub as [_ H]. by apply Forall_map. }
  { by apply Forall_map. }
  split.
  - split; cbn [widgets nextUid].
    + rewrite map_app. cbn [map]. rewrite map_app. cbn [map].
      by rewrite uid_slotWidgetsFrom.
    + apply (proj1 (Forall_map uid (fun x => x < S (S (nextUid b) + length vs')) _)).
      rewrite map_app. cbn [map]. rewrite map_app. cbn [map].
      by rewrite uid_slotWidgetsFrom.
  - exists (widgets b ++ [toggleAllWidgetAt (nextUid b)]),
           (slotWidgetsFrom (S (nextUid b)) 0 vs'),
           (addLoraButtonAt (S (nextUid b) + length vs')),
           (trailingOf node).
    cbn [widgets].
    split; [by rewrite <- app_assoc|].
    split.
    { apply Forall_app. split; [|by repeat constructor].
      eapply Forall_impl; [exact Hdb|]. intros w Hw. unfold isDynamic in Hw.
      apply orb_false_iff in Hw as [Hw Ha]. apply orb_false_iff in Hw as [Hw _].
      by split. }
    split; [apply flags_slotWidgetsFrom|].
    split.
    { rewrite name_slotWidgetsFrom. f_equal. f_equal.
      rewrite <- (length_map uid), uid_slotWidgetsFrom. by rewrite length_seq. }
    split; [reflexivity|]. split; [reflexivity|].
    eapply Forall_impl; [apply trailingOf_noDynamic|].
    intros w Hw. unfold isDynamic in Hw.
    apply orb_false_iff in Hw as [Hw _]. by apply orb_false_iff in Hw as [Hw _].
Qed.

Lemma reachable_invariant origConfigure node :
  HostContract origConfigure ->
  reachable origConfigure node -> listInvariant node.
Proof.
  intros HC H. induction H as [connected host Hd Hu|node info node' _ IH Hc|node op _ IH].
  - by apply onNodeCreated_invariant.
  - eapply configure_invariant; [exact HC|apply IH|exact Hc].
  - by apply runOp_invariant.
Qed.

Lemma fold_runOp_reachable origConfigure ops :
  forall start,
    reachable origConfigure start ->
    reachable origConfigure (fold_left runOp ops start).
Proof.
  induction ops as [|op ops IH]; intros start H; [exact H|].
  cbn [fold_left]. apply IH. by apply reach_op.
Qed.

(** C7: after any finite sequence of Add, Remove, MoveUp and MoveDown on a
    created or restored node, the slot widgets are exactly the widgets that
    [getLoraWidgets] finds, and their names are [lora_1], ..., [lora_N] in
    display order, without a gap and without a repetition. *)
Theorem renumbering_invariant origConfigure start ops :
  HostContract origConfigure ->
  reachable origConfigure start ->
  let node := fold_left runOp ops start in
  let slots := List.filter _isLoraSlot (widgets node) in
  getLoraWidgets node = slots /\
  map name slots = map loraName (seq 1 (length slots)) /\
  NoDup (map name slots).
Proof.
  intros HC Hstart node slots.
  assert (Hr : reachable origConfigure node) by (by apply fold_runOp_reachable).
  destruct (reachable_invariant _ _ HC Hr)
    as [_ (pre & ss & btn & post & E & Hpre & Hslots & Hnames & Hb1 & Hb2 & Hpost)].
  pose proof (named_slots_isLoraW _ _ Hslots Hnames) as Hs.
  assert (Es : slots = ss).
  { subst slots. rewrite E.
    by apply (inPlace_slotFlagged pre ss post btn Hpre Hs (conj Hb1 Hb2) Hpost). }
  rewrite Es. split; [|split].
  - unfold getLoraWidgets. rewrite E.
    by apply (inPlace_getLoraWidgets pre ss post btn Hpre Hs (conj Hb1 Hb2) Hpost).
  - exact Hnames.
  - rewrite Hnames. apply NoDup_map_loraName, NoDup_seq.
Qed.

(** A fresh node; two slots added, the second moved up, the first removed,
    one more added, the first moved down. *)
Lemma renumbering_invariant_witness :
  let start := onNodeCreated false (mkNode [] None 0) in
  let ops := [Add "123:foo"; Add "None"; MoveUp 1; Remove 0; Add "7@2:bar"; MoveDown 0] in
  let node := fold_left runOp ops start in
  (HostContract None /\ reachable None start) /\
  getLoraWidgets node = List.filter _isLoraSlot (widgets node) /\
  map name (List.filter _isLoraSlot (widgets node)) = ["lora_1"; "lora_2"; "lora_3"] /\
  NoDup (map name (List.filter _isLoraSlot (widgets node))).
Proof.
  cbv zeta.
  assert (Hs : reachable None (onNodeCreated false (mkNode [] None 0))).
  { apply reach_created; [constructor|]. split; constructor. }
  split; [split; [exact HostContract_None|exact Hs]|].
  pose proof (renumbering_invariant None (onNodeCreated false (mkNode [] None 0))
                [Add "123:foo"; Add "None"; MoveUp 1; Remove 0; Add "7@2:bar"; MoveDown 0]
                HostContract_None Hs) as H.
  cbv zeta in H. destruct H as (H1 & H2 & H3).
  split; [exact H1|]. split; [|exact H3].
  rewrite H2. reflexivity.
Defined.

(** * Further properties *)

(** ** Layout *)

Ltac layout_props :=
  repeat match goal with
         | H : inZone _ _ = true |- _ => apply inZone_true in H; destruct H
         | H : inZone _ _ = false |- _ => clear H
         end;
  cbn [loraZones toggle name_zone arrowLeft strengthNum arrowRight arrowLeft2
       strengthNum2 arrowRight2 zx zw] in *;
  unfold minWidth, MARGIN, SWITCH_PAD, SWITCH_W, ARROW_W, STRENGTH_NUM_W in *.

Ltac count_zones x :=
  repeat match goal with
         | |- context [inZone ?z x] =>
             let E := fresh "E" in destruct (inZone z x) eqn:E
         end;
  cbn [length]; try lia; exfalso; layout_props; lra.

(** X1: the zones of a slot row.  The toggle zone and the start of the name
    zone do not depend on the width or the mode; the strength zones never
    overlap, whatever the width; from the width at which the name zone is
    not negative (132 in single mode, 198 in dual mode) no two zones of the
    row overlap; the last strength zone ends at the right margin. *)
Theorem zones_do_not_overlap (width : Q) (dual : bool) (x : Q) :
  let z := loraZones width dual in
  toggle z = mkZone 15 34 /\ zx (name_zone z) = 49%Q /\
  length (List.filter (fun zn => inZone zn x) (strengthZones z)) <= 1 /\
  ((minWidth dual <= width)%Q ->
   (0 <= zw (name_zone z))%Q /\
   length (List.filter (fun zn => inZone zn x)
             (toggle z :: name_zone z :: strengthZones z)) <= 1) /\
  (forall zn, last (strengthZones z) = Some zn ->
              (zx zn + zw zn == width - 15)%Q).
Proof.
  intros z. subst z.
  split; [by destruct dual|]. split; [by destruct dual|].
  split; [|split].
  - destruct dual; cbn [strengthZones loraZones arrowLeft strengthNum arrowRight
                        arrowLeft2 strengthNum2 arrowRight2 app List.filter];
      count_zones x.
  - intros Hw. split.
    + destruct dual; layout_props; cbn; lra.
    + destruct dual; cbn [strengthZones loraZones toggle name_zone arrowLeft
                          strengthNum arrowRight arrowLeft2 strengthNum2
                          arrowRight2 app List.filter];
        count_zones x.
  - intros zn. destruct dual; cbn; intros [= <-]; cbn;
      unfold MARGIN, ARROW_W, STRENGTH_NUM_W; lra.
Qed.

(** ** Pointer events on a slot widget *)

Lemma setKey_lora k x v : lora (setKey k x v) = lora v.
Proof. by destruct k. Qed.

Lemma setKey_on k x v : on (setKey k x v) = on v.
Proof. by destruct k. Qed.

Lemma mouseClick_lora_on dual z now x w :
  let r := mouseClick dual z now x w in
  lora (value (widgetAfter r)) = lora (value w) /\
  (on (value (widgetAfter r)) <> on (value w) ->
   (x < zx (toggle z) + zw (toggle z))%Q).
Proof.
  unfold mouseClick.
  destruct (Qltb x (zx (toggle z) + zw (toggle z))) eqn:Et.
  { apply Qltb_true in Et. by split. }
  repeat match goal with
         | |- context [if ?c then _ else _] => destruct c
         | |- context [match ?o with Some _ => _ | None => _ end] => destruct o
         end;
    cbn [widgetAfter withValue withClick withClick2 value];
    rewrite ?setKey_lora, ?setKey_on; split; congruence.
Qed.

(** X2: [w.mouse] never changes the selection of the slot, and it changes
    [on] only on a release left of the name zone that does not end a
    drag. *)
Theorem mouse_keeps_selection width dual now event pos (w : SlotWidget) :
  let r := mouse width dual now event pos w in
  lora (value (widgetAfter r)) = lora (value w) /\
  (on (value (widgetAfter r)) <> on (value w) ->
   isUpType (type event) = true /\ wasDragged w = false /\ (fst pos < 49)%Q).
Proof.
  unfold mouse.
  destruct (isDown (type event)) eqn:Ed; [cbn; split; congruence|].
  destruct (isMove (type event)) eqn:Em.
  { destruct (_dragState w) as [d|]; [|cbn; split; congruence].
    destruct (Qltb 2 (Qabs (eventX event - startX d)));
      cbn [widgetAfter value]; rewrite ?setKey_lora, ?setKey_on; split; congruence. }
  destruct (isUpType (type event)) eqn:Eu; cbn [andb negb].
  - destruct (wasDragged w) eqn:Ew; [cbn; split; congruence|].
    assert (Edb : isDblClickType (type event) = false) by (by destruct (type event)).
    rewrite Edb.
    pose proof (mouseClick_lora_on dual (loraZones width dual) now (fst pos)
                  (withDrag None w)) as [H1 H2].
    cbv zeta in H1, H2. split; [exact H1|].
    intros Hon. repeat split. specialize (H2 Hon).
    by destruct dual.
  - destruct (isDblClickType (type event)); cbn [negb].
    + repeat match goal with |- context [if ?c then _ else _] => destruct c end;
        cbn; split; congruence.
    + cbn; split; congruence.
Qed.

(** X3: events other than a move and a release leave the value and the
    click times alone.  A press is always handled; an event of another type
    than press, move, release and dblclick is not handled and ends the
    drag session, so that a later move does nothing. *)
Theorem mouse_ignores_other_events width dual now event pos (w : SlotWidget) :
  isMove (type event) = false ->
  isUpType (type event) = false ->
  let r := mouse width dual now event pos w in
  value (widgetAfter r) = value w /\
  _lastStrengthClick (widgetAfter r) = _lastStrengthClick w /\
  _lastStrengthClick2 (widgetAfter r) = _lastStrengthClick2 w /\
  (isDown (type event) = true -> handled r = true /\ request r = NoRequest) /\
  (forall t, type event = otherEvent t ->
     r = mkMouseResult (withDrag None w) false NoRequest /\
     forall now' move pos',
       isMove (type move) = true ->
       mouse width dual now' move pos' (widgetAfter r) =
       mkMouseResult (widgetAfter r) false NoRequest).
Proof.
  intros Em Eu. unfold mouse. rewrite Em, Eu. cbn [andb negb].
  destruct (isDown (type event)) eqn:Ed.
  { cbn. split; [reflexivity|]. split; [reflexivity|]. split; [reflexivity|].
    split; [by intros|]. intros t Ht. rewrite Ht in Ed. discriminate. }
  destruct (isDblClickType (type event)) eqn:Edb.
  - assert (Hno : forall t, type event <> otherEvent t).
    { intros t Ht. rewrite Ht in Edb. discriminate. }
    repeat match goal with |- context [if ?c then _ else _] => destruct c end;
      cbn; (split; [reflexivity|]); (split; [reflexivity|]);
      (split; [reflexivity|]); (split; [discriminate|]);
      intros t Ht; by destruct (Hno t).
  - cbn. split; [reflexivity|]. split; [reflexivity|]. split; [reflexivity|].
    split; [discriminate|]. intros t Ht. split; [reflexivity|].
    intros now' move pos' Hm. rewrite (isMove_not_down _ Hm), Hm. reflexivity.
Qed.

Lemma mouse_ignores_other_events_witness :
  let w := mkSlotWidget (mkLoraValue true "123:foo" 0.5 None) 0 0
             (Some (mkDragState KStrength 250 0.5 false)) in
  let leave := mkEvent (otherEvent "pointerleave") None 0 in
  (isMove (type leave) = false /\ isUpType (type leave) = false) /\
  mouse 300 false 1700000000000 leave (250%Q, 10%Q) w =
  mkMouseResult (withDrag None w) false NoRequest.
Proof.
  cbv zeta. split; [by split|].
  exact (proj1 (proj2 (proj2 (proj2 (proj2
           (mouse_ignores_other_events 300 false 1700000000000
              (mkEvent (otherEvent "pointerleave") None 0) (250%Q, 10%Q)
              (mkSlotWidget (mkLoraValue true "123:foo" 0.5 None) 0 0
                 (Some (mkDragState KStrength 250 0.5 false)))
              eq_refl eq_refl)))) "pointerleave" eq_refl)).
Defined.

Lemma setOn_involutive v : setOn (negb (negb (on v))) v = v.
Proof. destruct v as [o l s s2]. cbn. by rewrite negb_involutive. Qed.

(** X4: a release left of the name zone (x < 49) that does not end a drag
    flips [on] and keeps the selection and both strengths, wherever the
    strength zones are; a second such release brings the value back. *)
Theorem toggle_click_flips width dual now now' up up' pos pos' (w : SlotWidget) :
  isUpType (type up) = true -> isUpType (type up') = true ->
  wasDragged w = false ->
  (fst pos < 49)%Q -> (fst pos' < 49)%Q ->
  let r := mouse width dual now up pos w in
  let r' := mouse width dual now' up' pos' (widgetAfter r) in
  value (widgetAfter r) = setOn (negb (on (value w))) (value w) /\
  handled r = true /\ request r = NoRequest /\
  value (widgetAfter r') = value w.
Proof.
  intros Hu Hu' Hd Hx Hx'.
  assert (T : forall x, (x < 49)%Q ->
            Qltb x (zx (toggle (loraZones width dual)) +
                    zw (toggle (loraZones width dual))) = true).
  { intros x H. apply Qltb_true.
    destruct dual; cbn [loraZones toggle zx zw];
      unfold MARGIN, SWITCH_PAD, SWITCH_W; lra. }
  assert (M : forall n e p w0,
            isUpType (type e) = true -> wasDragged w0 = false -> (fst p < 49)%Q ->
            mouse width dual n e p w0 =
            mkMouseResult
              (withValue (setOn (negb (on (value w0))) (value w0)) (withDrag None w0))
              true NoRequest).
  { intros n e p w0 He Hw Hp. rewrite (mouse_release_click _ _ _ _ _ _ He Hw).
    unfold mouseClick. by rewrite (T _ Hp). }
  cbv zeta. rewrite (M now up pos w Hu Hd Hx). cbn [widgetAfter handled request].
  split; [reflexivity|]. split; [reflexivity|]. split; [reflexivity|].
  rewrite M; [|exact Hu'|reflexivity|exact Hx'].
  cbn [widgetAfter withValue withDrag value on]. unfold setOn at 1. cbn.
  destruct (value w) as [o l s s2]. cbn. by rewrite negb_involutive.
Qed.

Lemma toggle_click_flips_witness :
  let w := mkSlotWidget (mkLoraValue true "123:foo" 0.5 (Some 0.7%Q)) 0 0 None in
  let r := mouse 100 true 1700000000000 (releaseAt 40) (40%Q, 10%Q) w in
  (isUpType (type (releaseAt 40)) = true /\ wasDragged w = false /\ (40 < 49)%Q) /\
  inZone (strengthNum (loraZones 100 true)) 40 = false /\
  numberZoneAt 100 true 40 = Some KStrengthTwo /\
  value (widgetAfter r) = mkLoraValue false "123:foo" 0.5 (Some 0.7%Q).
Proof.
  cbv zeta.
  assert (H : (40 < 49)%Q) by (vm_compute; reflexivity).
  split; [by repeat split|]. split; [reflexivity|]. split; [reflexivity|].
  exact (proj1 (toggle_click_flips 100 true 1700000000000 1700000000900
                  (releaseAt 40) (releaseAt 40) (40%Q, 10%Q) (40%Q, 10%Q)
                  (mkSlotWidget (mkLoraValue true "123:foo" 0.5 (Some 0.7%Q)) 0 0 None)
                  eq_refl eq_refl eq_refl H H)).
Defined.

(** ** Arrow clicks *)





(** ** The two double-click paths *)

Lemma mouse_release_number width dual now up pos (w : SlotWidget) k :
  isUpType (type up) = true -> wasDragged w = false ->
  numberZoneAt width dual (fst pos) = Some k ->
  pastToggle width dual (fst pos) ->
  mouse width dual now up pos w =
  if (now - lastClick k w <? 500)%Z
  then mkMouseResult (withLastClick k 0 (withDrag None w)) true (ShowStrengthInput k)
  else mkMouseResult (withLastClick k now (withDrag None w)) true NoRequest.
Proof.
  intros Hu Hd Hz Ht. rewrite (mouse_release_click _ _ _ _ _ _ Hu Hd).
  rewrite (mouseClick_number width dual now (fst pos) _ k Hz)
    by (by apply Qltb_false).
  by destruct k.
Qed.

(** X6: the double-click detector of a number zone.  After a release that
    armed it at time [t1], a release on the same zone at [t2] asks for the
    overlay of that column exactly when [t2 - t1 < 500], resets the
    detector and leaves the value alone; a release 500 ms or more later
    only arms it again.  A [dblclick] event on the zone asks for the same
    overlay on its own, so a host that sends both releases and then
    [dblclick] gets two requests. *)
Theorem double_click_paths width dual t1 t2 t3 up1 up2 dbl pos (w : SlotWidget) k :
  isUpType (type up1) = true -> isUpType (type up2) = true ->
  type dbl = dblclick ->
  wasDragged w = false ->
  numberZoneAt width dual (fst pos) = Some k ->
  pastToggle width dual (fst pos) ->
  (500 <= t1 - lastClick k w)%Z ->
  let r1 := mouse width dual t1 up1 pos w in
  let r2 := mouse width dual t2 up2 pos (widgetAfter r1) in
  let r3 := mouse width dual t3 dbl pos (widgetAfter r2) in
  request r1 = NoRequest /\ lastClick k (widgetAfter r1) = t1 /\
  value (widgetAfter r2) = value w /\
  ((t2 - t1 < 500)%Z ->
   request r2 = ShowStrengthInput k /\ lastClick k (widgetAfter r2) = 0%Z) /\
  ((500 <= t2 - t1)%Z ->
   request r2 = NoRequest /\ lastClick k (widgetAfter r2) = t2) /\
  request r3 = ShowStrengthInput k /\ handled r3 = true /\
  value (widgetAfter r3) = value w /\
  lastClick k (widgetAfter r3) = lastClick k (widgetAfter r2).
Proof.
  intros Hu1 Hu2 Hdb Hd Hz Ht H1 r1 r2 r3.
  assert (E1 : r1 = mkMouseResult (withLastClick k t1 (withDrag None w)) true NoRequest).
  { subst r1. rewrite (mouse_release_number _ _ _ _ _ _ k Hu1 Hd Hz Ht).
    destruct (t1 - lastClick k w <? 500)%Z eqn:E; [apply Z.ltb_lt in E; lia|done]. }
  assert (L1 : lastClick k (widgetAfter r1) = t1) by (rewrite E1; by destruct k).
  assert (E2 : r2 =
               if (t2 - t1 <? 500)%Z
               then mkMouseResult (withLastClick k 0 (withDrag None (widgetAfter r1)))
                      true (ShowStrengthInput k)
               else mkMouseResult (withLastClick k t2 (withDrag None (widgetAfter r1)))
                      true NoRequest).
  { subst r2. rewrite (mouse_release_number _ _ _ _ _ _ k Hu2); auto.
    - by rewrite L1.
    - rewrite E1. by destruct k. }
  assert (V2 : value (widgetAfter r2) = value w).
  { rewrite E2, E1. destruct (t2 - t1 <? 500)%Z; by destruct k. }
  assert (E3 : r3 = mkMouseResult (withDrag None (widgetAfter r2)) true
                      (ShowStrengthInput k)).
  { subst r3. unfold mouse. rewrite Hdb. cbn [isDown isMove isUpType isDblClickType
                                               andb negb].
    unfold numberZoneAt in Hz.
    destruct (inZone (strengthNum (loraZones width dual)) (fst pos)).
    - by injection Hz as <-.
    - destruct (inZone2 dual (strengthNum2 (loraZones width dual)) (fst pos));
        [|discriminate].
      by injection Hz as <-. }
  split; [by rewrite E1|]. split; [exact L1|]. split; [exact V2|].
  split; [|split].
  - intros Hlt. apply Z.ltb_lt in Hlt. rewrite E2, Hlt. by destruct k.
  - intros Hge. apply Z.ltb_ge in Hge. rewrite E2, Hge. by destruct k.
  - rewrite E3. cbn [request handled widgetAfter].
    split; [reflexivity|]. split; [reflexivity|]. split; [exact V2|]. by destruct k.
Qed.

Lemma double_click_paths_witness :
  let w := mkSlotWidget (mkLoraValue true "None" 1.0 None) 0 0 None in
  let pos := (250%Q, 10%Q) in
  let r1 := mouse 300 false 1700000000000 (releaseAt 250) pos w in
  let r2 := mouse 300 false 1700000000200 (releaseAt 250) pos (widgetAfter r1) in
  let r3 := mouse 300 false 1700000000210 (mkEvent dblclick (Some 250%Q) 250) pos
              (widgetAfter r2) in
  (numberZoneAt 300 false 250 = Some KStrength /\ pastToggle 300 false 250) /\
  request r1 = NoRequest /\
  request r2 = ShowStrengthInput KStrength /\
  request r3 = ShowStrengthInput KStrength.
Proof.
  cbv zeta.
  assert (T : pastToggle 300 false (fst (250%Q, 10%Q)))
    by (unfold pastToggle; vm_compute; discriminate).
  split; [by split|].
  pose proof (double_click_paths 300 false 1700000000000 1700000000200 1700000000210
                (releaseAt 250) (releaseAt 250) (mkEvent dblclick (Some 250%Q) 250)
                (250%Q, 10%Q)
                (mkSlotWidget (mkLoraValue true "None" 1.0 None) 0 0 None) KStrength
                eq_refl eq_refl eq_refl eq_refl eq_refl T) as H.
  cbv zeta in H.
  destruct H as (H1 & _ & _ & H2 & _ & H3 & _); [vm_compute; discriminate|].
  split; [exact H1|]. split; [|exact H3].
  apply H2. reflexivity.
Defined.

(** ** The overlay *)

(** X7: a commit of the overlay.  A text that is not a number changes
    nothing; a number inside [-20, 20] is stored as it is, not rounded to
    two decimals; the commit writes only its own column and keeps the
    selection, [on], the click times and the drag state; committing the
    same input twice (Enter, then the blur of the removed field) is the
    same as committing it once. *)
Theorem overlay_commit k p (w : SlotWidget) :
  apply k PNaN w = w /\
  apply k p (apply k p w) = apply k p w /\
  (forall q, inRange q -> (readKey k (value (apply k (PNumber q) w)) == q)%Q) /\
  on (value (apply k p w)) = on (value w) /\
  lora (value (apply k p w)) = lora (value w) /\
  (k = KStrengthTwo -> strength (value (apply k p w)) = strength (value w)) /\
  (k = KStrength -> strengthTwo (value (apply k p w)) = strengthTwo (value w)) /\
  _dragState (apply k p w) = _dragState w /\
  lastClick k (apply k p w) = lastClick k w.
Proof.
  split; [reflexivity|]. split.
  { destruct p; cbn [apply withValue value]; [reflexivity| |];
      unfold withValue; cbn; by rewrite setKey_setKey. }
  split.
  { intros q [Hlo Hhi].
    assert (E : readKey k (value (apply k (PNumber q) w)) = clamp20 q)
      by (by destruct k).
    rewrite E. unfold clamp20. rewrite (Q.min_r 20 q) by exact Hhi.
    by apply Q.max_r. }
  destruct p, k; cbn; repeat split; congruence.
Qed.

(** ** Dragging *)

(** X8: the scale and the dead zone of a drag.  After a press on a number
    zone whose strength [s] has at most two decimals, a move of a whole
    number [n] of pixels, more than 2 either way, sets the strength to
    [s + n / 100] when that is inside [-20, 20], and to the bound it
    passes otherwise.  A later move that comes back within 2 pixels of the
    press changes nothing: the strength stays where the last move beyond
    the threshold put it, not at [s]. *)
Theorem drag_scale width dual now down pos (w : SlotWidget) k (m m' : Delivery) (n : Z) :
  isDown (type down) = true ->
  numberZoneAt width dual (fst pos) = Some k ->
  isMoveDelivery m -> isMoveDelivery m' ->
  (eventX (deliveredEvent m) - eventX down == inject_Z n)%Q ->
  (2 < Z.abs n)%Z ->
  withinThreshold (eventX down) m' ->
  onGrid (readKey k (value w)) ->
  let s := readKey k (value w) in
  let w1 := widgetAfter (mouse width dual now down pos w) in
  let w2 := widgetAfter (deliver width dual w1 m) in
  let w3 := widgetAfter (deliver width dual w2 m') in
  (inRange (s + inject_Z n / 100) ->
   (readKey k (value w2) == s + inject_Z n / 100)%Q) /\
  ((20 <= s + inject_Z n / 100)%Q -> (readKey k (value w2) == 20)%Q) /\
  ((s + inject_Z n / 100 <= -20)%Q -> (readKey k (value w2) == -20)%Q) /\
  w3 = w2.
Proof.
  intros Hd Hz Hm Hm' Hdx Hn Hin Hg s w1 w2 w3.
  assert (E1 : w1 = withDrag (Some (mkDragState k (eventX down) s false)) w).
  { subst w1. by rewrite (mouse_press _ _ _ _ _ _ k Hd Hz). }
  assert (Ho : overThresholdb (eventX down) m = true).
  { apply overThresholdb_true. unfold overThreshold. rewrite Hdx.
    apply Qabs_case; intros H0.
    - change 0%Q with (inject_Z 0) in H0. rewrite <- Zle_Qle in H0.
      change 2%Q with (inject_Z 2). rewrite <- Zlt_Qlt. lia.
    - change 0%Q with (inject_Z 0) in H0. rewrite <- Zle_Qle in H0.
      rewrite <- inject_Z_opp. change 2%Q with (inject_Z 2).
      rewrite <- Zlt_Qlt. lia. }
  assert (E2 : w2 = mkSlotWidget
                      (setKey k (round2 (clamp20 (s + (eventX (deliveredEvent m)
                                                        - eventX down) * 0.01)))
                         (value w))
                      (_lastStrengthClick w) (_lastStrengthClick2 w)
                      (Some (mkDragState k (eventX down) s true))).
  { subst w2. rewrite (mouse_move width dual w1 _ m Hm ltac:(by rewrite E1)).
    cbn [startX key startVal]. rewrite Ho. by rewrite E1. }
  assert (R : readKey k (value w2) =
              round2 (clamp20 (s + (eventX (deliveredEvent m) - eventX down) * 0.01))).
  { rewrite E2. by destruct k. }
  assert (A : (s + (eventX (deliveredEvent m) - eventX down) * 0.01 ==
               s + inject_Z n / 100)%Q) by (rewrite Hdx; field).
  assert (C : (round2 (clamp20 (s + (eventX (deliveredEvent m) - eventX down) * 0.01))
               == round2 (clamp20 (s + inject_Z n / 100)))%Q).
  { unfold round2, Math_round, clamp20.
    rewrite (Qfloor_comp
               (Qmax (-20) (Qmin 20 (s + (eventX (deliveredEvent m) - eventX down) * 0.01))
                * 100 + (1 # 2))
               (Qmax (-20) (Qmin 20 (s + inject_Z n / 100)) * 100 + (1 # 2)));
      [reflexivity|].
    by rewrite A. }
  rewrite R, C. split; [|split; [|split]].
  - intros [Hlo Hhi]. unfold clamp20.
    rewrite round2_grid.
    + rewrite (Q.min_r 20 _) by exact Hhi. by apply Q.max_r.
    + apply (onGrid_proper (s + inject_Z n / 100)); [|by apply onGrid_step].
      rewrite (Q.min_r 20 _) by exact Hhi. symmetry. by apply Q.max_r.
  - intros Hhi. unfold clamp20. rewrite round2_grid.
    + rewrite (Q.min_l 20 _) by exact Hhi. apply Q.max_r. lra.
    + apply (onGrid_proper 20); [|exists 2000%Z; reflexivity].
      rewrite (Q.min_l 20 _) by exact Hhi. symmetry. apply Q.max_r. lra.
  - intros Hlo. unfold clamp20. rewrite round2_grid.
    + rewrite (Q.min_r 20 _) by lra. by apply Q.max_l.
    + apply (onGrid_proper (-20)); [|exists (-2000)%Z; reflexivity].
      rewrite (Q.min_r 20 _) by lra. symmetry. by apply Q.max_l.
  - subst w3. rewrite (mouse_move width dual w2 _ m' Hm' ltac:(by rewrite E2)).
    cbn [startX].
    assert (Hno : overThresholdb (eventX down) m' = false).
    { unfold overThresholdb. apply Qltb_false. exact Hin. }
    by rewrite Hno.
Qed.

Lemma drag_scale_witness :
  let w := mkSlotWidget (mkLoraValue true "None" 1.0 None) 0 0 None in
  let down := mkEvent pointerdown (Some 250%Q) 250 in
  let m : Delivery := (1700000000100%Z, mkEvent pointermove (Some 280%Q) 280, (280%Q, 10%Q)) in
  let m' : Delivery := (1700000000200%Z, mkEvent pointermove (Some 251%Q) 251, (251%Q, 10%Q)) in
  let w1 := widgetAfter (mouse 300 false 1700000000000 down (250%Q, 10%Q) w) in
  let w2 := widgetAfter (deliver 300 false w1 m) in
  (numberZoneAt 300 false 250 = Some KStrength /\
   withinThreshold 250 m' /\ onGrid 1.0) /\
  (strength (value w2) == 1.3)%Q /\
  widgetAfter (deliver 300 false w2 m') = w2.
Proof.
  cbv zeta.
  assert (Hin : withinThreshold
                  (eventX (mkEvent pointerdown (Some 250%Q) 250))
                  (1700000000200%Z, mkEvent pointermove (Some 251%Q) 251, (251%Q, 10%Q)))
    by (unfold withinThreshold; vm_compute; discriminate).
  assert (G : onGrid 1.0) by (exists 100%Z; reflexivity).
  split; [by repeat split|].
  pose proof (drag_scale 300 false 1700000000000
                (mkEvent pointerdown (Some 250%Q) 250) (250%Q, 10%Q)
                (mkSlotWidget (mkLoraValue true "None" 1.0 None) 0 0 None) KStrength
                (1700000000100%Z, mkEvent pointermove (Some 280%Q) 280, (280%Q, 10%Q))
                (1700000000200%Z, mkEvent pointermove (Some 251%Q) 251, (251%Q, 10%Q))
                30 eq_refl eq_refl eq_refl eq_refl) as H.
  cbv zeta in H.
  destruct H as (H1 & _ & _ & H4); auto.
  - vm_compute. reflexivity.
  - reflexivity.
  - split; [|exact H4]. rewrite H1; [vm_compute; reflexivity|].
    split; vm_compute; discriminate.
Defined.

(** ** The slot list, operation by operation *)

Ltac open_invariant H :=
  destruct H as [Hu (pre & slots & btn & post & E & Hpre & Hslots & Hnames
                     & Hb1 & Hb2 & Hpost)];
  pose proof (named_slots_isLoraW _ _ Hslots Hnames) as Hs.

Lemma otherWidgets_inPlace pre slots btn post :
  Forall (fun w => _isLoraSlot w = false /\ _isAddLora w = false) pre ->
  Forall (fun w => isLoraW w = true /\ _isAddLora w = false) slots ->
  _isLoraSlot btn = false ->
  Forall (fun w => _isLoraSlot w = false) post ->
  List.filter (fun w => negb (_isLoraSlot w)) (pre ++ slots ++ btn :: post) =
  pre ++ btn :: post.
Proof.
  intros Hpre Hs Hb Hpost.
  rewrite !List.filter_app. cbn [List.filter]. rewrite Hb. cbn [negb].
  rewrite (filter_all _ pre), (filter_none _ slots), (filter_all _ post); auto.
  - eapply Forall_impl; [exact Hpost|]. cbn beta. by intros w ->.
  - eapply Forall_impl; [exact Hs|]. cbn beta. intros w [H _].
    by rewrite (isLoraW_slot _ H).
  - eapply Forall_impl; [exact Hpre|]. cbn beta. by intros w [-> _].
Qed.

Lemma renumberFrom_inPlace pre slots btn post :
  Forall (fun w => _isLoraSlot w = false /\ _isAddLora w = false) pre ->
  _isLoraSlot btn = false ->
  Forall (fun w => _isLoraSlot w = false) post ->
  renumberFrom 0 (pre ++ slots ++ btn :: post) =
  pre ++ renumberFrom 0 slots ++ btn :: post.
Proof.
  intros Hpre Hb Hpost.
  assert (Hp : Forall (fun w => _isLoraSlot w = false) pre)
    by (eapply Forall_impl; [exact Hpre|]; by intros w [H _]).
  rewrite renumberFrom_app, (renumberFrom_none pre _ Hp).
  rewrite (filter_none isLoraW pre)
    by (eapply Forall_impl; [exact Hp|]; apply not_slot_not_isLoraW).
  cbn [length]. rewrite Nat.add_0_r, renumberFrom_app.
  cbn [renumberFrom]. rewrite (not_slot_not_isLoraW btn) by exact Hb.
  by rewrite (renumberFrom_none post).
Qed.

Lemma renumberFrom_records i ws vs :
  Forall2 (fun w v => recordOf w = Some v) ws vs ->
  Forall2 (fun w v => recordOf w = Some v) (renumberFrom i ws) vs.
Proof.
  intros H. revert i. induction H as [|w v ws vs Hw _ IH]; intros i; cbn; [constructor|].
  destruct (isLoraW w); constructor; auto.
Qed.

Lemma renumberFrom_isLoraW ws :
  forall i,
    Forall (fun w => isLoraW w = true /\ _isAddLora w = false) ws ->
    Forall (fun w => isLoraW w = true /\ _isAddLora w = false) (renumberFrom i ws).
Proof.
  induction ws as [|w ws IH]; intros i H; [constructor|].
  apply Forall_cons in H as [[Hw Ha] H]. cbn [renumberFrom]. rewrite Hw.
  constructor; [|by apply IH]. split; [|exact Ha].
  unfold isLoraW. cbn [name withName _isLoraSlot].
  by rewrite loraName_prefix, (isLoraW_slot _ Hw).
Qed.

(** The widget lists that the operations make of a list in which the slot
    widgets stand together. *)
Lemma clickAddLora_widgets choice node pre slots btn post :
  widgets node = pre ++ slots ++ btn :: post ->
  Forall (fun w => _isLoraSlot w = false /\ _isAddLora w = false) pre ->
  Forall (fun w => isLoraW w = true /\ _isAddLora w = false) slots ->
  _isAddLora btn = true /\ _isLoraSlot btn = false ->
  Forall (fun w => _isLoraSlot w = false) post ->
  uidsFresh node ->
  clickAddLora choice node =
  mkNode (pre ++ (slots ++ [loraWidgetAt (nextUid node) (length slots + 1)
                              (upgradedRecord (isDualMode node) choice)])
            ++ btn :: post)
         (showStrengths node) (S (nextUid node)).
Proof.
  intros E Hpre Hs [Hb1 Hb2] Hpost Hu.
  destruct node as [ws ss nu]. cbn [widgets] in E. subst ws.
  destruct Hu as [Hn Hlt]. cbn [widgets nextUid] in Hn, Hlt.
  unfold clickAddLora. cbn [widgets].
  rewrite (inPlace_find_button pre slots post btn Hpre Hs (conj Hb1 Hb2)).
  unfold addLoraSlot, getLoraWidgets. cbn [widgets].
  rewrite (inPlace_getLoraWidgets pre slots post btn Hpre Hs (conj Hb1 Hb2) Hpost).
  cbn [createLoraWidget pushWidget widgets nextUid showStrengths].
  fold (upgradedRecord (isDualMode (mkNode (pre ++ slots ++ btn :: post) ss nu)) choice).
  set (newW := loraWidgetAt nu (length slots + 1) _).
  rewrite (indexOf_app newW (pre ++ slots ++ btn :: post) [])
    by (by apply fresh_uid_not_in).
  assert (Ib : indexOf btn ((pre ++ slots ++ btn :: post) ++ [newW]) =
               Z.of_nat (length (pre ++ slots))).
  { replace ((pre ++ slots ++ btn :: post) ++ [newW])
      with ((pre ++ slots) ++ btn :: (post ++ [newW]))
      by (by rewrite <- !app_assoc).
    apply indexOf_app.
    replace (pre ++ slots ++ btn :: post) with ((pre ++ slots) ++ btn :: post) in Hn
      by (by rewrite <- !app_assoc).
    by eapply NoDup_uid_middle. }
  rewrite Ib.
  destruct (Z.of_nat (length (pre ++ slots)) <?
            Z.of_nat (length (pre ++ slots ++ btn :: post)))%Z eqn:El.
  2:{ apply Z.ltb_ge in El. rewrite !length_app in El. cbn in El. lia. }
  rewrite spliceDelete_app, app_nil_r.
  replace (pre ++ slots ++ btn :: post) with ((pre ++ slots) ++ btn :: post)
    by (by rewrite <- !app_assoc).
  rewrite spliceInsert_app.
  unfold withWidgets. cbn [showStrengths nextUid]. f_equal.
  by rewrite <- !app_assoc.
Qed.

Lemma removeLora_widgets j node pre slots btn post w :
  widgets node = pre ++ slots ++ btn :: post ->
  Forall (fun w => _isLoraSlot w = false /\ _isAddLora w = false) pre ->
  Forall (fun w => isLoraW w = true /\ _isAddLora w = false) slots ->
  _isAddLora btn = true /\ _isLoraSlot btn = false ->
  Forall (fun w => _isLoraSlot w = false) post ->
  uidsFresh node ->
  slots !! j = Some w ->
  removeLora j node =
  withWidgets (pre ++ renumberFrom 0 (take j slots ++ drop (S j) slots) ++ btn :: post)
    node.
Proof.
  intros E Hpre Hs [Hb1 Hb2] Hpost Hu Ej.
  unfold removeLora, getLoraWidgets.
  rewrite E, (inPlace_getLoraWidgets pre slots post btn Hpre Hs (conj Hb1 Hb2) Hpost).
  rewrite Ej.
  pose proof (take_drop_middle slots j w Ej) as Esplit.
  set (s1 := take j slots) in *. set (s2 := drop (S j) slots) in *.
  assert (E' : widgets node = (pre ++ s1) ++ w :: (s2 ++ btn :: post)).
  { rewrite E, <- Esplit, <- !app_assoc. reflexivity. }
  rewrite <- E, E'.
  rewrite indexOf_app.
  2:{ destruct Hu as [Hn _]. rewrite E' in Hn. by eapply NoDup_uid_middle. }
  destruct (0 <=? Z.of_nat (length (pre ++ s1)))%Z eqn:Ez;
    [|apply Z.leb_gt in Ez; lia].
  rewrite spliceDelete_app.
  unfold renumberLoraWidgets, withWidgets. cbn [widgets showStrengths nextUid].
  f_equal. rewrite <- !app_assoc.
  replace (pre ++ s1 ++ s2 ++ btn :: post) with (pre ++ (s1 ++ s2) ++ btn :: post)
    by (by rewrite <- !app_assoc).
  by apply renumberFrom_inPlace.
Qed.

Lemma moveLoraDown_widgets j node pre slots btn post a b :
  widgets node = pre ++ slots ++ btn :: post ->
  Forall (fun w => _isLoraSlot w = false /\ _isAddLora w = false) pre ->
  Forall (fun w => isLoraW w = true /\ _isAddLora w = false) slots ->
  _isAddLora btn = true /\ _isLoraSlot btn = false ->
  Forall (fun w => _isLoraSlot w = false) post ->
  uidsFresh node ->
  slots !! j = Some a -> slots !! S j = Some b ->
  moveLoraDown j node =
  withWidgets
    (pre ++ renumberFrom 0 (take j slots ++ b :: a :: drop (S (S j)) slots)
       ++ btn :: post)
    node.
Proof.
  intros E Hpre Hs [Hb1 Hb2] Hpost Hu Ea Eb.
  unfold moveLoraDown, getLoraWidgets.
  rewrite E, (inPlace_getLoraWidgets pre slots post btn Hpre Hs (conj Hb1 Hb2) Hpost).
  rewrite Ea, Eb.
  pose proof (split_two slots j a b Ea Eb) as Esplit.
  set (s1 := take j slots) in *. set (s2 := drop (S (S j)) slots) in *.
  assert (E' : widgets node = (pre ++ s1) ++ a :: b :: (s2 ++ btn :: post)).
  { rewrite E, Esplit, <- !app_assoc. reflexivity. }
  rewrite <- E, E'.
  rewrite (indexOf_app a).
  2:{ destruct Hu as [Hn _]. rewrite E' in Hn. by eapply NoDup_uid_middle. }
  assert (Ib : indexOf b ((pre ++ s1) ++ a :: b :: s2 ++ btn :: post) =
               Z.of_nat (S (length (pre ++ s1)))).
  { change ((pre ++ s1) ++ a :: b :: s2 ++ btn :: post)
      with ((pre ++ s1) ++ [a] ++ b :: s2 ++ btn :: post).
    rewrite app_assoc, indexOf_app.
    - rewrite length_app. cbn. f_equal. lia.
    - destruct Hu as [Hn _]. rewrite E' in Hn.
      change ((pre ++ s1) ++ a :: b :: s2 ++ btn :: post)
        with ((pre ++ s1) ++ [a] ++ b :: s2 ++ btn :: post) in Hn.
      rewrite app_assoc in Hn. by eapply NoDup_uid_middle. }
  rewrite Ib, swapAt_adjacent.
  unfold renumberLoraWidgets, withWidgets. cbn [widgets showStrengths nextUid].
  f_equal. rewrite <- !app_assoc.
  replace (pre ++ s1 ++ b :: a :: s2 ++ btn :: post)
    with (pre ++ (s1 ++ b :: a :: s2) ++ btn :: post)
    by (by rewrite <- !app_assoc).
  by apply renumberFrom_inPlace.
Qed.

Lemma slotRecords_inPlace node pre slots btn post :
  widgets node = pre ++ slots ++ btn :: post ->
  Forall (fun w => _isLoraSlot w = false /\ _isAddLora w = false) pre ->
  Forall (fun w => isLoraW w = true /\ _isAddLora w = false) slots ->
  _isAddLora btn = true /\ _isLoraSlot btn = false ->
  Forall (fun w => _isLoraSlot w = false) post ->
  slotRecords node = mapM recordOf slots.
Proof.
  intros E Hpre Hs Hb Hpost. unfold slotRecords, getLoraWidgets.
  by rewrite E, (inPlace_getLoraWidgets pre slots post btn Hpre Hs Hb Hpost).
Qed.

(** X9: Add LoRA appends one slot and touches nothing else.  On a node
    that keeps the invariant of the widget list, a choice [c] from the
    menu puts the record [{on: c !== "None", lora: c, strength: 1,
    strengthTwo: 1 in dual mode and null otherwise}] after the records
    that were there; the records of the old slots, the widgets that are
    not slots and the display mode stay as they were. *)
Theorem add_appends_slot choice node vs :
  listInvariant node ->
  slotRecords node = Some vs ->
  let node' := clickAddLora choice node in
  slotRecords node' =
    Some (vs ++ [mkLoraValue (negb (String.eqb choice "None")) choice 1.0
                   (if isDualMode node then Some 1.0%Q else None)]) /\
  otherWidgets node' = otherWidgets node /\
  showStrengths node' = showStrengths node.
Proof.
  intros Hinv Hvs node'. open_invariant Hinv.
  pose proof (clickAddLora_widgets choice node pre slots btn post E Hpre Hs
                (conj Hb1 Hb2) Hpost Hu) as Ew.
  fold node' in Ew.
  set (newW := loraWidgetAt (nextUid node) (length slots + 1)
                 (upgradedRecord (isDualMode node) choice)) in Ew.
  assert (Hs' : Forall (fun w => isLoraW w = true /\ _isAddLora w = false)
                       (slots ++ [newW])).
  { apply Forall_app. split; [exact Hs|]. constructor; [|constructor].
    split; [apply isLoraW_loraWidgetAt|reflexivity]. }
  rewrite (slotRecords_inPlace node pre slots btn post E Hpre Hs (conj Hb1 Hb2) Hpost)
    in Hvs.
  apply mapM_Some in Hvs.
  split; [|split].
  - rewrite (slotRecords_inPlace node' pre (slots ++ [newW]) btn post
               ltac:(by rewrite Ew) Hpre Hs' (conj Hb1 Hb2) Hpost).
    apply mapM_Some. apply Forall2_app; [exact Hvs|].
    constructor; [reflexivity|constructor].
  - unfold otherWidgets. rewrite Ew, E. cbn [widgets].
    by rewrite !otherWidgets_inPlace.
  - by rewrite Ew.
Qed.

Lemma add_appends_slot_witness :
  listInvariant exampleNode /\
  slotRecords exampleNode =
    Some [defaultValue; mkLoraValue true "123:foo" 1.0 None] /\
  slotRecords (clickAddLora "None" exampleNode) =
    Some ([defaultValue; mkLoraValue true "123:foo" 1.0 None] ++
          [mkLoraValue false "None" 1.0 None]).
Proof.
  assert (Hinv : listInvariant exampleNode).
  { apply clickAddLora_invariant. apply onNodeCreated_invariant.
    - constructor.
    - split; cbn; constructor. }
  split; [exact Hinv|]. split; [reflexivity|].
  exact (proj1 (add_appends_slot "None" exampleNode
                  [defaultValue; mkLoraValue true "123:foo" 1.0 None]
                  Hinv eq_refl)).
Defined.

Lemma renumbered_slots_isLoraW slots :
  Forall (fun w => isLoraW w = true /\ _isAddLora w = false) slots ->
  Forall (fun w => isLoraW w = true /\ _isAddLora w = false) (renumberFrom 0 slots).
Proof. apply renumberFrom_isLoraW. Qed.

(** X10: Remove LoRA deletes the slot under the pointer and nothing else.
    On a node that keeps the invariant of the widget list, the records of
    the other slots stay, in their order, and so do the widgets that are
    not slots and the display mode.  There is no lower bound: removing the
    only slot leaves a node without slots. *)
Theorem remove_deletes_slot j node vs :
  listInvariant node ->
  slotRecords node = Some vs ->
  j < length vs ->
  let node' := removeLora j node in
  slotRecords node' = Some (take j vs ++ drop (S j) vs) /\
  otherWidgets node' = otherWidgets node /\
  showStrengths node' = showStrengths node /\
  (length vs = 1 -> getLoraWidgets node' = []).
Proof.
  intros Hinv Hvs Hj node'. open_invariant Hinv.
  rewrite (slotRecords_inPlace node pre slots btn post E Hpre Hs (conj Hb1 Hb2) Hpost)
    in Hvs.
  apply mapM_Some in Hvs.
  pose proof (Forall2_length _ _ _ Hvs) as Hlen.
  destruct (lookup_lt_is_Some_2 slots j ltac:(lia)) as [w Ej].
  pose proof (removeLora_widgets j node pre slots btn post w E Hpre Hs
                (conj Hb1 Hb2) Hpost Hu Ej) as Ew.
  fold node' in Ew.
  assert (Hs' : Forall (fun w => isLoraW w = true /\ _isAddLora w = false)
                       (renumberFrom 0 (take j slots ++ drop (S j) slots))).
  { apply renumbered_slots_isLoraW. apply Forall_app. split.
    - by apply Forall_take.
    - by apply Forall_drop. }
  assert (Er : slotRecords node' =
               mapM recordOf (renumberFrom 0 (take j slots ++ drop (S j) slots))).
  { apply (slotRecords_inPlace node' pre _ btn post); auto. by rewrite Ew. }
  split; [|split; [|split]].
  - rewrite Er. apply mapM_Some. apply renumberFrom_records.
    apply Forall2_app; [by apply Forall2_take|by apply Forall2_drop].
  - unfold otherWidgets. rewrite Ew, E. cbn [widgets withWidgets].
    by rewrite !otherWidgets_inPlace.
  - by rewrite Ew.
  - intros H1. unfold getLoraWidgets. rewrite Ew. cbn [widgets withWidgets].
    rewrite (inPlace_getLoraWidgets pre _ post btn Hpre Hs' (conj Hb1 Hb2) Hpost).
    destruct slots as [|x [|y slots]]; cbn in Hlen; try lia.
    by destruct j; [|cbn in Hj; lia].
Qed.

Lemma remove_deletes_slot_witness :
  listInvariant exampleNode /\
  slotRecords exampleNode =
    Some [defaultValue; mkLoraValue true "123:foo" 1.0 None] /\
  slotRecords (removeLora 0 exampleNode) =
    Some [mkLoraValue true "123:foo" 1.0 None].
Proof.
  assert (Hinv : listInvariant exampleNode).
  { apply clickAddLora_invariant. apply onNodeCreated_invariant.
    - constructor.
    - split; cbn; constructor. }
  split; [exact Hinv|]. split; [reflexivity|].
  exact (proj1 (remove_deletes_slot 0 exampleNode
                  [defaultValue; mkLoraValue true "123:foo" 1.0 None]
                  Hinv eq_refl ltac:(cbn; lia))).
Defined.

(** ** Moving a slot *)

Lemma withName_withName n m w : withName n (withName m w) = withName n w.
Proof. reflexivity. Qed.

Lemma withName_name w : withName (name w) w = w.
Proof. by destruct w. Qed.

Lemma renumberFrom_names_fix slots :
  forall i,
    Forall (fun w => isLoraW w = true /\ _isAddLora w = false) slots ->
    map name slots = map loraName (seq (i + 1) (length slots)) ->
    renumberFrom i slots = slots.
Proof.
  induction slots as [|w slots IH]; intros i Hs Hn; [reflexivity|].
  apply Forall_cons in Hs as [[Hw _] Hs]. cbn [map length seq] in Hn.
  injection Hn as Hw' Hn. cbn [renumberFrom]. rewrite Hw, <- Hw', withName_name.
  f_equal. apply IH; [exact Hs|]. by replace (S i + 1) with (S (i + 1)) by lia.
Qed.

Lemma renumberFrom_renamed ws :
  forall i,
    Forall (fun w => isLoraW w = true /\ _isAddLora w = false) ws ->
    Forall2 renamed (renumberFrom i ws) ws.
Proof.
  induction ws as [|w ws IH]; intros i Hs; [constructor|].
  apply Forall_cons in Hs as [[Hw Ha] Hs]. cbn [renumberFrom]. rewrite Hw.
  constructor; [|by apply IH]. split; [|split; [exact Hw|reflexivity]].
  unfold isLoraW. cbn [name withName _isLoraSlot].
  by rewrite loraName_prefix, (isLoraW_slot _ Hw).
Qed.

Lemma renumberFrom_erase X Y :
  Forall2 renamed X Y -> forall i, renumberFrom i X = renumberFrom i Y.
Proof.
  induction 1 as [|x y X Y (Hx & Hy & Exy) _ IH]; intros i; [reflexivity|].
  cbn [renumberFrom]. rewrite Hx, Hy, IH. f_equal.
  by rewrite <- (withName_withName _ "" x), Exy.
Qed.

Lemma moveLoraDown_out_of_range j node :
  getLoraWidgets node !! j = None \/ getLoraWidgets node !! S j = None ->
  moveLoraDown j node = node.
Proof.
  intros H. unfold moveLoraDown.
  destruct (getLoraWidgets node !! j); [|reflexivity].
  destruct (getLoraWidgets node !! S j); [|reflexivity].
  by destruct H.
Qed.

(** X11: Move LoRA Down on slot [j] and Move LoRA Up on slot [j + 1] are
    the same action: the records of the two neighbours change places.  The
    other records, the widgets that are not slots and the display mode
    stay as they were. *)
Theorem move_swaps_neighbours j node vs a b :
  listInvariant node ->
  slotRecords node = Some vs ->
  vs !! j = Some a -> vs !! S j = Some b ->
  let node' := moveLoraDown j node in
  moveLoraUp (S j) node = node' /\
  slotRecords node' = Some (take j vs ++ b :: a :: drop (S (S j)) vs) /\
  otherWidgets node' = otherWidgets node /\
  showStrengths node' = showStrengths node.
Proof.
  intros Hinv Hvs Ha Hb node'. split; [reflexivity|]. open_invariant Hinv.
  rewrite (slotRecords_inPlace node pre slots btn post E Hpre Hs (conj Hb1 Hb2) Hpost)
    in Hvs.
  apply mapM_Some in Hvs.
  destruct (Forall2_lookup_r _ _ _ _ _ Hvs Ha) as (wa & Ewa & Ra).
  destruct (Forall2_lookup_r _ _ _ _ _ Hvs Hb) as (wb & Ewb & Rb).
  pose proof (moveLoraDown_widgets j node pre slots btn post wa wb E Hpre Hs
                (conj Hb1 Hb2) Hpost Hu Ewa Ewb) as Ew.
  fold node' in Ew.
  pose proof (split_two slots j wa wb Ewa Ewb) as Esplit.
  assert (Hs0 : Forall (fun w => isLoraW w = true /\ _isAddLora w = false)
                       (take j slots ++ wb :: wa :: drop (S (S j)) slots)).
  { rewrite Esplit in Hs. apply Forall_app in Hs as [Hs1 Hs2].
    apply Forall_cons in Hs2 as [Hwa Hs2]. apply Forall_cons in Hs2 as [Hwb Hs2].
    apply Forall_app. split; [exact Hs1|].
    constructor; [exact Hwb|]. constructor; [exact Hwa|exact Hs2]. }
  pose proof (renumbered_slots_isLoraW _ Hs0) as Hs'.
  split; [|split].
  - rewrite (slotRecords_inPlace node' pre _ btn post ltac:(by rewrite Ew)
               Hpre Hs' (conj Hb1 Hb2) Hpost).
    apply mapM_Some. apply renumberFrom_records.
    apply Forall2_app; [by apply Forall2_take|].
    constructor; [exact Rb|]. constructor; [exact Ra|]. by apply Forall2_drop.
  - unfold otherWidgets. rewrite Ew, E. cbn [widgets withWidgets].
    by rewrite !otherWidgets_inPlace.
  - by rewrite Ew.
Qed.

Lemma move_swaps_neighbours_witness :
  listInvariant exampleNode /\
  slotRecords exampleNode =
    Some [defaultValue; mkLoraValue true "123:foo" 1.0 None] /\
  slotRecords (moveLoraDown 0 exampleNode) =
    Some [mkLoraValue true "123:foo" 1.0 None; defaultValue].
Proof.
  assert (Hinv : listInvariant exampleNode).
  { apply clickAddLora_invariant. apply onNodeCreated_invariant.
    - constructor.
    - split; cbn; constructor. }
  split; [exact Hinv|]. split; [reflexivity|].
  exact (proj1 (proj2 (move_swaps_neighbours 0 exampleNode
                         [defaultValue; mkLoraValue true "123:foo" 1.0 None]
                         defaultValue (mkLoraValue true "123:foo" 1.0 None)
                         Hinv eq_refl eq_refl eq_refl))).
Defined.

(** X12: a move is undone by the opposite move.  On a node that keeps the
    invariant of the widget list, Move LoRA Down on slot [j] followed by
    Move LoRA Up on slot [j + 1] gives the node back as it was, widget
    names included, and so does the opposite order. *)
Theorem move_round_trip j node :
  listInvariant node ->
  moveLoraUp (S j) (moveLoraDown j node) = node /\
  moveLoraDown j (moveLoraUp (S j) node) = node.
Proof.
  intros Hinv.
  change (moveLoraUp (S j)) with (moveLoraDown j).
  assert (G : moveLoraDown j (moveLoraDown j node) = node); [|by split].
  pose proof (moveLoraDown_invariant j node Hinv) as [Hu1 _].
  open_invariant Hinv.
  assert (Eg : getLoraWidgets node = slots).
  { unfold getLoraWidgets. rewrite E.
    by apply (inPlace_getLoraWidgets pre slots post btn Hpre Hs (conj Hb1 Hb2) Hpost). }
  destruct (slots !! j) as [a|] eqn:Ea.
  2:{ rewrite !(moveLoraDown_out_of_range j node); auto; left; by rewrite Eg. }
  destruct (slots !! S j) as [b|] eqn:Eb.
  2:{ rewrite !(moveLoraDown_out_of_range j node); auto; right; by rewrite Eg. }
  pose proof (moveLoraDown_widgets j node pre slots btn post a b E Hpre Hs
                (conj Hb1 Hb2) Hpost Hu Ea Eb) as Ew.
  pose proof (split_two slots j a b Ea Eb) as Esplit.
  set (X0 := take j slots ++ b :: a :: drop (S (S j)) slots) in *.
  assert (Hj : length (take j slots) = j).
  { apply length_take_le. apply lookup_lt_Some in Ea. lia. }
  assert (Hs0 : Forall (fun w => isLoraW w = true /\ _isAddLora w = false) X0).
  { rewrite Esplit in Hs. apply Forall_app in Hs as [Hs1 Hs2].
    apply Forall_cons in Hs2 as [Hwa Hs2]. apply Forall_cons in Hs2 as [Hwb Hs2].
    apply Forall_app. split; [exact Hs1|].
    constructor; [exact Hwb|]. constructor; [exact Hwa|exact Hs2]. }
  pose proof (renumbered_slots_isLoraW _ Hs0) as Hs'.
  pose proof (renumberFrom_renamed X0 0 Hs0) as Hren.
  set (S1 := renumberFrom 0 X0) in *.
  assert (Xb : X0 !! j = Some b).
  { subst X0. by apply list_lookup_middle. }
  assert (Xa : X0 !! S j = Some a).
  { subst X0. change (take j slots ++ b :: a :: drop (S (S j)) slots)
      with (take j slots ++ [b] ++ a :: drop (S (S j)) slots).
    rewrite app_assoc. apply list_lookup_middle. rewrite length_app, Hj. cbn. lia. }
  destruct (Forall2_lookup_r _ _ _ _ _ Hren Xb) as (b' & Eb' & Rb).
  destruct (Forall2_lookup_r _ _ _ _ _ Hren Xa) as (a' & Ea' & Ra).
  rewrite Ew.
  rewrite Ew in Hu1.
  rewrite (moveLoraDown_widgets j (withWidgets (pre ++ S1 ++ btn :: post) node)
             pre S1 btn post b' a' eq_refl Hpre Hs'
             (conj Hb1 Hb2) Hpost Hu1 Eb' Ea').
  assert (Efix : renumberFrom 0 (take j S1 ++ a' :: b' :: drop (S (S j)) S1) = slots).
  { rewrite (renumberFrom_erase _ slots).
    - apply renumberFrom_names_fix; [exact Hs|exact Hnames].
    - rewrite Esplit at 1.
      apply Forall2_app.
      + replace (take j slots) with (take j X0)
          by (subst X0; by rewrite take_app_length').
        by apply Forall2_take.
      + constructor; [exact Ra|]. constructor; [exact Rb|].
        replace (drop (S (S j)) slots) with (drop (S (S j)) X0).
        * by apply Forall2_drop.
        * subst X0.
          change (take j slots ++ b :: a :: drop (S (S j)) slots)
            with (take j slots ++ [b; a] ++ drop (S (S j)) slots).
          rewrite app_assoc. apply drop_app_length'.
          rewrite length_app, Hj. cbn. lia. }
  rewrite Efix. destruct node as [ws ss nu]. cbn [widgets] in E.
  unfold withWidgets. cbn [showStrengths nextUid]. by rewrite E.
Qed.

Lemma move_round_trip_witness :
  listInvariant exampleNode /\
  moveLoraUp 1 (moveLoraDown 0 exampleNode) = exampleNode /\
  moveLoraDown 0 (moveLoraUp 1 exampleNode) = exampleNode.
Proof.
  assert (Hinv : listInvariant exampleNode).
  { apply clickAddLora_invariant. apply onNodeCreated_invariant.
    - constructor.
    - split; cbn; constructor. }
  split; [exact Hinv|].
  exact (move_round_trip 0 exampleNode Hinv).
Defined.

(** ** The toggle of the context menu *)

Lemma map_replace_none u (x : Widget) l :
  ~ In u (map uid l) ->
  map (fun w => if Nat.eqb (uid w) u then x else w) l = l.
Proof.
  induction l as [|w l IH]; intros Hn; [reflexivity|]. cbn [map].
  destruct (Nat.eqb (uid w) u) eqn:Eu.
  - apply Nat.eqb_eq in Eu. exfalso. apply Hn. cbn. by left.
  - rewrite IH; [reflexivity|]. intros Hin. apply Hn. cbn. by right.
Qed.

Lemma map_replace_uid l1 (lw x : Widget) l2 :
  NoDup (map uid (l1 ++ lw :: l2)) ->
  map (fun w => if Nat.eqb (uid w) (uid lw) then x else w) (l1 ++ lw :: l2) =
  l1 ++ x :: l2.
Proof.
  intros Hn. rewrite map_app. cbn [map]. rewrite Nat.eqb_refl.
  rewrite map_replace_none by (by eapply NoDup_uid_middle).
  rewrite map_replace_none; [reflexivity|].
  rewrite map_app in Hn. apply NoDup_app in Hn as (_ & _ & Hn). cbn [map] in Hn.
  apply NoDup_cons in Hn as [Hn _]. intros Hin. apply Hn. by apply list_elem_of_In.
Qed.

Lemma menuToggle_widgets j node pre slots btn post lw v :
  widgets node = pre ++ slots ++ btn :: post ->
  Forall (fun w => _isLoraSlot w = false /\ _isAddLora w = false) pre ->
  Forall (fun w => isLoraW w = true /\ _isAddLora w = false) slots ->
  _isAddLora btn = true /\ _isLoraSlot btn = false ->
  Forall (fun w => _isLoraSlot w = false) post ->
  NoDup (map uid (widgets node)) ->
  slots !! j = Some lw -> wvalue lw = VLora v ->
  menuToggle j node =
  Some (withWidgets
          (pre ++ (take j slots ++ withWValue (VLora (setOn (negb (on v)) v)) lw
                     :: drop (S j) slots) ++ btn :: post)
          node).
Proof.
  intros E Hpre Hs Hb Hpost Hn Ej Ev.
  unfold menuToggle, getLoraWidgets.
  rewrite E, (inPlace_getLoraWidgets pre slots post btn Hpre Hs Hb Hpost), Ej.
  unfold recordOf. rewrite Ev. cbn [valueOn mbind option_bind].
  do 2 f_equal.
  pose proof (take_drop_middle slots j lw Ej) as Esplit.
  rewrite E in Hn.
  rewrite <- Esplit at 1. rewrite <- Esplit in Hn at 1.
  replace (pre ++ (take j slots ++ lw :: drop (S j) slots) ++ btn :: post)
    with ((pre ++ take j slots) ++ lw :: (drop (S j) slots ++ btn :: post))
    by (by rewrite <- !app_assoc).
  replace (pre ++ (take j slots ++ lw :: drop (S j) slots) ++ btn :: post)
    with ((pre ++ take j slots) ++ lw :: (drop (S j) slots ++ btn :: post)) in Hn
    by (by rewrite <- !app_assoc).
  rewrite (map_replace_uid _ _ _ _ Hn). by rewrite <- !app_assoc.
Qed.

(** X13: Disable LoRA / Enable LoRA of the context menu flips [on] of the
    slot under the pointer and nothing else: the other fields of that
    record, the other records, every widget's name and the widgets that
    are not slots stay as they were, and the same entry picked again gives
    the node back. *)
Theorem menu_toggle_one_slot j node vs v :
  listInvariant node ->
  slotRecords node = Some vs ->
  vs !! j = Some v ->
  exists node',
    menuToggle j node = Some node' /\
    slotRecords node' = Some (<[j := setOn (negb (on v)) v]> vs) /\
    otherWidgets node' = otherWidgets node /\
    map name (widgets node') = map name (widgets node) /\
    menuToggle j node' = Some node.
Proof.
  intros Hinv Hvs Hv. open_invariant Hinv.
  rewrite (slotRecords_inPlace node pre slots btn post E Hpre Hs (conj Hb1 Hb2) Hpost)
    in Hvs.
  apply mapM_Some in Hvs.
  destruct (Forall2_lookup_r _ _ _ _ _ Hvs Hv) as (lw & Ej & Rv).
  assert (Ev : wvalue lw = VLora v).
  { unfold recordOf in Rv. destruct (wvalue lw); congruence. }
  pose proof (take_drop_middle slots j lw Ej) as Esplit.
  assert (Hj : length (take j slots) = j).
  { apply length_take_le. apply lookup_lt_Some in Ej. lia. }
  set (lw' := withWValue (VLora (setOn (negb (on v)) v)) lw).
  set (slots' := take j slots ++ lw' :: drop (S j) slots).
  assert (Hs' : Forall (fun w => isLoraW w = true /\ _isAddLora w = false) slots').
  { rewrite <- Esplit in Hs. apply Forall_app in Hs as [Hs1 Hs2].
    apply Forall_cons in Hs2 as [Hw Hs2].
    apply Forall_app. split; [exact Hs1|]. constructor; [exact Hw|exact Hs2]. }
  pose proof (menuToggle_widgets j node pre slots btn post lw v E Hpre Hs
                (conj Hb1 Hb2) Hpost (proj1 Hu) Ej Ev) as Ew.
  fold lw' in Ew. fold slots' in Ew.
  exists (withWidgets (pre ++ slots' ++ btn :: post) node).
  split; [exact Ew|]. split; [|split; [|split]].
  - rewrite (slotRecords_inPlace (withWidgets (pre ++ slots' ++ btn :: post) node)
               pre slots' btn post eq_refl Hpre Hs' (conj Hb1 Hb2) Hpost).
    apply mapM_Some. subst slots'.
    rewrite insert_take_drop by (apply lookup_lt_Some in Hv; lia).
    apply Forall2_app; [by apply Forall2_take|].
    constructor; [reflexivity|by apply Forall2_drop].
  - unfold otherWidgets. rewrite E. cbn [widgets withWidgets].
    by rewrite !otherWidgets_inPlace.
  - cbn [widgets withWidgets]. rewrite E. subst slots'.
    rewrite <- Esplit at 3. by rewrite !map_app.
  - assert (Ej' : slots' !! j = Some lw').
    { subst slots'. by apply list_lookup_middle. }
    assert (Hn' : NoDup (map uid (widgets (withWidgets (pre ++ slots' ++ btn :: post) node)))).
    { cbn [widgets withWidgets]. destruct Hu as [Hn _]. rewrite E in Hn.
      subst slots'. rewrite <- Esplit in Hn at 1.
      by rewrite !map_app in *. }
    rewrite (menuToggle_widgets j (withWidgets (pre ++ slots' ++ btn :: post) node)
               pre slots' btn post lw'
               (setOn (negb (on v)) v) eq_refl Hpre Hs' (conj Hb1 Hb2) Hpost Hn' Ej'
               eq_refl).
    f_equal. destruct node as [ws ss nu]. cbn [widgets] in E.
    unfold withWidgets. cbn [showStrengths nextUid widgets]. f_equal.
    rewrite E. do 2 f_equal. subst slots'.
    rewrite take_app_length' by (symmetry; exact Hj).
    replace (drop (S j) (take j slots ++ lw' :: drop (S j) slots))
      with (drop (S j) slots).
    2:{ change (take j slots ++ lw' :: drop (S j) slots)
          with (take j slots ++ [lw'] ++ drop (S j) slots).
        rewrite app_assoc. symmetry. apply drop_app_length'.
        rewrite length_app, Hj. cbn. lia. }
    rewrite <- Esplit at 3. do 2 f_equal.
    subst lw'. destruct lw as [u n t wv s f1 f2 f3]. cbn [wvalue] in Ev. subst wv.
    unfold withWValue. cbn. f_equal. f_equal. destruct v as [o l s1 s2]. cbn.
    by rewrite negb_involutive.
Qed.

Lemma menu_toggle_one_slot_witness :
  listInvariant exampleNode /\
  slotRecords exampleNode =
    Some [defaultValue; mkLoraValue true "123:foo" 1.0 None] /\
  exists node',
    menuToggle 1 exampleNode = Some node' /\
    slotRecords node' =
      Some [defaultValue; mkLoraValue false "123:foo" 1.0 None] /\
    menuToggle 1 node' = Some exampleNode.
Proof.
  assert (Hinv : listInvariant exampleNode).
  { apply clickAddLora_invariant. apply onNodeCreated_invariant.
    - constructor.
    - split; cbn; constructor. }
  split; [exact Hinv|]. split; [reflexivity|].
  destruct (menu_toggle_one_slot 1 exampleNode
              [defaultValue; mkLoraValue true "123:foo" 1.0 None]
              (mkLoraValue true "123:foo" 1.0 None) Hinv eq_refl eq_refl)
    as (node' & H1 & H2 & _ & _ & H5).
  exists node'. split; [exact H1|]. split; [exact H2|exact H5].
Defined.

(** ** The toggle-all switch after a click *)

Lemma forallb_on_setOn_true l : forallb on (map (setOn true) l) = true.
Proof. induction l; cbn; auto. Qed.

Lemma existsb_on_setOn_false l : existsb on (map (setOn false) l) = false.
Proof. induction l; cbn; auto. Qed.

(** X14: a click on the toggle-all switch never leaves it partial.  After
    a release on it the switch is painted off when there is no slot or
    every slot was on, and on otherwise (from every partial state); the
    widgets that [getLoraWidgets] does not return, every widget's name and
    the display mode stay as they were. *)
Theorem toggle_all_settles up node vs :
  isUpType (type up) = true ->
  slotRecords node = Some vs ->
  exists node',
    toggleAllMouse up node = Some (node', true) /\
    (vs = [] \/ Forall (fun v => on v = true) vs ->
     toggleAllDraw node' = Some SwitchOff) /\
    (vs <> [] -> Exists (fun v => on v = false) vs ->
     toggleAllDraw node' = Some SwitchOn) /\
    List.filter (fun w => negb (isLoraW w)) (widgets node') =
    List.filter (fun w => negb (isLoraW w)) (widgets node) /\
    map name (widgets node') = map name (widgets node) /\
    showStrengths node' = showStrengths node.
Proof.
  intros Hup H.
  set (all := bool_decide (0 < length vs) && forallb on vs).
  destruct (forEachLoraW_records (setOn (negb all)) _ _ H) as (ws' & I1 & I2 & I3 & I4).
  exists (withWidgets ws' node).
  assert (Hr : slotRecords (withWidgets ws' node) = Some (map (setOn (negb all)) vs))
    by exact I2.
  split; [|split; [|split; [|split; [|split]]]].
  - unfold toggleAllMouse.
    destruct (isUp_not_down_move _ Hup) as [-> _]. rewrite Hup. cbn [negb].
    rewrite (allOn_records _ _ H). cbn [mbind option_bind]. fold all.
    unfold forEachLoraW. rewrite I1. reflexivity.
  - intros Hc. rewrite (toggleAllDraw_records _ _ Hr). rewrite length_map.
    destruct vs as [|v vs]; [reflexivity|].
    destruct Hc as [Hc|Hc]; [discriminate|].
    apply forallb_on_true in Hc.
    assert (Ea : all = true) by (subst all; by rewrite Hc).
    rewrite Ea. cbn [negb].
    assert (Ef : forallb on (map (setOn false) (v :: vs)) = false) by reflexivity.
    rewrite Ef, existsb_on_setOn_false. reflexivity.
  - intros Hne Hex. rewrite (toggleAllDraw_records _ _ Hr). rewrite length_map.
    apply forallb_on_false in Hex.
    assert (Ea : all = false) by (subst all; rewrite Hex; apply andb_false_r).
    rewrite Ea. cbn [negb]. rewrite forallb_on_setOn_true.
    apply nonempty_decide in Hne. by rewrite Hne.
  - exact I4.
  - exact I3.
  - reflexivity.
Qed.

Lemma toggle_all_settles_witness :
  let node := clickAddLora "None" exampleNode in
  slotRecords node =
    Some [defaultValue; mkLoraValue true "123:foo" 1.0 None;
          mkLoraValue false "None" 1.0 None] /\
  toggleAllDraw node = Some SwitchPartial /\
  exists node',
    toggleAllMouse (mkEvent pointerup None 0) node = Some (node', true) /\
    toggleAllDraw node' = Some SwitchOn.
Proof.
  cbv zeta. split; [reflexivity|]. split; [reflexivity|].
  destruct (toggle_all_settles (mkEvent pointerup None 0)
              (clickAddLora "None" exampleNode)
              [defaultValue; mkLoraValue true "123:foo" 1.0 None;
               mkLoraValue false "None" 1.0 None] eq_refl eq_refl)
    as (node' & H1 & _ & H3 & _).
  exists node'. split; [exact H1|]. apply H3; [discriminate|].
  apply Exists_cons_tl, Exists_cons_tl, Exists_cons_hd. reflexivity.
Defined.

(** ** Save and restore *)

Lemma mapM_cons_Some {A B} (f : A -> option B) x l y k :
  f x = Some y -> mapM f l = Some k -> mapM f (x :: l) = Some (y :: k).
Proof. intros Hx Hl. cbn [mapM]. by rewrite Hx, Hl. Qed.

Lemma restoredValue_writtenEntry w v :
  wvalue w = VLora v -> lora v <> "" ->
  isSlotShaped (writtenEntry w) = true /\ restoredValue (writtenEntry w) = Some v.
Proof.
  intros Ev Hl. apply String.eqb_neq in Hl. unfold writtenEntry. rewrite Ev.
  split; [reflexivity|].
  destruct v as [o l s s2]. cbn [lora] in Hl. cbn. rewrite Hl. cbn.
  by destruct o, s2.
Qed.

Lemma written_entries skip ws :
  Forall (fun w =>
            if _isLoraSlot w
            then serialize w = true /\ exists v, wvalue w = VLora v /\ lora v <> ""
            else forall v, wvalue w <> VLora v) ws ->
  exists records,
    mapM recordOf (List.filter _isLoraSlot ws) = Some records /\
    mapM restoredValue
      (List.filter isSlotShaped
         (map writtenEntry (List.filter (fun w => negb skip || serialize w) ws))) =
    Some records.
Proof.
  induction 1 as [|w ws Hw _ (records & I1 & I2)].
  - by exists [].
  - cbn [List.filter]. destruct (_isLoraSlot w) eqn:Es.
    + destruct Hw as (Hser & v & Ev & Hl). rewrite Hser, orb_true_r.
      destruct (restoredValue_writtenEntry w v Ev Hl) as [R1 R2].
      exists (v :: records). split.
      * apply mapM_cons_Some; [|exact I1]. unfold recordOf. by rewrite Ev.
      * cbn [map List.filter]. rewrite R1.
        apply mapM_cons_Some; [exact R2|exact I2].
    + exists records. split; [exact I1|].
      destruct (negb skip || serialize w); [|exact I2].
      cbn [map List.filter].
      assert (Ens : isSlotShaped (writtenEntry w) = false).
      { unfold writtenEntry. destruct (wvalue w) as [|s|v] eqn:Ev; try reflexivity.
        by destruct (Hw v). }
      by rewrite Ens.
Qed.

(** X15: save and restore.  A node that keeps the invariant of the widget
    list and whose slots hold records with a selection is restored from
    what the host saved of it by copying every [widget.value], into any
    node, with the same slots in the same order: the records come back as
    they were, [strengthTwo] included, also when the node was saved in
    single mode.  A node without slots comes back with the one default
    slot.  The restored node has the saved display mode.  This holds
    whether or not the host writes an entry for a widget that is not
    serialized. *)
Theorem save_restore_round_trip origConfigure skipUnserialized node target vs :
  HostContract origConfigure ->
  listInvariant node ->
  savable node ->
  slotRecords node = Some vs ->
  exists node',
    configure origConfigure target (writtenInfo skipUnserialized node) = Some node' /\
    slotRecords node' =
      Some (if bool_decide (0 < length vs) then vs else [defaultValue]) /\
    (forall s, showStrengths node = Some s -> s <> "" ->
               showStrengths node' = Some s).
Proof.
  intros HC Hinv Hsav Hvs.
  assert (Eflag : mapM recordOf (List.filter _isLoraSlot (widgets node)) = Some vs).
  { open_invariant Hinv.
    rewrite E, (inPlace_slotFlagged pre slots post btn Hpre Hs (conj Hb1 Hb2) Hpost).
    by rewrite (slotRecords_inPlace node pre slots btn post E Hpre Hs (conj Hb1 Hb2)
                  Hpost) in Hvs. }
  destruct (written_entries skipUnserialized (widgets node) Hsav)
    as (records & I1 & I2).
  assert (Er : records = vs) by congruence. subst records.
  destruct (configure_slotRecords origConfigure target
              (writtenInfo skipUnserialized node) vs HC I2) as (node' & J1 & J2 & _).
  exists node'. split; [exact J1|]. split; [exact J2|].
  intros s Hs Hne.
  pose proof (configure_result origConfigure target
                (writtenInfo skipUnserialized node) vs I2) as Hres.
  cbv zeta in Hres. rewrite J1 in Hres. injection Hres as ->.
  cbn [showStrengths]. unfold configureBase, writtenInfo. cbn [info_showStrengths].
  rewrite Hs. apply String.eqb_neq in Hne. by rewrite Hne.
Qed.

(** A node in single mode whose slot still holds a second strength. *)
Lemma save_restore_round_trip_witness :
  let v := mkLoraValue true "123:foo" 0.8 (Some 0.3%Q) in
  let node := mkNode [baseModelWidgetAt 0; toggleAllWidgetAt 1;
                      loraWidgetAt 2 1 v; addLoraButtonAt 3] (Some "Single") 4 in
  (listInvariant node /\ savable node /\ slotRecords node = Some [v]) /\
  exists node',
    configure None exampleNode (writtenInfo true node) = Some node' /\
    slotRecords node' = Some [v] /\ showStrengths node' = Some "Single".
Proof.
  cbv zeta.
  set (v := mkLoraValue true "123:foo" 0.8 (Some 0.3%Q)).
  set (node := mkNode [baseModelWidgetAt 0; toggleAllWidgetAt 1;
                       loraWidgetAt 2 1 v; addLoraButtonAt 3] (Some "Single") 4).
  assert (Hinv : listInvariant node).
  { split.
    - split; cbn [widgets nextUid map uid baseModelWidgetAt toggleAllWidgetAt
                  loraWidgetAt addLoraButtonAt node].
      + repeat (apply NoDup_cons; split;
                [rewrite ?elem_of_cons; intros H;
                 repeat (destruct H as [H|H]; [discriminate|]);
                 by apply elem_of_nil in H|]).
        constructor.
      + repeat (constructor; [cbn; lia|]). constructor.
    - exists [baseModelWidgetAt 0; toggleAllWidgetAt 1], [loraWidgetAt 2 1 v],
        (addLoraButtonAt 3), [].
      split; [reflexivity|]. split; [by repeat constructor|].
      split; [by repeat constructor|]. by repeat split. }
  assert (Hsav : savable node).
  { unfold savable.
    repeat (constructor;
            [cbn; first [ split; [reflexivity|eexists; split; [reflexivity|discriminate]]
                        | intros v0; discriminate ]|]).
    constructor. }
  split; [split; [exact Hinv|split; [exact Hsav|reflexivity]]|].
  destruct (save_restore_round_trip None true node exampleNode [v]
              HostContract_None Hinv Hsav eq_refl)
    as (node1 & A1 & A2 & A3).
  exists node1. split; [exact A1|]. split; [exact A2|].
  apply A3; [reflexivity|discriminate].
Defined.

(** ** The display mode *)

(** X16: the second strength does not survive a visit to single mode.  The
    switch to "Single" followed by the switch to "Model & Clip" leaves
    every slot with [strengthTwo] equal to its [strength], whatever
    [strengthTwo] was before; [on], [lora] and [strength] are kept. *)
Theorem mode_switch_forgets_strengthTwo node vs :
  slotRecords node = Some vs ->
  exists node1 node2 vs2,
    onPropertyChanged "showStrengths" "Single" node = Some node1 /\
    onPropertyChanged "showStrengths" "Model & Clip" node1 = Some node2 /\
    slotRecords node2 = Some vs2 /\
    Forall2 (fun v v' => sameButStrengthTwo v v' /\
                         strengthTwo v' = Some (strength v)) vs vs2.
Proof.
  intros H.
  destruct (forEachLoraW_slotRecords toSingle node vs H) as (node1 & I1 & I2 & _).
  destruct (forEachLoraW_slotRecords toDual node1 _ I2) as (node2 & J1 & J2 & _).
  exists node1, node2, (map toDual (map toSingle vs)).
  split; [exact I1|]. split; [exact J1|]. split; [exact J2|].
  rewrite map_map. apply Forall2_map_r_same. intros v. by repeat split.
Qed.

Lemma mode_switch_forgets_strengthTwo_witness :
  let node := mkNode [loraWidgetAt 0 1 (mkLoraValue true "123:foo" 0.8 (Some 0.3%Q));
                      addLoraButtonAt 1] (Some "Model & Clip") 2 in
  slotRecords node = Some [mkLoraValue true "123:foo" 0.8 (Some 0.3%Q)] /\
  exists node1 node2,
    onPropertyChanged "showStrengths" "Single" node = Some node1 /\
    onPropertyChanged "showStrengths" "Model & Clip" node1 = Some node2 /\
    slotRecords node2 = Some [mkLoraValue true "123:foo" 0.8 (Some 0.8%Q)].
Proof.
  cbv zeta. split; [reflexivity|].
  destruct (mode_switch_forgets_strengthTwo
              (mkNode [loraWidgetAt 0 1 (mkLoraValue true "123:foo" 0.8 (Some 0.3%Q));
                       addLoraButtonAt 1] (Some "Model & Clip") 2)
              [mkLoraValue true "123:foo" 0.8 (Some 0.3%Q)] eq_refl)
    as (node1 & node2 & vs2 & H1 & H2 & H3 & H4).
  exists node1, node2. split; [exact H1|]. split; [exact H2|].
  rewrite H3. f_equal.
  apply Forall2_cons_inv_l in H4 as (v' & k' & ((Ho & Hl & Hs) & H2') & Hnil & ->).
  apply Forall2_nil_inv_l in Hnil as ->.
  destruct v' as [o l s s2]. cbn in *. by subst.
Defined.

(** ** The upgrade pass, again *)

Lemma upgradeApiSlots_fields node :
  showStrengths (upgradeApiSlots node) = showStrengths node /\
  nextUid (upgradeApiSlots node) = nextUid node.
Proof.
  unfold upgradeApiSlots.
  destruct (negb (existsb _isLoraSlot (widgets node))); [by split|].
  match goal with |- context [bool_decide ?P] => destruct (bool_decide P) end;
    by split.
Qed.

Lemma upgradeWidget_idempotent dual w :
  upgradeWidget dual (upgradeWidget dual w) = upgradeWidget dual w.
Proof.
  unfold upgradeWidget. destruct (_isLoraSlot w) eqn:Es.
  - destruct (wvalue w) eqn:Ev; cbn [_isLoraSlot withWValue wvalue]; by rewrite Es, ?Ev.
  - by rewrite Es.
Qed.

Lemma node_eq (a b : Node) :
  widgets a = widgets b -> showStrengths a = showStrengths b ->
  nextUid a = nextUid b -> a = b.
Proof. destruct a, b. cbn. by intros -> -> ->. Qed.

(** X17: the upgrade pass finishes its work in one run.  After it no
    widget that [getLoraWidgets] returns holds a bare name, a second run
    changes nothing, and when no such widget held [null] the node has a
    slot list again: the operations that rewrite the slot records no
    longer fail on it. *)
Theorem upgrade_once_is_enough node :
  let node' := upgradeApiSlots node in
  upgradeApiSlots node' = node' /\
  Forall (fun w => forall s, wvalue w <> VString s) (getLoraWidgets node') /\
  (Forall (fun w => wvalue w <> VNull) (getLoraWidgets node) ->
   exists vs, slotRecords node' = Some vs /\ length vs = length (getLoraWidgets node)).
Proof.
  intros node'.
  pose proof (upgradeApiSlots_widgets node) as Ew. fold node' in Ew.
  destruct (upgradeApiSlots_fields node) as [Es En]. fold node' in Es, En.
  assert (Ed : isDualMode node' = isDualMode node) by (unfold isDualMode; by rewrite Es).
  assert (Eg : getLoraWidgets node' =
               map (upgradeWidget (isDualMode node)) (getLoraWidgets node)).
  { unfold getLoraWidgets. rewrite Ew. generalize (widgets node). intros ws.
    induction ws as [|w ws IH]; [reflexivity|]. cbn [map List.filter].
    assert (Ei : isLoraW (upgradeWidget (isDualMode node) w) = isLoraW w).
    { unfold upgradeWidget. destruct (_isLoraSlot w); [|reflexivity].
      by destruct (wvalue w). }
    rewrite Ei. destruct (isLoraW w); cbn [map]; by rewrite IH. }
  split; [|split].
  - apply node_eq.
    + rewrite (upgradeApiSlots_widgets node'), Ed, Ew, map_map.
      apply map_ext. intros w. apply upgradeWidget_idempotent.
    + apply upgradeApiSlots_fields.
    + apply upgradeApiSlots_fields.
  - rewrite Eg. apply Forall_forall. intros w' Hin.
    apply list_elem_of_In, in_map_iff in Hin as (w & <- & Hin).
    apply filter_In in Hin as [_ Hw]. apply isLoraW_slot in Hw.
    unfold upgradeWidget. rewrite Hw.
    destruct (wvalue w) eqn:Ev; cbn [wvalue withWValue]; rewrite ?Ev; discriminate.
  - intros Hnn. unfold slotRecords. rewrite Eg.
    assert (Hf : Forall (fun w => isLoraW w = true) (getLoraWidgets node)).
    { apply Forall_forall. intros w Hin. apply list_elem_of_In in Hin.
      by apply filter_In in Hin as [_ Hw]. }
    revert Hnn Hf. generalize (getLoraWidgets node). intros ws Hnn Hf.
    induction ws as [|w ws IH]; [by exists []|].
    apply Forall_cons in Hnn as [Hw Hnn]. apply Forall_cons in Hf as [Hl Hf].
    destruct (IH Hnn Hf) as (vs & I1 & I2).
    apply isLoraW_slot in Hl.
    destruct (wvalue w) as [|s|v] eqn:Ev; [done| |].
    + exists (upgradedRecord (isDualMode node) s :: vs). split; [|cbn; by rewrite I2].
      cbn [map]. apply mapM_cons_Some; [|exact I1].
      unfold upgradeWidget. by rewrite Hl, Ev.
    + exists (v :: vs). split; [|cbn; by rewrite I2].
      cbn [map]. apply mapM_cons_Some; [|exact I1].
      unfold upgradeWidget, recordOf. by rewrite Hl, Ev, Ev.
Qed.

(** ** The buttons after a restore *)

Lemma filter_map_name (p : string -> bool) (ws : list Widget) :
  List.filter p (map name ws) = map name (List.filter (fun w => p (name w)) ws).
Proof.
  induction ws as [|w ws IH]; [reflexivity|]. cbn [map List.filter].
  destruct (p (name w)); cbn [map]; by rewrite IH.
Qed.

Lemma filter_filter_and {A} (p q : A -> bool) l :
  List.filter p (List.filter q l) = List.filter (fun x => q x && p x) l.
Proof.
  induction l as [|x l IH]; [reflexivity|]. cbn [List.filter].
  destruct (q x); cbn [List.filter andb]; [|exact IH].
  destruct (p x); by rewrite IH.
Qed.

Lemma filter_ext_Forall {A} (p q : A -> bool) l :
  Forall (fun x => p x = q x) l -> List.filter p l = List.filter q l.
Proof.
  induction 1 as [|x l Hx _ IH]; [reflexivity|]. cbn [List.filter].
  by rewrite Hx, IH.
Qed.

Lemma onNodeCreated_widgets connected host :
  exists bm ta slot add auth refresh,
    widgets (onNodeCreated connected host) =
    List.filter
      (fun w => String.eqb (name w) "model" || String.eqb (name w) "clip" ||
                String.eqb (name w) "mm_auth" || String.eqb (name w) "mm_refresh")
      (widgets host) ++ [bm; ta; slot; add; auth; refresh] /\
    map name [bm; ta; slot; add; auth; refresh] =
      ["base_model"; "toggle_all"; "lora_1"; "add_lora"; authName connected;
       "mm_refresh"] /\
    map isDynamic [bm; ta; slot; add; auth; refresh] =
      [false; true; true; true; false; false] /\
    wvalue bm = VString "All".
Proof.
  unfold onNodeCreated, addAuthAndRefresh, setupLoraNode.
  cbn [pushWidget widgets fst createAddLoraButton createLoraWidget
       createToggleAllWidget addBaseModelWidget withWidgets nextUid showStrengths].
  do 6 eexists. split; [|split; [|split]].
  - rewrite <- !app_assoc. cbn [app]. f_equal.
    destruct (showStrengths host) as [s|]; [destruct (String.eqb s "")|]; reflexivity.
  - by destruct connected.
  - reflexivity.
  - reflexivity.
Qed.

(** X18: a restore does not put the buttons back where creation put them.
    Creation leaves the auth button and the refresh button after the Add
    LoRA button.  The auth button carries its state as its name from then
    on, so a restore does not take it for a trailing widget: when the
    host's [configure] keeps the widgets' names, the restored node has the
    auth button right after the base model filter, before the toggle-all
    switch and the slots, and only the refresh button after the Add LoRA
    button. *)
Theorem restore_moves_auth_button origConfigure connected host info node' :
  (forall f, origConfigure = Some f ->
             forall x i, map name (widgets (f x i)) = map name (widgets x)) ->
  noDynamic host ->
  configure origConfigure (onNodeCreated connected host) info = Some node' ->
  map name (widgets (onNodeCreated connected host)) =
    keptNames host ++
    ["base_model"; "toggle_all"; "lora_1"; "add_lora"; authName connected;
     "mm_refresh"] /\
  exists n,
    0 < n /\
    map name (widgets node') =
      List.filter (fun s => negb (trailingName s)) (keptNames host) ++
      ["base_model"; authName connected; "toggle_all"] ++
      map loraName (seq 1 n) ++ ["add_lora"] ++
      List.filter trailingName (keptNames host) ++ ["mm_refresh"].
Proof.
  intros Hhost Hnd Hc.
  destruct (onNodeCreated_widgets connected host)
    as (bm & ta & slot & add & auth & refresh & Ew & En & Ed & _).
  set (keep := fun w => String.eqb (name w) "model" || String.eqb (name w) "clip" ||
                        String.eqb (name w) "mm_auth" || String.eqb (name w) "mm_refresh")
    in Ew.
  set (K := List.filter keep (widgets host)) in Ew.
  assert (EK : keptNames host = map name K).
  { unfold keptNames. by rewrite filter_map_name. }
  assert (HK : Forall (fun w => isDynamic w = false) K).
  { apply Forall_forall. intros w Hin. apply list_elem_of_In, filter_In in Hin as [Hin _].
    unfold noDynamic in Hnd. rewrite Forall_forall in Hnd.
    apply Hnd. by apply list_elem_of_In. }
  cbn [map] in En, Ed.
  injection En as Nbm Nta Nslot Nadd Nauth Nref.
  injection Ed as Dbm Dta Dslot Dadd Dauth Dref.
  split.
  { rewrite Ew, map_app, EK. cbn [map]. by rewrite Nbm, Nta, Nslot, Nadd, Nauth, Nref. }
  destruct (configure_Some_records _ _ _ _ Hc) as [vs Hvs].
  pose proof (configure_result origConfigure (onNodeCreated connected host) info vs Hvs)
    as Hres.
  cbv zeta in Hres. rewrite Hc in Hres. injection Hres as ->.
  set (vs' := if bool_decide (0 < length vs) then vs else [defaultValue]).
  exists (length vs'). split.
  { subst vs'. destruct (bool_decide (0 < length vs)) eqn:Eb; [|cbn; lia].
    by apply bool_decide_eq_true in Eb. }
  cbn [widgets].
  assert (At : String.eqb (authName connected) "mm_auth" = false /\
               String.eqb (authName connected) "mm_refresh" = false)
    by (by destruct connected).
  destruct At as [At1 At2].
  assert (Etr : map name (trailingOf (onNodeCreated connected host)) =
                List.filter trailingName (map name K) ++ ["mm_refresh"]).
  { unfold trailingOf. rewrite Ew, List.filter_app, map_app. f_equal.
    - rewrite filter_map_name. f_equal. apply filter_ext_Forall.
      eapply Forall_impl; [exact HK|]. cbn beta. intros w ->. reflexivity.
    - cbn [List.filter]. unfold isTrailingName.
      rewrite Dbm, Dta, Dslot, Dadd, Dauth, Dref. cbn [negb andb].
      rewrite Nbm, Nauth, Nref, At1, At2. cbn. by rewrite Nref. }
  assert (Eb : map name (widgets (configureBase origConfigure
                                    (onNodeCreated connected host) info)) =
               List.filter (fun s => negb (trailingName s)) (map name K) ++
               ["base_model"; authName connected]).
  { assert (Es : map name
                   (List.filter (fun w => negb (isDynamic w) && negb (isTrailingName w))
                      (widgets (onNodeCreated connected host))) =
                 List.filter (fun s => negb (trailingName s)) (map name K) ++
                 ["base_model"; authName connected]).
    { rewrite Ew, List.filter_app, map_app. f_equal.
      - rewrite filter_map_name. f_equal. apply filter_ext_Forall.
        eapply Forall_impl; [exact HK|]. cbn beta. intros w ->. reflexivity.
      - cbn [List.filter]. unfold isTrailingName.
        rewrite Dbm, Dta, Dslot, Dadd, Dauth, Dref. cbn [negb andb].
        rewrite Nbm, Nauth, Nref, At1, At2. cbn. by rewrite Nbm, Nauth. }
    unfold configureBase.
    destruct origConfigure as [f|] eqn:Eo.
    - destruct (info_showStrengths info) as [s|]; [destruct (String.eqb s "")|];
        cbn [widgets]; by rewrite (Hhost f eq_refl).
    - destruct (info_showStrengths info) as [s|]; [destruct (String.eqb s "")|];
        cbn [widgets]; exact Es. }
  rewrite map_app, Eb. cbn [map]. rewrite map_app. cbn [map].
  rewrite name_slotWidgetsFrom, Etr, EK. cbn [Nat.add].
  rewrite <- !app_assoc. reflexivity.
Qed.

Lemma restore_moves_auth_button_witness :
  let host := mkNode [] None 0 in
  let info := mkInfo None (Some [JString "All"]) in
  exists node',
    configure None (onNodeCreated false host) info = Some node' /\
    map name (widgets (onNodeCreated false host)) =
      ["base_model"; "toggle_all"; "lora_1"; "add_lora"; "Connect to Model Manager";
       "mm_refresh"] /\
    map name (widgets node') =
      ["base_model"; "Connect to Model Manager"; "toggle_all"; "lora_1"; "add_lora";
       "mm_refresh"].
Proof.
  cbv zeta. eexists. split; [reflexivity|].
  destruct (restore_moves_auth_button None false (mkNode [] None 0)
              (mkInfo None (Some [JString "All"])) _
              ltac:(intros f Hf; discriminate) ltac:(constructor) eq_refl)
    as [H1 _].
  split; [exact H1|reflexivity].
Defined.

(** ** What a restore depends on *)

(** X26: a restore takes its slots from the saved values alone.  When the
    slot-shaped saved values give the records [vs] (a [lora] that is a
    string or is falsy, a [strengthTwo] that is a number or is missing),
    the restore succeeds on any node, whatever slots that node had, and
    the slot list is then [vs], in the order of the saved values, or the
    one default slot when there is none. *)
Theorem restore_replaces_slots origConfigure node info vs :
  HostContract origConfigure ->
  mapM restoredValue (loraSlotValuesOf info) = Some vs ->
  exists node',
    configure origConfigure node info = Some node' /\
    slotRecords node' = Some (if bool_decide (0 < length vs) then vs
                              else [defaultValue]) /\
    map name (getLoraWidgets node') =
      map loraName (seq 1 (length (if bool_decide (0 < length vs) then vs
                                   else [defaultValue]))).
Proof.
  intros HC E. exact (configure_slotRecords origConfigure node info vs HC E).
Qed.

Lemma restore_replaces_slots_witness :
  let info := mkInfo None
                (Some [JString "All";
                       JObject [("lora", JString "9:pen"); ("strength", JNumber 0.5)]]) in
  exists node',
    configure None exampleNode info = Some node' /\
    slotRecords node' = Some [mkLoraValue true "9:pen" 0.5 None].
Proof.
  cbv zeta.
  destruct (restore_replaces_slots None exampleNode
              (mkInfo None
                 (Some [JString "All";
                        JObject [("lora", JString "9:pen"); ("strength", JNumber 0.5)]]))
              [mkLoraValue true "9:pen" 0.5 None]
              HostContract_None eq_refl) as (node' & H1 & H2 & _).
  exists node'. split; [exact H1|exact H2].
Defined.

(** ** Names and values of the catalog *)

Lemma afterColon_app a b :
  noColon a -> afterColon (a ++ String ":" b)%string = Some b.
Proof.
  unfold noColon. induction a as [|c a IH]; cbn; [reflexivity|].
  destruct (Ascii.eqb c ":"); [discriminate|]. exact IH.
Qed.

Lemma noColon_app a b : noColon a -> noColon b -> noColon (a ++ b)%string.
Proof.
  unfold noColon. intros Ha Hb. induction a as [|c a IH]; cbn in *; [exact Hb|].
  destruct (Ascii.eqb c ":"); [discriminate|]. by apply IH.
Qed.

Lemma append_assoc (a b c : string) : ((a ++ b) ++ c = a ++ (b ++ c))%string.
Proof. induction a as [|x a IH]; cbn; [reflexivity|]. by rewrite IH. Qed.

Lemma modelComboValue_split m :
  noColon (modelId m) ->
  (forall v, versionId m = Some v -> noColon v) ->
  exists a, noColon a /\ modelComboValue m = (a ++ String ":" (modelName m))%string.
Proof.
  intros Hid Hv. unfold modelComboValue, truthy.
  destruct (versionId m) as [v|] eqn:Ev.
  - destruct (String.eqb v ""); [by exists (modelId m)|].
    exists (modelId m ++ "@" ++ v)%string. split.
    + apply noColon_app; [exact Hid|]. apply (noColon_app "@"); [reflexivity|].
      by apply Hv.
    + by rewrite !append_assoc.
  - by exists (modelId m).
Qed.

(** X19: a model picked in the menu is shown by its name.  The value that
    the menu selects for a model whose id and version id hold no colon
    turns the slot on, keeps its strengths, and makes the row show the
    model's name, whatever characters the name has: the name is what
    follows the first colon of the value. *)
Theorem picked_model_shows_its_name m (w : SlotWidget) :
  noColon (modelId m) ->
  (forall v, versionId m = Some v -> noColon v) ->
  let w' := dropdownSelect (modelComboValue m) w in
  rawName (lora (value w')) = modelName m /\
  on (value w') = true /\
  strength (value w') = strength (value w) /\
  strengthTwo (value w') = strengthTwo (value w).
Proof.
  intros Hid Hv w'.
  destruct (modelComboValue_split m Hid Hv) as (a & Ha & E).
  assert (Hne : String.eqb (modelComboValue m) "None" = false).
  { apply String.eqb_neq. intros Heq.
    assert (H : afterColon (modelComboValue m) = Some (modelName m))
      by (rewrite E; by apply afterColon_app).
    rewrite Heq in H. discriminate. }
  subst w'. unfold dropdownSelect. cbn [value withValue lora on strength strengthTwo].
  split; [|by rewrite Hne].
  unfold rawName. rewrite Hne, E. by rewrite afterColon_app.
Qed.

Lemma picked_model_shows_its_name_witness :
  let m := mkModel "123" (Some "7") "style: ink" (Some "SDXL") in
  let w := mkSlotWidget (mkLoraValue false "None" 0.8 None) 0 0 None in
  modelComboValue m = "123@7:style: ink" /\
  rawName (lora (value (dropdownSelect (modelComboValue m) w))) = "style: ink" /\
  on (value (dropdownSelect (modelComboValue m) w)) = true.
Proof.
  cbv zeta. split; [reflexivity|].
  destruct (picked_model_shows_its_name
              (mkModel "123" (Some "7") "style: ink" (Some "SDXL"))
              (mkSlotWidget (mkLoraValue false "None" 0.8 None) 0 0 None)
              eq_refl ltac:(intros v [= <-]; reflexivity))
    as (H1 & H2 & _).
  split; [exact H1|exact H2].
Defined.

(** ** Sorting and sets of strings *)

Lemma insertSorted_perm s l : insertSorted s l ≡ₚ s :: l.
Proof.
  induction l as [|x l IH]; cbn; [reflexivity|].
  destruct (String.leb s x); [reflexivity|].
  rewrite IH. apply perm_swap.
Qed.

Lemma sortStrings_perm l : sortStrings l ≡ₚ l.
Proof.
  induction l as [|x l IH]; cbn; [reflexivity|].
  by rewrite insertSorted_perm, IH.
Qed.

Lemma ascending_nil : ascending [].
Proof. intros i a b H. discriminate. Qed.

Lemma ascending_cons x l :
  ascending (x :: l) <->
  match l with [] => True | y :: _ => String.leb x y = true end /\ ascending l.
Proof.
  split.
  - intros H. split.
    + destruct l as [|y l]; [exact I|]. by apply (H 0 x y).
    + intros i a b Ha Hb. by apply (H (S i) a b).
  - intros [Hh Ht] i a b Ha Hb. destruct i as [|i].
    + cbn in Ha. injection Ha as <-. destruct l as [|y l]; [discriminate|].
      cbn in Hb. by injection Hb as <-.
    + by apply (Ht i a b).
Qed.

Lemma insertSorted_ascending s l : ascending l -> ascending (insertSorted s l).
Proof.
  induction l as [|x l IH]; intros Hl; cbn.
  - apply ascending_cons. split; [exact I|apply ascending_nil].
  - destruct (String.leb s x) eqn:E.
    + apply ascending_cons. by split.
    + apply ascending_cons in Hl as [Hh Hl]. apply ascending_cons.
      split; [|by apply IH].
      assert (Hxs : String.leb x s = true).
      { destruct (String.leb_total s x) as [H|H]; [congruence|exact H]. }
      destruct l as [|y l]; cbn; [exact Hxs|].
      destruct (String.leb s y); [exact Hxs|exact Hh].
Qed.

Lemma sortStrings_ascending l : ascending (sortStrings l).
Proof.
  induction l as [|x l IH]; cbn; [apply ascending_nil|].
  by apply insertSorted_ascending.
Qed.

Lemma existsb_eqb_elem x (l : list string) :
  existsb (String.eqb x) l = true <-> x ∈ l.
Proof.
  rewrite existsb_exists. split.
  - intros (y & Hin & E). apply String.eqb_eq in E as ->. by apply list_elem_of_In.
  - intros H. exists x. split; [by apply list_elem_of_In|apply String.eqb_refl].
Qed.

Lemma setFrom_spec l :
  forall seen,
    NoDup (setFrom seen l) /\
    forall x, x ∈ setFrom seen l <-> x ∈ l /\ x ∉ seen.
Proof.
  induction l as [|y l IH]; intros seen; cbn [setFrom].
  - split; [constructor|]. intros x. split; [by intros H%elem_of_nil|].
    by intros [H%elem_of_nil _].
  - destruct (existsb (String.eqb y) seen) eqn:E.
    + apply existsb_eqb_elem in E. destruct (IH seen) as [I1 I2].
      split; [exact I1|]. intros x. rewrite I2, elem_of_cons.
      split; [tauto|]. intros [[->|H] Hn]; [done|by split].
    + assert (Hy : y ∉ seen).
      { intros H. apply existsb_eqb_elem in H. congruence. }
      destruct (IH (y :: seen)) as [I1 I2]. split.
      * apply NoDup_cons. split; [|exact I1].
        rewrite I2. intros [_ Hn]. apply Hn. apply list_elem_of_here.
      * intros x. rewrite !elem_of_cons, I2, not_elem_of_cons.
        split.
        -- intros [->|(Hx & Hne & Hs)]; [by split; [left|]|by split; [right|]].
        -- intros [[->|Hx] Hs]; [by left|].
           destruct (String.eqb_spec x y) as [->|Hne]; [by left|by right].
Qed.

Lemma filter_sublist {A} (p : A -> bool) l : sublist (List.filter p l) l.
Proof.
  induction l as [|x l IH]; cbn; [constructor|].
  destruct (p x); by constructor.
Qed.

Lemma truthy_Some o b : truthy o = Some b <-> o = Some b /\ b <> "".
Proof.
  unfold truthy. destruct o as [s|]; [|by split; [|intros [? _]]].
  destruct (String.eqb_spec s "") as [->|Hne].
  - split; [discriminate|]. by intros [[= <-] H].
  - split; [by intros [= <-]|]. by intros [[= <-] _].
Qed.

(** X20: the base model filter that a refresh builds.  The options are
    "All" followed by the base models of the catalog, each once; a missing
    or empty base model gives no option; base models written in ASCII
    characters come in ascending order.  The values listed under an option
    are a part of the full list, in the order of the catalog, and every
    model with a base model is listed under the option of that base
    model. *)
Theorem base_model_options ms :
  let c := makeCache ms in
  exists rest,
    getBaseModelOptions (Some c) = "All" :: rest /\
    NoDup rest /\
    (Forall (fun b => asciiOnly b = true) rest -> ascending rest) /\
    (forall b, b ∈ rest <-> exists m, m ∈ ms /\ baseModel m = Some b /\ b <> "") /\
    (forall b, sublist (getCacheValues (Some c) b) (getCacheValues (Some c) None)) /\
    (forall m b, m ∈ ms -> baseModel m = Some b -> b <> "" ->
                 modelComboValue m ∈ getCacheValues (Some c) (Some b)).
Proof.
  intros c. exists (baseModels c).
  set (raw := omap (fun m => truthy (baseModel m)) ms).
  assert (Eb : baseModels c = sortStrings (setFrom [] raw)) by reflexivity.
  destruct (setFrom_spec raw []) as [N1 N2].
  split; [|split; [|split; [|split; [|split]]]].
  - unfold getBaseModelOptions.
    destruct (baseModels c) as [|x l] eqn:E; reflexivity.
  - rewrite Eb. by rewrite sortStrings_perm.
  - intros _. rewrite Eb. apply sortStrings_ascending.
  - intros b. rewrite Eb, sortStrings_perm, N2. subst raw.
    rewrite list_elem_of_omap. split.
    + intros [(m & Hm & Ht) _]. apply truthy_Some in Ht as [H1 H2]. by exists m.
    + intros (m & Hm & H1 & H2). split; [|by intros H%elem_of_nil].
      exists m. split; [exact Hm|]. by apply truthy_Some.
  - intros b. cbn [getCacheValues truthy c makeCache values models].
    destruct (truthy b) as [b'|]; [|reflexivity].
    destruct (String.eqb b' "All"); [reflexivity|].
    apply fmap_sublist. apply filter_sublist.
  - intros m b Hm Hb Hne.
    cbn [getCacheValues c makeCache values models].
    rewrite (proj2 (truthy_Some (Some b) b) (conj eq_refl Hne)).
    destruct (String.eqb b "All").
    + apply list_elem_of_fmap. by exists m.
    + apply list_elem_of_fmap. exists m. split; [reflexivity|].
      apply list_elem_of_In, filter_In. split; [by apply list_elem_of_In|].
      rewrite Hb. apply String.eqb_refl.
Qed.

(** ** The selection menu *)

Lemma groupGet_groupPush g m groups g' :
  groupGet g' (groupPush g m groups) =
  groupGet g' groups ++ (if String.eqb g g' then [m] else []).
Proof.
  induction groups as [|[k l] groups IH]; cbn [groupPush groupGet].
  - rewrite String.eqb_sym. reflexivity.
  - destruct (String.eqb_spec k g) as [->|Hkg]; cbn [groupGet].
    + destruct (String.eqb g g'); [reflexivity|by rewrite app_nil_r].
    + destruct (String.eqb_spec k g') as [->|Hkg']; [|exact IH].
      apply String.eqb_neq in Hkg. rewrite String.eqb_sym in Hkg.
      by rewrite Hkg, app_nil_r.
Qed.

Lemma keys_groupPush g m groups :
  (NoDup (map fst groups) -> NoDup (map fst (groupPush g m groups))) /\
  (forall x, x ∈ map fst (groupPush g m groups) <-> x = g \/ x ∈ map fst groups).
Proof.
  induction groups as [|[k l] groups [IH1 IH2]]; cbn [groupPush map fst].
  - split; [intros _; apply NoDup_singleton|].
    intros x. rewrite list_elem_of_singleton. split; [by left|].
    by intros [H|H%elem_of_nil].
  - destruct (String.eqb_spec k g) as [->|Hkg]; cbn [map fst].
    + split; [done|]. intros x. rewrite elem_of_cons. tauto.
    + split.
      * intros [Hk Hn]%NoDup_cons. apply NoDup_cons. split; [|by apply IH1].
        rewrite IH2. intros [H|H]; [by apply Hkg|by apply Hk].
      * intros x. rewrite !elem_of_cons, IH2. tauto.
Qed.

Lemma ownProperty_keys k groups :
  (ownProperty k groups = None <-> k ∉ map fst groups).
Proof.
  induction groups as [|[g l] groups IH]; cbn [ownProperty map fst].
  - split; [intros _ H; by apply elem_of_nil in H|done].
  - rewrite not_elem_of_cons. destruct (String.eqb_spec g k) as [->|Hne].
    + split; [discriminate|]. by intros [H _].
    + rewrite IH. split; [by intros H; split; [congruence|]|by intros [_ H]].
Qed.

Lemma inherited_keys k proto :
  (inherited k proto = None <-> k ∉ map fst proto).
Proof.
  induction proto as [|[g v] proto IH]; cbn [inherited map fst].
  - split; [intros _ H; by apply elem_of_nil in H|done].
  - rewrite not_elem_of_cons. destruct (String.eqb_spec g k) as [->|Hne].
    + split; [discriminate|]. by intros [H _].
    + rewrite IH. split; [by intros H; split; [congruence|]|by intros [_ H]].
Qed.

Lemma inherited_Some_key k proto v :
  inherited k proto = Some v -> k ∈ map fst proto.
Proof.
  induction proto as [|[g x] proto IH]; cbn [inherited map fst]; [discriminate|].
  destruct (String.eqb_spec g k) as [->|Hne]; [intros _; apply list_elem_of_here|].
  intros H. apply list_elem_of_further. by apply IH.
Qed.

Lemma inherited_values k proto v :
  Forall (fun kv => snd kv = GOther) proto ->
  inherited k proto = Some v -> v = GOther.
Proof.
  induction 1 as [|[g x] proto Hx _ IH]; cbn [inherited]; [discriminate|].
  destruct (String.eqb g k); [|exact IH]. cbn in Hx. congruence.
Qed.

Lemma objectPrototype_values : Forall (fun kv => snd kv = GOther) objectPrototype.
Proof. unfold objectPrototype. repeat constructor. Qed.

Lemma pushOwn_own g m groups l :
  ownProperty g groups = Some l -> pushOwn g m groups = groupPush g m groups.
Proof.
  induction groups as [|[k x] groups IH]; cbn [ownProperty pushOwn groupPush];
    [discriminate|].
  destruct (String.eqb k g); [reflexivity|]. intros H. by rewrite IH.
Qed.

Lemma pushOwn_new g m groups :
  ownProperty g groups = None ->
  pushOwn g m (groups ++ [(g, [])]) = groupPush g m groups /\
  ownProperty g (groups ++ [(g, [])]) = Some [].
Proof.
  induction groups as [|[k x] groups IH];
    cbn [ownProperty pushOwn groupPush app].
  - intros _. by rewrite String.eqb_refl.
  - destruct (String.eqb k g); [discriminate|]. intros H.
    destruct (IH H) as [-> ->]. by split.
Qed.

(** One round of the loop: it throws when the group is not an own property
    and the prototype provides one of that name, and adds the model to the
    own properties otherwise. *)
Lemma fillGroups_cons m rest groups :
  fillGroups (m :: rest) groups =
  match ownProperty (groupOf m) groups, inherited (groupOf m) objectPrototype with
  | None, Some _ => None
  | _, _ => fillGroups rest (groupPush (groupOf m) m groups)
  end.
Proof.
  cbn [fillGroups]. unfold getProperty.
  destruct (ownProperty (groupOf m) groups) as [l|] eqn:Eo.
  - cbn beta iota zeta. rewrite Eo. by rewrite (pushOwn_own _ _ _ _ Eo).
  - destruct (inherited (groupOf m) objectPrototype) as [v|] eqn:Ei.
    + cbn beta iota zeta. rewrite Eo.
      by rewrite (inherited_values _ _ _ objectPrototype_values Ei).
    + cbn beta iota zeta.
      destruct (pushOwn_new (groupOf m) m groups Eo) as [E1 E2].
      by rewrite E2, E1.
Qed.

Lemma fillGroups_Some ms :
  forall groups groups',
    fillGroups ms groups = Some groups' ->
    (forall g', groupGet g' groups' =
                groupGet g' groups ++
                List.filter (fun m => String.eqb (groupOf m) g') ms) /\
    (NoDup (map fst groups) -> NoDup (map fst groups')) /\
    (forall x, x ∈ map fst groups' <->
               x ∈ map fst groups \/ exists m, m ∈ ms /\ groupOf m = x).
Proof.
  induction ms as [|m ms IH]; intros groups groups' H.
  - cbn [fillGroups] in H. injection H as <-. split; [|split; [done|]].
    + intros g'. cbn. by rewrite app_nil_r.
    + intros x. split; [by left|]. intros [H|(m & H%elem_of_nil & _)]; done.
  - rewrite fillGroups_cons in H.
    assert (H' : fillGroups ms (groupPush (groupOf m) m groups) = Some groups').
    { destruct (ownProperty (groupOf m) groups),
               (inherited (groupOf m) objectPrototype);
        first [discriminate|exact H]. }
    clear H. rename H' into H.
    destruct (IH _ _ H) as (I1 & I2 & I3).
    destruct (keys_groupPush (groupOf m) m groups) as [K1 K2].
    split; [|split].
    + intros g'. rewrite I1, groupGet_groupPush, <- app_assoc. f_equal.
      cbn [List.filter]. by destruct (String.eqb (groupOf m) g').
    + intros Hn. by apply I2, K1.
    + intros x. rewrite I3, K2. split.
      * intros [[->|Hx]|(m' & Hm' & E)].
        -- right. exists m. split; [apply list_elem_of_here|reflexivity].
        -- by left.
        -- right. exists m'. split; [by apply list_elem_of_further|exact E].
      * intros [Hx|(m' & Hm' & E)]; [by left; right|].
        apply elem_of_cons in Hm' as [->|Hm']; [by left; left|].
        right. by exists m'.
Qed.

(** The loop throws exactly when it meets a group that the prototype
    provides: such a name never becomes an own property, so the lookup
    always finds the inherited value. *)
Lemma fillGroups_None ms :
  forall groups,
    Forall (fun k => k ∉ map fst objectPrototype) (map fst groups) ->
    fillGroups ms groups = None <->
    Exists (fun m => groupOf m ∈ map fst objectPrototype) ms.
Proof.
  induction ms as [|m ms IH]; intros groups Hinv.
  - cbn [fillGroups]. split; [discriminate|]. intros H. inversion H.
  - rewrite fillGroups_cons, Exists_cons.
    destruct (inherited (groupOf m) objectPrototype) as [v|] eqn:Ei.
    + assert (Hin : groupOf m ∈ map fst objectPrototype)
        by (by eapply inherited_Some_key).
      assert (Eo : ownProperty (groupOf m) groups = None).
      { apply ownProperty_keys. intros H.
        rewrite Forall_forall in Hinv. by apply (Hinv _ H). }
      rewrite Eo. split; [by left|done].
    + pose proof (proj1 (inherited_keys _ _) Ei) as Hnot.
      assert (E : match ownProperty (groupOf m) groups with
                  | Some _ | _ => fillGroups ms (groupPush (groupOf m) m groups)
                  end = fillGroups ms (groupPush (groupOf m) m groups))
        by (by destruct (ownProperty (groupOf m) groups)).
      rewrite E. rewrite IH.
      * split; [by right|]. by intros [H|H].
      * apply Forall_forall. intros x Hx.
        apply keys_groupPush in Hx as [->|Hx]; [exact Hnot|].
        rewrite Forall_forall in Hinv. by apply Hinv.
Qed.

Lemma concat_map_nil {A B} (ks : list A) : concat (map (fun _ => @nil B) ks) = [].
Proof. induction ks; cbn; auto. Qed.

Lemma concat_add_one {A} (F : string -> list A) (k : string) (x : A) ks :
  NoDup ks -> k ∈ ks ->
  concat (map (fun g => (if String.eqb k g then [x] else []) ++ F g) ks) ≡ₚ
  x :: concat (map F ks).
Proof.
  induction ks as [|g ks IH]; intros Hn Hk; [by apply elem_of_nil in Hk|].
  apply NoDup_cons in Hn as [Hg Hn]. cbn [map concat].
  destruct (String.eqb_spec k g) as [->|Hne].
  - cbn [app]. constructor. apply Permutation_app_head.
    assert (E : map (fun g' => (if String.eqb g g' then [x] else []) ++ F g') ks =
                map F ks).
    { apply map_ext_in. intros g' Hin.
      destruct (String.eqb_spec g g') as [->|_]; [|reflexivity].
      exfalso. apply Hg. by apply list_elem_of_In. }
    by rewrite E.
  - cbn [app]. apply elem_of_cons in Hk as [Hk|Hk]; [done|].
    rewrite (IH Hn Hk). symmetry. apply Permutation_middle.
Qed.

Lemma partition_perm (ks : list string) (ms : list Model) :
  NoDup ks ->
  (forall m, m ∈ ms -> groupOf m ∈ ks) ->
  concat (map (fun g => List.filter (fun m => String.eqb (groupOf m) g) ms) ks) ≡ₚ ms.
Proof.
  intros Hn. induction ms as [|m ms IH]; intros Hin.
  - cbn [List.filter]. by rewrite concat_map_nil.
  - cbn [List.filter].
    assert (E : map (fun g => if String.eqb (groupOf m) g
                              then m :: List.filter (fun m0 => String.eqb (groupOf m0) g) ms
                              else List.filter (fun m0 => String.eqb (groupOf m0) g) ms) ks =
                map (fun g => (if String.eqb (groupOf m) g then [m] else []) ++
                              List.filter (fun m0 => String.eqb (groupOf m0) g) ms) ks).
    { apply map_ext. intros g. by destruct (String.eqb (groupOf m) g). }
    rewrite E, concat_add_one; [|exact Hn|apply Hin, list_elem_of_here].
    constructor. apply IH. intros m' Hm'. by apply Hin, list_elem_of_further.
Qed.

Lemma menuValues_entries ms : menuValues (map menuEntryOf ms) = map modelComboValue ms.
Proof.
  unfold menuValues. induction ms as [|m ms IH]; [reflexivity|].
  cbn [map concat app]. by rewrite IH.
Qed.

Lemma menuValues_groups (F : string -> list Model) ks :
  menuValues (map (fun g => MenuGroup g
                              (map (fun m => (modelName m, modelComboValue m)) (F g)))
                ks) =
  map modelComboValue (concat (map F ks)).
Proof.
  unfold menuValues. induction ks as [|k ks IH]; [reflexivity|].
  cbn [map concat]. rewrite IH, map_app, map_map. reflexivity.
Qed.

(** The menu in terms of the models alone. *)
Lemma buildGroupedLoraMenu_Some ms items :
  buildGroupedLoraMenu ms = Some items ->
  exists groupNames,
    NoDup groupNames /\ ascending groupNames /\
    (forall g, g ∈ groupNames <-> exists m, m ∈ ms /\ groupOf m = g) /\
    items =
    MenuEntry "None" "None" ::
    (if Nat.leb (length groupNames) 1
     then map menuEntryOf ms
     else map (fun g => MenuGroup g
                          (map (fun m => (modelName m, modelComboValue m))
                             (List.filter (fun m => String.eqb (groupOf m) g) ms)))
              groupNames).
Proof.
  unfold buildGroupedLoraMenu. intros H.
  destruct (fillGroups ms []) as [groups|] eqn:E; [|discriminate].
  cbn [mbind option_bind] in H. injection H as <-.
  destruct (fillGroups_Some ms [] groups E) as (I1 & I2 & I3).
  exists (sortStrings (map fst groups)).
  split; [|split; [|split]].
  - rewrite sortStrings_perm. apply I2. constructor.
  - apply sortStrings_ascending.
  - intros g. rewrite sortStrings_perm, I3. split.
    + by intros [H%elem_of_nil|H].
    + by right.
  - f_equal. destruct (Nat.leb (length (sortStrings (map fst groups))) 1);
      [reflexivity|].
    apply map_ext. intros g. by rewrite I1.
Qed.

(** X22: the selection menu offers "None" first and then every model
    exactly once.  With models of one group the entries come in the order
    of the catalog; with more groups there is one submenu per group, none
    of them empty, each holding the models of its group in the order of
    the catalog, and groups named in ASCII characters come in ascending
    order.  A model without a base model belongs to the group "Other". *)
Theorem menu_offers_every_model ms items :
  buildGroupedLoraMenu ms = Some items ->
  exists rest,
    items = MenuEntry "None" "None" :: rest /\
    menuValues rest ≡ₚ map modelComboValue ms /\
    ((forall m m', m ∈ ms -> m' ∈ ms -> groupOf m = groupOf m') ->
     rest = map menuEntryOf ms) /\
    (forall m m', m ∈ ms -> m' ∈ ms -> groupOf m <> groupOf m' ->
     exists groupNames,
       NoDup groupNames /\
       (Forall (fun g => asciiOnly g = true) groupNames -> ascending groupNames) /\
       (forall g, g ∈ groupNames <-> exists m, m ∈ ms /\ groupOf m = g) /\
       rest = map (fun g => MenuGroup g
                              (map (fun m => (modelName m, modelComboValue m))
                                 (List.filter (fun m => String.eqb (groupOf m) g) ms)))
                  groupNames) /\
    (forall g opts, MenuGroup g opts ∈ rest -> opts <> []).
Proof.
  intros H.
  destruct (buildGroupedLoraMenu_Some ms items H) as (gs & Hn & Ha & Hm & ->).
  eexists. split; [reflexivity|].
  destruct (Nat.leb (length gs) 1) eqn:El.
  - apply Nat.leb_le in El.
    split; [by rewrite menuValues_entries|]. split; [done|]. split.
    + intros m m' Hin Hin' Hne. exfalso.
      assert (H1 : groupOf m ∈ gs) by (apply Hm; by exists m).
      assert (H2 : groupOf m' ∈ gs) by (apply Hm; by exists m').
      destruct gs as [|g1 [|g2 gs]]; cbn in El; [by apply elem_of_nil in H1| |lia].
      apply list_elem_of_singleton in H1, H2. congruence.
    + intros g opts Hin. exfalso.
      apply list_elem_of_fmap in Hin as (m & Hm' & _). discriminate.
  - apply Nat.leb_gt in El. split; [|split; [|split]].
    + rewrite menuValues_groups. apply Permutation_map.
      apply partition_perm; [exact Hn|]. intros m Hin. apply Hm. by exists m.
    + intros Hsame. exfalso.
      destruct gs as [|g1 [|g2 gs]]; cbn in El; try lia.
      assert (H1 : g1 ∈ g1 :: g2 :: gs) by apply list_elem_of_here.
      assert (H2 : g2 ∈ g1 :: g2 :: gs)
        by apply list_elem_of_further, list_elem_of_here.
      apply Hm in H1 as (m1 & Hm1 & E1). apply Hm in H2 as (m2 & Hm2 & E2).
      apply NoDup_cons in Hn as [Hn _]. apply Hn.
      rewrite <- E1, (Hsame m1 m2 Hm1 Hm2), E2. apply list_elem_of_here.
    + intros m m' _ _ _. exists gs.
      split; [exact Hn|]. split; [by intros _|]. by split.
    + intros g opts Hin.
      apply list_elem_of_fmap in Hin as (g' & [= -> ->] & Hg).
      apply Hm in Hg as (m & Hin & E).
      assert (Hf : m ∈ List.filter (fun m0 => String.eqb (groupOf m0) g') ms).
      { apply list_elem_of_In, filter_In. split; [by apply list_elem_of_In|].
        by apply String.eqb_eq. }
      intros Hnil. apply (f_equal (@length _)) in Hnil. rewrite length_map in Hnil.
      destruct (List.filter _ ms); [by apply elem_of_nil in Hf|discriminate].
Qed.

Lemma menu_offers_every_model_witness :
  let a := mkModel "1" None "ink" (Some "SDXL") in
  let b := mkModel "2" (Some "5") "oil" (Some "Flux") in
  let c := mkModel "3" None "pen" None in
  exists items,
    buildGroupedLoraMenu [a; b; c] = Some items /\
    items = [MenuEntry "None" "None";
             MenuGroup "Flux" [("oil", "2@5:oil")];
             MenuGroup "Other" [("pen", "3:pen")];
             MenuGroup "SDXL" [("ink", "1:ink")]] /\
    menuValues (tl items) ≡ₚ ["1:ink"; "2@5:oil"; "3:pen"].
Proof.
  cbv zeta. eexists. split; [reflexivity|]. split; [reflexivity|].
  destruct (menu_offers_every_model
              [mkModel "1" None "ink" (Some "SDXL");
               mkModel "2" (Some "5") "oil" (Some "Flux");
               mkModel "3" None "pen" None] _ eq_refl)
    as (rest & E & Hp & _).
  injection E as <-. exact Hp.
Defined.

(** X23: the menu cannot be built for every catalog.  Building it throws
    exactly when some model's group, its base model or "Other", is the name
    of a property that [Object.prototype] has ("constructor", "toString",
    "__proto__", ...).  Such a name never becomes an own property of the
    table of groups: the lookup finds the inherited value, which is not
    falsy, no array is made, and the model is pushed to something that has
    no [push]. *)
Theorem menu_fails_on_inherited_names ms :
  buildGroupedLoraMenu ms = None <->
  Exists (fun m => groupOf m ∈ map fst objectPrototype) ms.
Proof.
  rewrite <- (fillGroups_None ms []) by constructor.
  unfold buildGroupedLoraMenu.
  destruct (fillGroups ms []); cbn; split; intros H; congruence.
Qed.

(** ** The Add LoRA button *)

Lemma clickAddLora_records choice node vs :
  listInvariant node ->
  slotRecords node = Some vs ->
  slotRecords (clickAddLora choice node) =
  Some (vs ++ [upgradedRecord (isDualMode node) choice]).
Proof.
  intros Hinv Hvs. open_invariant Hinv.
  pose proof (clickAddLora_widgets choice node pre slots btn post E Hpre Hs
                (conj Hb1 Hb2) Hpost Hu) as Ew.
  set (newW := loraWidgetAt (nextUid node) (length slots + 1)
                 (upgradedRecord (isDualMode node) choice)) in Ew.
  assert (Hs' : Forall (fun w => isLoraW w = true /\ _isAddLora w = false)
                       (slots ++ [newW])).
  { apply Forall_app. split; [exact Hs|]. constructor; [|constructor].
    split; [apply isLoraW_loraWidgetAt|reflexivity]. }
  rewrite (slotRecords_inPlace node pre slots btn post E Hpre Hs (conj Hb1 Hb2) Hpost)
    in Hvs.
  apply mapM_Some in Hvs.
  rewrite (slotRecords_inPlace (clickAddLora choice node) pre (slots ++ [newW]) btn post
             ltac:(by rewrite Ew) Hpre Hs' (conj Hb1 Hb2) Hpost).
  apply mapM_Some. apply Forall2_app; [exact Hvs|].
  constructor; [reflexivity|constructor].
Qed.

(** X21: the Add LoRA button without models.  When the catalog has no
    model to offer for the node, because it was never loaded or because
    the base model filter leaves none, a click on the button opens no
    menu: it adds at once a slot for "None" that is switched off, after
    the slots that were there, and the widget list keeps its invariant. *)
Theorem add_button_without_models cache node btn vs :
  listInvariant node ->
  slotRecords node = Some vs ->
  List.find _isAddLora (widgets node) = Some btn ->
  getFilteredLoraModels cache node = [] ->
  exists node',
    addLoraCallback cache node btn = Some (AddedSlot node') /\
    slotRecords node' =
      Some (vs ++ [mkLoraValue false "None" 1.0
                     (if isDualMode node then Some 1.0%Q else None)]) /\
    listInvariant node'.
Proof.
  intros Hinv Hvs Hbtn Hempty.
  assert (Ec : clickAddLora "None" node = addLoraSlot node btn "None").
  { unfold clickAddLora. by rewrite Hbtn. }
  exists (addLoraSlot node btn "None"). split; [|split].
  - unfold addLoraCallback. by rewrite Hempty.
  - rewrite <- Ec. exact (clickAddLora_records "None" node vs Hinv Hvs).
  - rewrite <- Ec. by apply clickAddLora_invariant.
Qed.

Lemma add_button_without_models_witness :
  exists btn node',
    List.find _isAddLora (widgets exampleNode) = Some btn /\
    addLoraCallback None exampleNode btn = Some (AddedSlot node') /\
    slotRecords node' =
      Some [defaultValue; mkLoraValue true "123:foo" 1.0 None;
            mkLoraValue false "None" 1.0 None].
Proof.
  assert (Hinv : listInvariant exampleNode).
  { apply clickAddLora_invariant. apply onNodeCreated_invariant.
    - constructor.
    - split; cbn; constructor. }
  eexists.
  destruct (add_button_without_models None exampleNode _
              [defaultValue; mkLoraValue true "123:foo" 1.0 None]
              Hinv eq_refl eq_refl eq_refl)
    as (node' & H1 & H2 & _).
  exists node'. split; [reflexivity|]. split; [exact H1|exact H2].
Defined.

(** ** The base model filter of a node *)

Lemma find_app_none {A} (p : A -> bool) l1 l2 :
  Forall (fun x => p x = false) l1 -> List.find p (l1 ++ l2) = List.find p l2.
Proof. induction 1 as [|x l Hx _ IH]; cbn; [reflexivity|]. by rewrite Hx. Qed.

Lemma find_app_split {A} (p : A -> bool) l1 l2 l2' :
  List.find p l2 = List.find p l2' -> List.find p (l1 ++ l2) = List.find p (l1 ++ l2').
Proof. intros H. induction l1 as [|x l IH]; cbn; [exact H|]. by destruct (p x). Qed.

Lemma isLoraW_not_base_model w :
  isLoraW w = true -> String.eqb (name w) "base_model" = false.
Proof.
  unfold isLoraW. intros H. apply andb_true_iff in H as [H _].
  destruct (name w) as [|c s]; [discriminate|].
  destruct (Ascii.eqb_spec c "b") as [->|Hne].
  - cbv in H. discriminate.
  - cbn [String.eqb]. apply Ascii.eqb_neq in Hne. by rewrite Hne.
Qed.

Lemma find_base_model_inPlace pre slots rest :
  Forall (fun w => isLoraW w = true /\ _isAddLora w = false) slots ->
  List.find (fun w => String.eqb (name w) "base_model") (pre ++ slots ++ rest) =
  List.find (fun w => String.eqb (name w) "base_model") (pre ++ rest).
Proof.
  intros Hs. apply find_app_split. apply find_app_none.
  eapply Forall_impl; [exact Hs|]. cbn beta. intros w [H _].
  by apply isLoraW_not_base_model.
Qed.

Lemma getFilteredLoraModels_find cache node node' :
  List.find (fun w => String.eqb (name w) "base_model") (widgets node') =
  List.find (fun w => String.eqb (name w) "base_model") (widgets node) ->
  getFilteredLoraModels cache node' = getFilteredLoraModels cache node.
Proof. intros H. unfold getFilteredLoraModels. by rewrite H. Qed.

(** X28: the list operations do not disturb the base model filter.  On a
    node that keeps the invariant of the widget list, Add, Remove, Move Up
    and Move Down leave the models that the menus offer as they were: the
    filter is read from the first widget named [base_model], and no slot
    widget carries that name. *)
Theorem list_ops_keep_filter cache node op :
  listInvariant node ->
  getFilteredLoraModels cache (runOp node op) = getFilteredLoraModels cache node.
Proof.
  intros Hinv. apply getFilteredLoraModels_find.
  assert (Hdown : forall j,
            List.find (fun w => String.eqb (name w) "base_model")
              (widgets (moveLoraDown j node)) =
            List.find (fun w => String.eqb (name w) "base_model") (widgets node)).
  { intros j. open_invariant Hinv.
    assert (Eg : getLoraWidgets node = slots).
    { unfold getLoraWidgets. rewrite E.
      by apply (inPlace_getLoraWidgets pre slots post btn Hpre Hs (conj Hb1 Hb2) Hpost). }
    destruct (slots !! j) as [a|] eqn:Ea.
    2:{ rewrite moveLoraDown_out_of_range; [reflexivity|]. left. by rewrite Eg. }
    destruct (slots !! S j) as [b|] eqn:Eb.
    2:{ rewrite moveLoraDown_out_of_range; [reflexivity|]. right. by rewrite Eg. }
    rewrite (moveLoraDown_widgets j node pre slots btn post a b E Hpre Hs
               (conj Hb1 Hb2) Hpost Hu Ea Eb).
    cbn [widgets withWidgets]. rewrite E, !find_base_model_inPlace; auto.
    apply renumbered_slots_isLoraW.
    pose proof (split_two slots j a b Ea Eb) as Esplit.
    rewrite Esplit in Hs. apply Forall_app in Hs as [Hs1 Hs2].
    apply Forall_cons in Hs2 as [Hwa Hs2]. apply Forall_cons in Hs2 as [Hwb Hs2].
    apply Forall_app. split; [exact Hs1|].
    constructor; [exact Hwb|]. constructor; [exact Hwa|exact Hs2]. }
  destruct op as [choice|j|j|j]; cbn [runOp].
  - open_invariant Hinv.
    rewrite (clickAddLora_widgets choice node pre slots btn post E Hpre Hs
               (conj Hb1 Hb2) Hpost Hu).
    cbn [widgets]. rewrite E, !find_base_model_inPlace; auto.
    apply Forall_app. split; [exact Hs|]. constructor; [|constructor].
    split; [apply isLoraW_loraWidgetAt|reflexivity].
  - open_invariant Hinv.
    destruct (slots !! j) as [w|] eqn:Ej.
    + rewrite (removeLora_widgets j node pre slots btn post w E Hpre Hs
                 (conj Hb1 Hb2) Hpost Hu Ej).
      cbn [widgets withWidgets]. rewrite E, !find_base_model_inPlace; auto.
      apply renumbered_slots_isLoraW. apply Forall_app. split.
      * by apply Forall_take.
      * by apply Forall_drop.
    + unfold removeLora, getLoraWidgets.
      rewrite E, (inPlace_getLoraWidgets pre slots post btn Hpre Hs (conj Hb1 Hb2) Hpost).
      by rewrite Ej, <- E.
  - destruct j as [|j]; [reflexivity|]. apply Hdown.
  - apply Hdown.
Qed.

Lemma list_ops_keep_filter_witness :
  let cache := Some (makeCache [mkModel "1" None "ink" (Some "SDXL")]) in
  listInvariant exampleNode /\
  getFilteredLoraModels cache (runOp exampleNode (Remove 0)) =
  getFilteredLoraModels cache exampleNode.
Proof.
  cbv zeta.
  assert (Hinv : listInvariant exampleNode).
  { apply clickAddLora_invariant. apply onNodeCreated_invariant.
    - constructor.
    - split; cbn; constructor. }
  split; [exact Hinv|].
  exact (list_ops_keep_filter
           (Some (makeCache [mkModel "1" None "ink" (Some "SDXL")]))
           exampleNode (Remove 0) Hinv).
Defined.

(** X29: a new node offers the whole catalog.  On a node as creation
    leaves it, whatever widgets the host had put on it, the base model
    filter stands at "All": the menus offer every model of the catalog,
    and nothing when the catalog was never loaded. *)
Theorem new_node_offers_whole_catalog cache connected host :
  getFilteredLoraModels cache (onNodeCreated connected host) =
  match cache with
  | Some c => models c
  | None => []
  end.
Proof.
  destruct cache as [c|]; [|reflexivity].
  destruct (onNodeCreated_widgets connected host)
    as (bm & ta & slot & add & auth & refresh & Ew & En & Ed & Ev).
  assert (Ef : List.find (fun w => String.eqb (name w) "base_model")
                 (widgets (onNodeCreated connected host)) = Some bm).
  { rewrite Ew, find_app_none.
    - cbn [map] in En. injection En as Nbm _ _ _ _ _.
      cbn [List.find]. by rewrite Nbm.
    - apply Forall_forall. intros w Hin.
      apply list_elem_of_In, filter_In in Hin as [_ Hk].
      repeat (apply orb_true_iff in Hk as [Hk|Hk]);
        apply String.eqb_eq in Hk; by rewrite Hk. }
  unfold getFilteredLoraModels. by rewrite Ef, Ev.
Qed.

(** ** The base model filter of the single-LoRA node *)

Lemma find_none {A} (p : A -> bool) l :
  Forall (fun x => p x = false) l -> List.find p l = None.
Proof. induction 1 as [|x l Hx _ IH]; cbn; [reflexivity|]. by rewrite Hx. Qed.

(** X27: where the single-LoRA node gets its base model filter.  On a
    node whose widgets are distinct objects, the filter is a new combo
    that stands at "All", placed right before the first widget named
    [lora_name]; every other widget keeps its place in the order.  A node
    without such a widget gets no filter. *)
Theorem base_model_filter_placed node :
  uidsFresh node ->
  let node' := setupSingleLora node in
  (forall l1 lw l2,
     widgets node = l1 ++ lw :: l2 ->
     name lw = "lora_name" ->
     Forall (fun w => name w <> "lora_name") l1 ->
     widgets node' = l1 ++ baseModelWidgetAt (nextUid node) :: lw :: l2) /\
  (Forall (fun w => name w <> "lora_name") (widgets node) -> node' = node).
Proof.
  intros [Hn Hlt] node'. subst node'. unfold setupSingleLora. split.
  - intros l1 lw l2 E Hlw Hl1.
    assert (Ef : List.find (fun w => String.eqb (name w) "lora_name") (widgets node) =
                 Some lw).
    { rewrite E, find_app_none.
      - cbn [List.find]. by rewrite Hlw.
      - eapply Forall_impl; [exact Hl1|]. cbn beta. intros w Hw.
        by apply String.eqb_neq. }
    rewrite Ef. cbn [addBaseModelWidget pushWidget widgets nextUid].
    set (bm := baseModelWidgetAt (nextUid node)).
    rewrite (indexOf_app bm (widgets node) []) by (by apply fresh_uid_not_in).
    assert (Il : indexOf lw (widgets node ++ [bm]) = Z.of_nat (length l1)).
    { rewrite E, <- app_assoc. cbn [app]. apply indexOf_app.
      rewrite E in Hn. by eapply NoDup_uid_middle. }
    rewrite Il.
    destruct (Z.of_nat (length l1) <? Z.of_nat (length (widgets node)))%Z eqn:El.
    2:{ apply Z.ltb_ge in El. rewrite E, length_app in El. cbn in El. lia. }
    rewrite spliceDelete_app, app_nil_r. cbn [widgets withWidgets].
    rewrite E. apply spliceInsert_app.
  - intros Hnone.
    rewrite find_none; [reflexivity|].
    eapply Forall_impl; [exact Hnone|]. cbn beta. intros w Hw.
    by apply String.eqb_neq.
Qed.

Lemma base_model_filter_placed_witness :
  let combo := mkWidget 0 "lora_name" "combo" (VString "1:ink") true false false false in
  let num := mkWidget 1 "strength_model" "number" VNull true false false false in
  let node := mkNode [num; combo] None 2 in
  uidsFresh node /\
  map name (widgets (setupSingleLora node)) =
    ["strength_model"; "base_model"; "lora_name"].
Proof.
  cbv zeta.
  assert (Hu : uidsFresh
                 (mkNode [mkWidget 1 "strength_model" "number" VNull true false false false;
                          mkWidget 0 "lora_name" "combo" (VString "1:ink") true false
                            false false] None 2)).
  { split; cbn [widgets nextUid map uid].
    - apply NoDup_cons. split; [|apply NoDup_singleton].
      intros H. apply list_elem_of_singleton in H. discriminate.
    - constructor; [cbn; lia|]. constructor; [cbn; lia|constructor]. }
  split; [exact Hu|].
  rewrite (proj1 (base_model_filter_placed _ Hu)
             [mkWidget 1 "strength_model" "number" VNull true false false false]
             (mkWidget 0 "lora_name" "combo" (VString "1:ink") true false false false)
             [] eq_refl eq_refl
             ltac:(constructor; [discriminate|constructor])).
  reflexivity.
Defined.

(** ** The name in a slot row *)

Lemma length_append (a b : string) :
  String.length (a ++ b)%string = String.length a + String.length b.
Proof. induction a as [|c a IH]; cbn; [reflexivity|]. by rewrite IH. Qed.

Lemma append_nil_r (a : string) : (a ++ "")%string = a.
Proof. induction a as [|c a IH]; cbn; [reflexivity|]. by rewrite IH. Qed.

Lemma dropLast_snoc (s : string) c : dropLast (s ++ String c "")%string = s.
Proof.
  induction s as [|x s IH]; [reflexivity|].
  cbn [String.append dropLast]. rewrite IH.
  destruct s; reflexivity.
Qed.

Lemma snoc_cases (s : string) :
  s = ""%string \/ exists s' c, s = (s' ++ String c "")%string.
Proof.
  induction s as [|x s IH]; [by left|]. right.
  destruct IH as [->|(s' & c & ->)].
  - by exists ""%string, x.
  - by exists (String x s'), c.
Qed.

Lemma snoc_inj (a b : string) x y :
  (a ++ String x "" = b ++ String y "")%string -> a = b /\ x = y.
Proof.
  revert b. induction a as [|c a IH]; intros b H.
  - destruct b as [|d b]; cbn in H; [by injection H as ->|].
    injection H as -> H. destruct b; discriminate.
  - destruct b as [|d b]; cbn in H.
    + injection H as -> H. destruct a; discriminate.
    + injection H as -> H. destruct (IH b H) as [-> ->]. by split.
Qed.

Lemma prefix_snoc (p q t : string) c :
  (p ++ q = t ++ String c "")%string ->
  (q = ""%string /\ p = (t ++ String c "")%string) \/
  exists q', q = (q' ++ String c "")%string /\ (p ++ q')%string = t.
Proof.
  intros H. destruct (snoc_cases q) as [->|(q' & d & ->)].
  - left. split; [reflexivity|]. by rewrite append_nil_r in H.
  - right. rewrite <- append_assoc in H. apply snoc_inj in H as [H ->].
    by exists q'.
Qed.

(** What the loop of [truncateText] leaves of [t], given enough rounds. *)
Lemma truncateLoop_spec (measureText : string -> Q) (maxWidth : Q) :
  forall fuel t,
    String.length t <= fuel ->
    exists p s,
      t = (p ++ s)%string /\
      truncateLoop measureText maxWidth fuel t = p /\
      (String.length p <= 1 \/ (measureText (p ++ ellipsis)%string <= maxWidth)%Q) /\
      (1 <= String.length t -> 1 <= String.length p) /\
      (forall p' s', t = (p' ++ s')%string -> String.length p < String.length p' ->
                     (maxWidth < measureText (p' ++ ellipsis)%string)%Q).
Proof.
  induction fuel as [|fuel IH]; intros t Hlen.
  - exists t, ""%string. rewrite append_nil_r.
    split; [reflexivity|]. split; [reflexivity|]. split; [left; lia|].
    split; [lia|]. intros p' s' E Hlt. apply (f_equal String.length) in E.
    rewrite length_append in E. lia.
  - cbn [truncateLoop].
    destruct (Nat.ltb 1 (String.length t) &&
              Qltb maxWidth (measureText (t ++ ellipsis)%string)) eqn:Ec.
    + apply andb_true_iff in Ec as [E1 E2].
      apply Nat.ltb_lt in E1. apply Qltb_true in E2.
      destruct (snoc_cases t) as [->|(t' & c & ->)]; [cbn in E1; lia|].
      rewrite dropLast_snoc.
      rewrite length_append in Hlen, E1. cbn [String.length] in Hlen, E1.
      destruct (IH t' ltac:(lia)) as (p & s & Et & Er & Hfit & Hmin & Hmax).
      exists p, (s ++ String c "")%string.
      split; [by rewrite <- append_assoc, <- Et|]. split; [exact Er|].
      split; [exact Hfit|]. split; [intros _; apply Hmin; lia|].
      intros p' s' E Hlt. symmetry in E.
      destruct (prefix_snoc _ _ _ _ E) as [[-> ->]|(q' & -> & E')].
      * exact E2.
      * by apply (Hmax p' q').
    + exists t, ""%string. rewrite append_nil_r.
      split; [reflexivity|]. split; [reflexivity|]. split.
      * apply andb_false_iff in Ec as [Ec|Ec].
        -- left. apply Nat.ltb_ge in Ec. lia.
        -- right. by apply Qltb_false in Ec.
      * split; [lia|]. intros p' s' E Hlt. apply (f_equal String.length) in E.
        rewrite length_append in E. lia.
Qed.

(** X24: what [truncateText] returns.  A text that fits is returned as it
    is.  A text of ASCII characters that does not fit comes back as one of
    its prefixes followed by the ellipsis: the loop always stops within
    the length of the text; the prefix is the longest one that fits
    together with the ellipsis, every longer one being too wide; and when
    not even the first character fits with the ellipsis, the first
    character and the ellipsis are returned all the same. *)
Theorem truncateText_prefix (measureText : string -> Q) (text : string) (maxWidth : Q) :
  ((measureText text <= maxWidth)%Q ->
   truncateText measureText text maxWidth = text) /\
  (asciiOnly text = true ->
   (maxWidth < measureText text)%Q ->
   exists p s,
     text = (p ++ s)%string /\
     truncateText measureText text maxWidth = (p ++ ellipsis)%string /\
     (String.length p <= 1 \/ (measureText (p ++ ellipsis)%string <= maxWidth)%Q) /\
     (1 <= String.length text -> 1 <= String.length p) /\
     (forall p' s', text = (p' ++ s')%string -> String.length p < String.length p' ->
                    (maxWidth < measureText (p' ++ ellipsis)%string)%Q)).
Proof.
  unfold truncateText. split.
  - intros H. apply Qle_bool_iff in H. by rewrite H.
  - intros _ H.
    assert (E : Qle_bool (measureText text) maxWidth = false).
    { destruct (Qle_bool (measureText text) maxWidth) eqn:E; [|reflexivity].
      apply Qle_bool_iff in E. lra. }
    rewrite E.
    destruct (truncateLoop_spec measureText maxWidth (String.length text) text
                ltac:(lia)) as (p & s & Et & Er & Hrest).
    exists p, s. rewrite Er. by split.
Qed.

(** X25: the name that a slot row shows.  When the name of the selection
    fits the name zone, the row shows it in full.  In a row narrower than
    the width at which the name zone is not negative (132 in single mode,
    198 in dual mode) nothing fits: for a name of ASCII characters the row
    then shows the first character of the name followed by the ellipsis,
    and the ellipsis alone for an empty name. *)
Theorem narrow_row_name (measureText : string -> Q) width dual (w : SlotWidget) :
  (forall s, (0 <= measureText s)%Q) ->
  let shown := rawName (lora (value w)) in
  ((measureText shown <= zw (name_zone (loraZones width dual)))%Q ->
   drawName measureText width dual w = shown) /\
  (asciiOnly shown = true ->
   (width < minWidth dual)%Q ->
   drawName measureText width dual w =
   (match shown with
    | EmptyString => EmptyString
    | String c _ => String c EmptyString
    end ++ ellipsis)%string).
Proof.
  intros Hpos shown. unfold drawName. fold shown. split.
  - intros H. unfold truncateText. apply Qle_bool_iff in H. by rewrite H.
  - intros _ Hw.
    assert (Hneg : (zw (name_zone (loraZones width dual)) < 0)%Q).
    { destruct dual; cbn [loraZones name_zone zw];
        unfold minWidth, MARGIN, SWITCH_PAD, SWITCH_W, ARROW_W, STRENGTH_NUM_W in *;
        lra. }
    set (maxWidth := zw (name_zone (loraZones width dual))) in *.
    unfold truncateText.
    assert (E : Qle_bool (measureText shown) maxWidth = false).
    { destruct (Qle_bool (measureText shown) maxWidth) eqn:E; [|reflexivity].
      apply Qle_bool_iff in E. specialize (Hpos shown). lra. }
    rewrite E.
    destruct (truncateLoop_spec measureText maxWidth (String.length shown) shown
                ltac:(lia)) as (p & s & Et & Er & Hfit & Hmin & _).
    rewrite Er. f_equal.
    destruct Hfit as [Hfit|Hfit].
    2:{ specialize (Hpos (p ++ ellipsis)%string). lra. }
    rewrite Et in Hmin |- *. rewrite length_append in Hmin.
    destruct p as [|c [|d p]]; cbn in Hfit; try lia.
    + destruct s as [|c s]; [reflexivity|]. cbn in Hmin. lia.
    + reflexivity.
Qed.

Lemma narrow_row_name_witness :
  let measureText := fun s => inject_Z (7 * Z.of_nat (String.length s)) in
  let w := mkSlotWidget (mkLoraValue true "123@7:ink" 1.0 None) 0 0 None in
  drawName measureText 300 false w = "ink"%string /\
  drawName measureText 100 false w = ("i" ++ ellipsis)%string.
Proof.
  cbv zeta.
  assert (Hpos : forall s, (0 <= inject_Z (7 * Z.of_nat (String.length s)))%Q).
  { intros s. change 0%Q with (inject_Z 0). rewrite <- Zle_Qle. lia. }
  split.
  - apply (proj1 (narrow_row_name
                    (fun s => inject_Z (7 * Z.of_nat (String.length s))) 300 false
                    (mkSlotWidget (mkLoraValue true "123@7:ink" 1.0 None) 0 0 None)
                    Hpos)).
    vm_compute. discriminate.
  - apply (proj2 (narrow_row_name
                    (fun s => inject_Z (7 * Z.of_nat (String.length s))) 100 false
                    (mkSlotWidget (mkLoraValue true "123@7:ink" 1.0 None) 0 0 None)
                    Hpos)); [reflexivity|].
    vm_compute. reflexivity.
Defined.
